(** * dripline-orpheus: the motor coordinator and the mode-frequency helper

    A shallow embedding of [data_taking_scripts/motor.py] (classes [Motor],
    its four role subclasses and [OrpheusMotors]) and of [DataLogger.flmn]
    from [data_taking_scripts/data_logging.py], with the properties of the
    motor-coordination arithmetic stated and proved over it.

    Numbers.  The motor code computes on Python numbers: unbounded [int]s
    and binary64 [float]s.  Both are modelled as they are: an [int] is a
    [Z], a [float] is a [spec_float] at precision 53 and maximal exponent
    1024, and [+], [-], [*], [/], [round] dispatch on the two kinds the way
    the interpreter does, raising [ZeroDivisionError], [OverflowError] and
    [ValueError] where it does.  [flmn] computes on the same numbers; the
    [acos] of the C library, which [math.acos] calls, is a parameter.

    Effects.  Every call on the dripline interface, every [print] and every
    [time.sleep] is an event appended to the trace of a [World]; the answers
    of the instruments to [get] are read from the world's [device]. *)

From Stdlib Require Import ZArith List String Ascii Bool Lia.
From Stdlib Require Import SpecFloat DecimalString.
Import ListNotations.

Local Open Scope string_scope.
Local Open Scope list_scope.
Local Open Scope Z_scope.

(** ** Exceptions and results *)

Inductive exn : Type :=
  | ZeroDivisionError
  | OverflowError
  | ValueError
  | IndexError.

Inductive result (A : Type) : Type :=
  | Ok (a : A)
  | Raise (e : exn).

Arguments Ok {A} a.
Arguments Raise {A} e.

Definition rbind {A B : Type} (r : result A) (k : A -> result B) : result B :=
  match r with
  | Ok a => k a
  | Raise e => Raise e
  end.

Notation "'do' x <- e ; k" := (rbind e (fun x => k))
  (at level 10, x name, e at level 100, k at level 200).

Definition is_ok {A : Type} (r : result A) : bool :=
  match r with
  | Ok _ => true
  | Raise _ => false
  end.

(** ** Python numbers *)

(** binary64 *)
Definition prec : Z := 53.
Definition emax : Z := 1024.

Definition float64 : Type := spec_float.

Definition fadd : float64 -> float64 -> float64 := SFadd prec emax.
Definition fsub : float64 -> float64 -> float64 := SFsub prec emax.
Definition fmul : float64 -> float64 -> float64 := SFmul prec emax.
Definition fdiv : float64 -> float64 -> float64 := SFdiv prec emax.

Definition is_zero (f : float64) : bool :=
  match f with
  | S754_zero _ => true
  | _ => false
  end.

Definition is_infinity (f : float64) : bool :=
  match f with
  | S754_infinity _ => true
  | _ => false
  end.

(** The float nearest to the integer [z] (ties to even); an infinity when
    [z] is out of range. *)
Definition Z_to_float (z : Z) : float64 :=
  binary_normalize prec emax z 0 false.

(** The float nearest to the quotient [a / b] of two integers, [b <> 0]
    (ties to even): the quotient is taken with at least 56 significant
    bits, the remainder is kept as a sticky last bit, and the whole is
    rounded once.  A zero quotient takes the sign of the operands. *)
Definition Z_div_float (a b : Z) : float64 :=
  let negate := xorb (a <? 0) (b <? 0) in
  let A := Z.abs a in
  let B := Z.abs b in
  if A =? 0 then S754_zero negate
  else
    let k := Z.max 0 (56 + Z.log2 B - Z.log2 A) in
    let q := (A * 2 ^ k) / B in
    let r := (A * 2 ^ k) mod B in
    let m := 2 * q + (if r =? 0 then 0 else 1) in
    binary_normalize prec emax (cond_Zopp negate m) (- (k + 1)) false.

(** The integer nearest to [m * 2^e], ties to the even one. *)
Definition round_half_even (m : positive) (e : Z) : Z :=
  if 0 <=? e then Z.pos m * 2 ^ e
  else
    let d := 2 ^ (- e) in
    let q := Z.pos m / d in
    let r := Z.pos m mod d in
    match 2 * r ?= d with
    | Lt => q
    | Gt => q + 1
    | Eq => if Z.even q then q else q + 1
    end.

(** A number is an [int] or a [float]. *)
Inductive pynum : Type :=
  | PInt (z : Z)
  | PFloat (f : float64).

(** [float(x)]: the conversion applied to an [int] operand that meets a
    [float] one. *)
Definition as_float (x : pynum) : result float64 :=
  match x with
  | PFloat f => Ok f
  | PInt z =>
      let f := Z_to_float z in
      if is_infinity f then Raise OverflowError else Ok f
  end.

Definition float_binop (op : float64 -> float64 -> float64) (x y : pynum)
  : result pynum :=
  do a <- as_float x;
  do b <- as_float y;
  Ok (PFloat (op a b)).

(** [x + y] *)
Definition py_add (x y : pynum) : result pynum :=
  match x, y with
  | PInt a, PInt b => Ok (PInt (a + b))
  | _, _ => float_binop fadd x y
  end.

(** [x - y] *)
Definition py_sub (x y : pynum) : result pynum :=
  match x, y with
  | PInt a, PInt b => Ok (PInt (a - b))
  | _, _ => float_binop fsub x y
  end.

(** [x * y] *)
Definition py_mul (x y : pynum) : result pynum :=
  match x, y with
  | PInt a, PInt b => Ok (PInt (a * b))
  | _, _ => float_binop fmul x y
  end.

(** [x / y], true division: always a [float]. *)
Definition py_truediv (x y : pynum) : result pynum :=
  match x, y with
  | PInt a, PInt b =>
      if b =? 0 then Raise ZeroDivisionError
      else
        let q := Z_div_float a b in
        if is_infinity q then Raise OverflowError else Ok (PFloat q)
  | _, _ =>
      do a <- as_float x;
      do b <- as_float y;
      if is_zero b then Raise ZeroDivisionError
      else Ok (PFloat (fdiv a b))
  end.

(** [int(round(x))]: [round] of one argument gives an [int], the nearest
    one, ties to even; [int] of an [int] is that [int]. *)
Definition py_round (x : pynum) : result Z :=
  match x with
  | PInt z => Ok z
  | PFloat S754_nan => Raise ValueError
  | PFloat (S754_infinity _) => Raise OverflowError
  | PFloat (S754_zero _) => Ok 0
  | PFloat (S754_finite s m e) => Ok (cond_Zopp s (round_half_even m e))
  end.

Definition py_int (z : Z) : Z := z.

(** The float nearest to [n / d]: what the division [n/d] of two [int]s
    evaluates to, and what a decimal literal of that value denotes ([lit 1
    10] is [0.1], [lit 7 2] is [3.5]). *)
Definition lit (n d : Z) : pynum := PFloat (Z_div_float n d).

(** ** The world outside: the dripline interface, the console, the clock *)

(** A value sent with [cmd_interface.set]. *)
Inductive value : Type :=
  | VInt (z : Z)
  | VStr (s : string).

Inductive event : Type :=
  | EvInterface (auth_file : string)
      (* Interface(dripline_config={'auth-file': auth_file}) *)
  | EvGet (endpoint : string)           (* cmd_interface.get(endpoint) *)
  | EvSet (endpoint : string) (v : value) (* cmd_interface.set(endpoint, v) *)
  | EvPrint (text : string)             (* print(text) *)
  | EvSleep (seconds : Z).              (* time.sleep(seconds) *)

(** [device k endpoint] is the ['value_raw'] the instrument behind
    [endpoint] answers to the [k]-th [get] of the run; [asked] counts the
    [get]s made so far.  The interface itself is an external collaborator,
    known at its boundary only: its calls are recorded and are taken to
    succeed (a failure of the remote side would propagate out of whichever
    method made the call). *)
Record World : Type := mkWorld {
  trace : list event;
  asked : nat;
  device : nat -> string -> string
}.

Definition M (A : Type) : Type := World -> result A * World.

Definition ret {A : Type} (a : A) : M A := fun w => (Ok a, w).

Definition bind {A B : Type} (m : M A) (k : A -> M B) : M B :=
  fun w =>
    match m w with
    | (Ok a, w') => k a w'
    | (Raise e, w') => (Raise e, w')
    end.

Definition lift {A : Type} (r : result A) : M A := fun w => (r, w).

Notation "'run' x <- e ; k" := (bind e (fun x => k))
  (at level 10, x name, e at level 100, k at level 200).

Definition emit (ev : event) : M unit :=
  fun w => (Ok tt, mkWorld (trace w ++ [ev]) (asked w) (device w)).

Definition interface_new (auth_file : string) : M unit :=
  emit (EvInterface auth_file).

Definition interface_get (endpoint : string) : M string :=
  fun w =>
    (Ok (device w (asked w) endpoint),
     mkWorld (trace w ++ [EvGet endpoint]) (S (asked w)) (device w)).

Definition interface_set (endpoint : string) (v : value) : M unit :=
  emit (EvSet endpoint v).

Definition print (text : string) : M unit := emit (EvPrint text).

Definition sleep (seconds : Z) : M unit := emit (EvSleep seconds).

(** The events a computation added to the trace. *)
Definition emitted (w w' : World) : list event :=
  skipn (List.length (trace w)) (trace w').

(** [str(z)] *)
Definition str (z : Z) : string := NilZero.string_of_int (Z.to_int z).

(** [repr] of a list of strings, as [print] shows it. *)
Definition repr_list (l : list string) : string :=
  ("[" ++ String.concat ", " (map (fun s => "'" ++ s ++ "'") l) ++ "]")%string.

(** [x in l] *)
Definition contains (l : list string) (x : string) : bool :=
  existsb (String.eqb x) l.

(** [l.index(x)] *)
Fixpoint index (l : list string) (x : string) : result nat :=
  match l with
  | [] => Raise ValueError
  | y :: l' =>
      if String.eqb y x then Ok O
      else do i <- index l' x; Ok (S i)
  end.

(** [l[i]] *)
Definition getitem {A : Type} (l : list A) (i : nat) : result A :=
  match nth_error l i with
  | Some a => Ok a
  | None => Raise IndexError
  end.

(** ** class Motor *)

Module Motor.

Record t : Type := mk {
  auths_file : string;
  name : string
}.

Definition __init__ (auths_file name : string) : M t :=
  run _ <- interface_new auths_file;
  ret (mk auths_file name).

Definition get_name (self : t) : string := name self.

Definition get_status (self : t) : M string :=
  let command := (name self ++ "_motor_request_status")%string in
  run status <- interface_get command;
  ret status.

(** [while self.get_status() != 'R': print(self.get_status()); time.sleep(1)].
    [fuel] bounds the number of times the loop condition is evaluated;
    [None] is a loop still running when the bound is reached. *)
Fixpoint wait_for_motor (fuel : nat) (self : t) : M (option unit) :=
  match fuel with
  | O => ret None
  | S fuel' =>
      run status <- get_status self;
      if String.eqb status "R" then ret (Some tt)
      else
        run shown <- get_status self;
        run _ <- print shown;
        run _ <- sleep 1;
        wait_for_motor fuel' self
  end.

Definition move_to_zero (self : t) : M unit :=
  let command := (name self ++ "_move_to_position")%string in
  interface_set command (VInt 0).

Definition move_steps (self : t) (steps : Z) : M unit :=
  let command := (name self ++ "_move_steps")%string in
  interface_set command (VInt steps).

Definition stop_and_kill (self : t) : M unit :=
  let command := (name self ++ "_status_command")%string in
  interface_set command (VStr "stop_and_kill").

End Motor.

Definition CurvedMirrorMotor (auths_file : string) : M Motor.t :=
  Motor.__init__ auths_file "curved_mirror".

Definition BottomDielectricPlateMotor (auths_file : string) : M Motor.t :=
  Motor.__init__ auths_file "bottom_dielectric_plate".

Definition TopDielectricPlateMotor (auths_file : string) : M Motor.t :=
  Motor.__init__ auths_file "top_dielectric_plate".

Definition TestMotor (auths_file : string) : M Motor.t :=
  Motor.__init__ auths_file "resonator_coupling".

(** ** class OrpheusMotors *)

(** [order] is an order in which the set built from the list [l] can be
    iterated: every element of [l], once. *)
Definition iterates (l order : list string) : Prop :=
  NoDup order /\ forall x, In x order <-> In x l.

Module OrpheusMotors.

(** [list_of_motors] holds [set(list_of_motors)] in the order in which the
    set is iterated.  The attributes [curved_mirror], [bottom_plate] and
    [top_plate] exist only once their motor has been created. *)
Record t : Type := mk {
  auths_file : string;
  list_of_motors : list string;
  motors : list Motor.t;
  motor_names : list string;
  curved_mirror : option Motor.t;
  bottom_plate : option Motor.t;
  top_plate : option Motor.t
}.

Definition append_motor (self : t) (m : Motor.t) : t :=
  mk (auths_file self) (list_of_motors self) (motors self ++ [m])
     (motor_names self) (curved_mirror self) (bottom_plate self)
     (top_plate self).

Definition set_curved_mirror (self : t) (m : Motor.t) : t :=
  mk (auths_file self) (list_of_motors self) (motors self)
     (motor_names self) (Some m) (bottom_plate self) (top_plate self).

Definition set_bottom_plate (self : t) (m : Motor.t) : t :=
  mk (auths_file self) (list_of_motors self) (motors self)
     (motor_names self) (curved_mirror self) (Some m) (top_plate self).

Definition set_top_plate (self : t) (m : Motor.t) : t :=
  mk (auths_file self) (list_of_motors self) (motors self)
     (motor_names self) (curved_mirror self) (bottom_plate self) (Some m).

Definition set_motor_names (self : t) (names : list string) : t :=
  mk (auths_file self) (list_of_motors self) (motors self)
     names (curved_mirror self) (bottom_plate self) (top_plate self).

(** [for motor in self.list_of_motors: ...] *)
Fixpoint create_motors (order : list string) (self : t) : M t :=
  match order with
  | [] => ret self
  | motor :: rest =>
      if String.eqb motor "curved_mirror" then
        run m <- CurvedMirrorMotor (auths_file self);
        create_motors rest (append_motor (set_curved_mirror self m) m)
      else if String.eqb motor "bottom_dielectric_plate" then
        run m <- BottomDielectricPlateMotor (auths_file self);
        create_motors rest (append_motor (set_bottom_plate self m) m)
      else if String.eqb motor "top_dielectric_plate" then
        run m <- TopDielectricPlateMotor (auths_file self);
        create_motors rest (append_motor (set_top_plate self m) m)
      else
        create_motors rest self
  end.

(** [OrpheusMotors(auths_file, list_of_motors)], [order] being the order
    in which [set(list_of_motors)] is iterated. *)
Definition __init__ (auths_file : string) (order : list string) : M t :=
  let self := mk auths_file order [] [] None None None in
  run self <- create_motors (list_of_motors self) self;
  ret (set_motor_names self (map Motor.get_name (motors self))).

Fixpoint get_motor_status_from (ms : list Motor.t) (status : list string)
  : M (list string) :=
  match ms with
  | [] => ret status
  | motor :: rest =>
      run s <- Motor.get_status motor;
      get_motor_status_from rest (status ++ [s])
  end.

Definition get_motor_status (self : t) : M (list string) :=
  get_motor_status_from (motors self) [].

(** [while (self.get_motor_status() != ready): ...]; [fuel] and [None] as
    in [Motor.wait_for_motor]. *)
Fixpoint wait_loop (fuel : nat) (self : t) (ready : list string)
  : M (option unit) :=
  match fuel with
  | O => ret None
  | S fuel' =>
      run status <- get_motor_status self;
      if list_eq_dec string_dec status ready then ret (Some tt)
      else
        run shown <- get_motor_status self;
        run _ <- print (repr_list shown);
        run _ <- sleep 1;
        wait_loop fuel' self ready
  end.

Definition wait_for_motors (fuel : nat) (self : t) : M (option unit) :=
  run _ <- print (repr_list (motor_names self));
  let ready := repeat "R" (List.length (motor_names self)) in
  run r <- wait_loop fuel self ready;
  match r with
  | Some _ => run _ <- print "done waiting"; ret (Some tt)
  | None => ret None
  end.

Fixpoint move_to_zero_from (ms : list Motor.t) : M unit :=
  match ms with
  | [] => ret tt
  | motor :: rest => run _ <- Motor.move_to_zero motor; move_to_zero_from rest
  end.

Definition move_to_zero (self : t) : M unit := move_to_zero_from (motors self).

Fixpoint stop_and_kill_from (ms : list Motor.t) : M unit :=
  match ms with
  | [] => ret tt
  | motor :: rest => run _ <- Motor.stop_and_kill motor; stop_and_kill_from rest
  end.

Definition stop_and_kill (self : t) : M unit := stop_and_kill_from (motors self).

(** [length/(num_plates+1)] *)
Definition plate_separation (length num_plates : pynum) : result pynum :=
  do d <- py_add num_plates (PInt 1);
  py_truediv length d.

Definition plates_distance_to_steps
  (distance plate_thickness holder_thickness lip_thickness pitch
     steps_per_rotation : pynum) : result Z :=
  do holder_center <- py_truediv holder_thickness (PInt 2);
  do half_plate <- py_truediv plate_thickness (PInt 2);
  do plate_center <- py_add lip_thickness half_plate;
  do gap <- py_sub plate_center holder_center;
  do actual_distance <- py_add distance gap;
  do num_pitch_lengths <- py_truediv actual_distance pitch;
  do steps <- py_mul steps_per_rotation num_pitch_lengths;
  do rounded <- py_round steps;
  Ok (py_int rounded).

Definition curved_mirror_distance_to_steps
  (distance pitch steps_per_rotation : pynum) : result Z :=
  do num_pitch_lengths <- py_truediv distance pitch;
  do steps <- py_mul steps_per_rotation num_pitch_lengths;
  do rounded <- py_round steps;
  Ok (py_int rounded).

(** The default arguments: [(1/4)], [(1/20)], [(1/20)], [20000]. *)
Definition holder_thickness_default : pynum := lit 1 4.
Definition lip_thickness_default : pynum := lit 1 20.
Definition pitch_default : pynum := lit 1 20.
Definition steps_per_rotation_default : pynum := PInt 20000.

Definition plates_steps (distance plate_thickness : pynum) : result Z :=
  plates_distance_to_steps distance plate_thickness
    holder_thickness_default lip_thickness_default pitch_default
    steps_per_rotation_default.

Definition curved_mirror_steps (distance : pynum) : result Z :=
  curved_mirror_distance_to_steps distance pitch_default
    steps_per_rotation_default.

Definition move_by_increment
  (self : t)
  (increment_distance dielectric_plate_thickness cavity_length_tracker
     num_plates initial_plate_separation : pynum)
  : M (pynum * pynum) :=
  run cavity_length_tracker <-
    lift (py_add cavity_length_tracker increment_distance);
  run new_plate_separation <-
    lift (plate_separation cavity_length_tracker num_plates);
  run _ <-
    (if contains (motor_names self) "curved_mirror" then
       run cm_ind <- lift (index (motor_names self) "curved_mirror");
       run curved_mirror_steps <- lift (curved_mirror_steps increment_distance);
       run _ <- print ("Moving curved mirror motor by "
                         ++ str curved_mirror_steps ++ " steps")%string;
       run motor <- lift (getitem (motors self) cm_ind);
       Motor.move_steps motor curved_mirror_steps
     else ret tt);
  run _ <-
    (if contains (motor_names self) "bottom_dielectric_plate" then
       run bdp_ind <- lift (index (motor_names self) "bottom_dielectric_plate");
       run diff <- lift (py_add initial_plate_separation increment_distance);
       run move_bottom_plate <- lift (py_sub diff new_plate_separation);
       run bottom_plate_steps <-
         lift (plates_steps move_bottom_plate dielectric_plate_thickness);
       run _ <- print ("Moving bottom plate motor by "
                         ++ str bottom_plate_steps ++ " steps")%string;
       run motor <- lift (getitem (motors self) bdp_ind);
       Motor.move_steps motor bottom_plate_steps
     else ret tt);
  run _ <-
    (if contains (motor_names self) "top_dielectric_plate" then
       run tdp_ind <- lift (index (motor_names self) "top_dielectric_plate");
       run move_top_plate <-
         lift (py_sub new_plate_separation initial_plate_separation);
       run top_plate_steps <-
         lift (plates_steps move_top_plate dielectric_plate_thickness);
       run _ <- print ("Moving top plate motor by "
                         ++ str top_plate_steps ++ " steps")%string;
       run motor <- lift (getitem (motors self) tdp_ind);
       Motor.move_steps motor top_plate_steps
     else ret tt);
  ret (cavity_length_tracker, new_plate_separation).

End OrpheusMotors.

(** ** DataLogger.flmn

    [flmn] computes on the same numbers as the motor code: [int]s and
    binary64 [float]s, with [ZeroDivisionError], [OverflowError] and
    [ValueError] raised where the interpreter raises them.  [math.sqrt] is
    the square root of IEEE 754, correctly rounded; [math.pi] is a
    constant; [math.acos] calls the [acos] of the C library, whose values
    inside [[-1, 1]] no standard fixes to the last bit: that function is a
    parameter of the model.  Both functions go through the wrapper that the
    interpreter puts around the one-argument functions of [math]. *)

Module DataLogger.

Definition is_nan (f : float64) : bool :=
  match f with
  | S754_nan => true
  | _ => false
  end.

Definition is_finite (f : float64) : bool :=
  match f with
  | S754_zero _ | S754_finite _ _ _ => true
  | _ => false
  end.

(** The wrapper of the one-argument functions of [math]: the argument is
    converted to a [float] and the C function applied; a NaN made from a
    number, or an infinity made from a finite number, is a math domain
    error.  The C function is taken to set no [errno] where it returns a
    finite value. *)
Definition math_1 (func : float64 -> float64) (x : pynum) : result pynum :=
  do x <- as_float x;
  let r := func x in
  if is_nan r && negb (is_nan x) then Raise ValueError
  else if is_infinity r && is_finite x then Raise ValueError
  else Ok (PFloat r).

(** [math.sqrt] *)
Definition math_sqrt : pynum -> result pynum := math_1 (SFsqrt prec emax).

(** [math.pi], the float [0x1.921fb54442d18p+1]. *)
Definition math_pi : pynum :=
  PFloat (S754_finite false 7074237752028440 (-51)).

Section Platform.

(** The [acos] of the C library on the arguments in [[-1, 1]]. *)
Variable acos : float64 -> float64.

(** C's [acos]: a NaN on a NaN and outside [[-1, 1]]. *)
Definition c_acos (x : float64) : float64 :=
  if SFleb (Z_to_float (-1)) x && SFleb x (Z_to_float 1) then acos x
  else S754_nan.

(** [math.acos] *)
Definition math_acos : pynum -> result pynum := math_1 c_acos.

Definition flmn (l m n length eps_r r0 : pynum) : result pynum :=
  let c := PFloat (Z_to_float 299792458) in
  let pi := math_pi in
  do root <- math_sqrt eps_r;
  do v <- py_truediv c root;
  do one_l <- py_add (PInt 1) l;
  do sum <- py_add one_l m;
  do l_in_m <- py_truediv length (PInt 100);
  do r0_m <- py_truediv r0 (PInt 100);
  do twice <- py_mul (PInt 2) l_in_m;
  do ratio <- py_truediv twice r0_m;
  do argument <- py_sub (PInt 1) ratio;
  do arccos_term <- math_acos argument;
  do n_1 <- py_add n (PInt 1);
  do n_v <- py_mul n_1 v;
  do half <- py_truediv n_v (PInt 2);
  do n_term <- py_truediv half l_in_m;
  do sum_v <- py_mul sum v;
  do four_l <- py_mul (PInt 4) l_in_m;
  do denominator <- py_mul four_l pi;
  do lm_term <- py_truediv sum_v denominator;
  do product <- py_mul lm_term arccos_term;
  do resonant_frequency <- py_add n_term product;
  Ok resonant_frequency.

End Platform.

(** The default arguments: [eps_r = 1], [r0 = 33]. *)
Definition eps_r_default : pynum := PInt 1.
Definition r0_default : pynum := PInt 33.

End DataLogger.

(** ** The statements of the specification, as definitions

    The definitions of this part are written from the words of the
    specification, to be compared with the code above. *)

Import OrpheusMotors.

(** The coordinator as [__init__] leaves it: [motor_names] lists the names
    of [motors], position by position. *)
Definition consistent (self : OrpheusMotors.t) : Prop :=
  motor_names self = map Motor.get_name (motors self).

(** The world [w] after the events [evs]. *)
Definition after (w : World) (evs : list event) : World :=
  mkWorld (trace w ++ evs) (asked w) (device w).

(** Steps 1, 2 and 6: [new_length = cavity_length_tracker +
    increment_distance], [new_plate_separation = new_length /
    (num_plates + 1)], and the pair of the two. *)
Definition returned_pair
  (increment_distance cavity_length_tracker num_plates : pynum)
  : result (pynum * pynum) :=
  do new_length <- py_add cavity_length_tracker increment_distance;
  do divisor <- py_add num_plates (PInt 1);
  do new_plate_separation <- py_truediv new_length divisor;
  Ok (new_length, new_plate_separation).

(** Step 4: [(initial_plate_separation + increment_distance) -
    new_plate_separation]. *)
Definition bottom_plate_travel
  (initial_plate_separation increment_distance new_plate_separation : pynum)
  : result pynum :=
  do diff <- py_add initial_plate_separation increment_distance;
  py_sub diff new_plate_separation.

(** Step 5: [new_plate_separation - initial_plate_separation]. *)
Definition top_plate_travel
  (new_plate_separation initial_plate_separation : pynum) : result pynum :=
  py_sub new_plate_separation initial_plate_separation.

(** [gap = (lip_thickness + plate_thickness/2) - holder_thickness/2], at
    the default thicknesses. *)
Definition gap (plate_thickness : pynum) : result pynum :=
  do holder_center <- py_truediv holder_thickness_default (PInt 2);
  do half_plate <- py_truediv plate_thickness (PInt 2);
  do plate_center <- py_add lip_thickness_default half_plate;
  py_sub plate_center holder_center.

(** [round(steps_per_rotation * distance / pitch)] at the default pitch
    and steps per rotation; the quotient by the pitch is formed first, the
    product second, as the code forms them. *)
Definition steps_formula (distance : pynum) : result Z :=
  do turns <- py_truediv distance pitch_default;
  do steps <- py_mul steps_per_rotation_default turns;
  py_round steps.

(** The same with the product formed first. *)
Definition steps_formula_product_first (distance : pynum) : result Z :=
  do scaled <- py_mul steps_per_rotation_default distance;
  do steps <- py_truediv scaled pitch_default;
  py_round steps.

(** The value of a number as a fraction: a numerator and a positive
    denominator; an infinity and a NaN have none. *)
Definition fraction (x : pynum) : option (Z * Z) :=
  match x with
  | PInt z => Some (z, 1)
  | PFloat (S754_zero _) => Some (0, 1)
  | PFloat (S754_finite s m e) =>
      Some (cond_Zopp s (Z.pos m) * 2 ^ Z.max 0 e, 2 ^ Z.max 0 (- e))
  | PFloat _ => None
  end.

(** The integer nearest to [a / b], [0 < b], ties to the even one. *)
Definition nearest (a b : Z) : Z :=
  let q := a / b in
  let r := a mod b in
  match 2 * r ?= b with
  | Lt => q
  | Gt => q + 1
  | Eq => if Z.even q then q else q + 1
  end.

(** [round(steps_per_rotation * distance / pitch)] at the default steps
    per rotation in exact arithmetic, the pitch being the fraction
    [p / q] and nothing being rounded before [round]. *)
Definition steps_formula_exact (pitch : Z * Z) (distance : pynum) : option Z :=
  match fraction distance with
  | Some (a, b) =>
      let (p, q) := pitch in Some (nearest (20000 * a * q) (b * p))
  | None => None
  end.

(** The sign of a number: [-1], [0] or [1]; a NaN has none. *)
Definition py_sgn (x : pynum) : option Z :=
  match x with
  | PInt z => Some (Z.sgn z)
  | PFloat (S754_zero _) => Some 0
  | PFloat (S754_infinity s) => Some (if s then -1 else 1)
  | PFloat (S754_finite s _ _) => Some (if s then -1 else 1)
  | PFloat S754_nan => None
  end.

(** The endpoint on which a motor is told to move, and what one move
    leaves in the trace. *)
Definition move_steps_endpoint (role : string) : string :=
  (role ++ "_move_steps")%string.

Definition move_events (role label : string) (steps : Z) : list event :=
  [EvPrint ("Moving " ++ label ++ " motor by " ++ str steps ++ " steps")%string;
   EvSet (move_steps_endpoint role) (VInt steps)].

(** The step counts the trace [evs] shows commanded to the motor [role]. *)
Definition commanded (role : string) (evs : list event) : list Z :=
  flat_map
    (fun ev =>
       match ev with
       | EvSet endpoint (VInt steps) =>
           if String.eqb endpoint (move_steps_endpoint role) then [steps]
           else []
       | _ => []
       end) evs.

(** The three roles the coordinator knows. *)
Definition known_role (role : string) : bool :=
  String.eqb role "curved_mirror"
  || String.eqb role "bottom_dielectric_plate"
  || String.eqb role "top_dielectric_plate".

(** One of steps 3, 4, 5: whether the role is active, and the step count
    it is to be sent. *)
Record move : Type := mkMove {
  move_active : bool;
  move_role : string;
  move_label : string;
  move_count : result Z
}.

Definition moves
  (self : OrpheusMotors.t)
  (increment_distance dielectric_plate_thickness new_plate_separation
     initial_plate_separation : pynum) : list move :=
  [ mkMove (contains (motor_names self) "curved_mirror")
      "curved_mirror" "curved mirror"
      (curved_mirror_steps increment_distance);
    mkMove (contains (motor_names self) "bottom_dielectric_plate")
      "bottom_dielectric_plate" "bottom plate"
      (do travel <- bottom_plate_travel initial_plate_separation
                      increment_distance new_plate_separation;
       plates_steps travel dielectric_plate_thickness);
    mkMove (contains (motor_names self) "top_dielectric_plate")
      "top_dielectric_plate" "top plate"
      (do travel <- top_plate_travel new_plate_separation
                      initial_plate_separation;
       plates_steps travel dielectric_plate_thickness) ].

(** Issuing the moves in order: the events issued, and the exception that
    stopped the sequence, if one did. *)
Fixpoint issue (ms : list move) : list event * option exn :=
  match ms with
  | [] => ([], None)
  | m :: rest =>
      if move_active m then
        match move_count m with
        | Ok steps =>
            let (evs, stop) := issue rest in
            (move_events (move_role m) (move_label m) steps ++ evs, stop)
        | Raise e => ([], Some e)
        end
      else issue rest
  end.

(** A sequence of calls, each with its own coordinator and arguments, the
    tracker returned by one passed to the next. *)
Record call : Type := mkCall {
  call_self : OrpheusMotors.t;
  call_increment_distance : pynum;
  call_dielectric_plate_thickness : pynum;
  call_num_plates : pynum;
  call_initial_plate_separation : pynum
}.

Fixpoint thread (cavity_length_tracker : pynum) (calls : list call)
  : M pynum :=
  match calls with
  | [] => ret cavity_length_tracker
  | c :: rest =>
      run p <- move_by_increment (call_self c) (call_increment_distance c)
                 (call_dielectric_plate_thickness c) cavity_length_tracker
                 (call_num_plates c) (call_initial_plate_separation c);
      thread (fst p) rest
  end.

(** [t0 + d1 + d2 + ... + dk], summed from the left. *)
Fixpoint running_sum (t0 : pynum) (ds : list pynum) : result pynum :=
  match ds with
  | [] => Ok t0
  | d :: rest => do t1 <- py_add t0 d; running_sum t1 rest
  end.

(** The endpoint on which a motor reports its status. *)
Definition status_endpoint (m : Motor.t) : string :=
  (Motor.name m ++ "_motor_request_status")%string.

(** What one round of [get_motor_status] reads when it starts as the
    [k]-th [get]. *)
Fixpoint round_of (dev : nat -> string -> string) (k : nat)
  (ms : list Motor.t) : list string :=
  match ms with
  | [] => []
  | m :: rest => dev k (status_endpoint m) :: round_of dev (S k) rest
  end.

(** The statements about [flmn]. *)

Import DataLogger.

(** [v = c/sqrt(eps_r)] *)
Definition speed (eps_r : pynum) : result pynum :=
  do root <- math_sqrt eps_r;
  py_truediv (PFloat (Z_to_float 299792458)) root.

(** [1 + l + m] *)
Definition mode_sum (l m : pynum) : result pynum :=
  do one_l <- py_add (PInt 1) l;
  py_add one_l m.

(** [1 - 2*(length/100)/(r0/100)], the argument of [acos]. *)
Definition acos_argument (length r0 : pynum) : result pynum :=
  do l_in_m <- py_truediv length (PInt 100);
  do twice <- py_mul (PInt 2) l_in_m;
  do r0_m <- py_truediv r0 (PInt 100);
  do ratio <- py_truediv twice r0_m;
  py_sub (PInt 1) ratio.

(** [lo <= x <= hi]; no comparison holds of a NaN. *)
Definition between (lo hi : Z) (x : pynum) : bool :=
  match x with
  | PInt z => (lo <=? z) && (z <=? hi)
  | PFloat f => SFleb (Z_to_float lo) f && SFleb f (Z_to_float hi)
  end.

Definition not_a_number (x : pynum) : bool :=
  match x with
  | PFloat S754_nan => true
  | _ => false
  end.

(** The number converts to a [float]: it is one, or an [int] in range. *)
Definition convertible (x : pynum) : bool := is_ok (as_float x).


(** What is assumed of the [acos] of the C library: on [[-1, 1]] it
    returns a finite value. *)
Definition c_library (acos : float64 -> float64) : Prop :=
  forall x,
    SFleb (Z_to_float (-1)) x = true -> SFleb x (Z_to_float 1) = true ->
    is_finite (acos x) = true.

(** ** Notions used in the proofs *)

(** The effect of one move: nothing when the role is inactive, the
    exception of its step count when that raises, its two events
    otherwise. *)
Definition run_move (m : move) (w : World) : result unit * World :=
  if move_active m then
    match move_count m with
    | Ok steps =>
        (Ok tt, after w (move_events (move_role m) (move_label m) steps))
    | Raise e => (Raise e, w)
    end
  else (Ok tt, w).

Definition outcome_of {A : Type} (a : A) (stop : option exn) : result A :=
  match stop with
  | None => Ok a
  | Some e => Raise e
  end.

Definition no_move : move := mkMove false "" "" (Ok 0).

(** Every active move has a step count. *)
Definition defined (ms : list move) : Prop :=
  forall m, In m ms -> move_active m = true -> is_ok (move_count m) = true.

(** A coordinator that [__init__] has built. *)
Definition built (self : OrpheusMotors.t) : Prop :=
  exists auths order w w', __init__ auths order w = (Ok self, w').

(** Along a sequence of calls, the pair of every call and the step counts
    of its active motors are defined. *)
Fixpoint each_defined (cavity_length_tracker : pynum) (calls : list call)
  : Prop :=
  match calls with
  | [] => True
  | c :: rest =>
      exists p,
        returned_pair (call_increment_distance c) cavity_length_tracker
          (call_num_plates c) = Ok p
        /\ defined (moves (call_self c) (call_increment_distance c)
                      (call_dielectric_plate_thickness c) (snd p)
                      (call_initial_plate_separation c))
        /\ each_defined (fst p) rest
  end.

(** A float is valid when its mantissa and exponent are the canonical ones
    of binary64, as those of every Python float are. *)
Definition valid (x : pynum) : Prop :=
  match x with
  | PInt _ => True
  | PFloat f => valid_binary prec emax f = true
  end.

(** [x > -1] *)
Definition exceeds_minus_one (x : pynum) : bool :=
  match x with
  | PInt z => -1 <? z
  | PFloat f =>
      match SFcompare f (Z_to_float (-1)) with
      | Some Gt => true
      | _ => false
      end
  end.

(** [x != 0] *)
Definition nonzero (x : pynum) : Prop :=
  match x with
  | PInt z => z <> 0
  | PFloat f => is_zero f = false
  end.

(** The [get]s of one round of [get_motor_status]. *)
Definition polls (ms : list Motor.t) : list event :=
  map (fun m => EvGet (status_endpoint m)) ms.

(** What [j] turns of the loop of [wait_for_motor] leave in the trace when
    the first of them starts as the [k]-th [get]: the status is asked for
    the condition, asked again to be printed, and the loop sleeps one
    second. *)
Fixpoint waiting (dev : nat -> string -> string) (m : Motor.t) (k j : nat)
  : list event :=
  match j with
  | O => []
  | S j' =>
      [EvGet (status_endpoint m); EvGet (status_endpoint m);
       EvPrint (dev (S k) (status_endpoint m)); EvSleep 1]
      ++ waiting dev m (S (S k)) j'
  end.

(** The same for the loop of [wait_for_motors]. *)
Fixpoint waiting_all (dev : nat -> string -> string) (ms : list Motor.t)
  (k j : nat) : list event :=
  match j with
  | O => []
  | S j' =>
      polls ms ++ polls ms
      ++ [EvPrint (repr_list (round_of dev (k + List.length ms) ms));
          EvSleep 1]
      ++ waiting_all dev ms (k + List.length ms + List.length ms) j'
  end.

(** The sleeps in a trace. *)
Definition sleeps (evs : list event) : list Z :=
  flat_map (fun ev => match ev with EvSleep s => [s] | _ => [] end) evs.

(** The float [f] carries the sign bit [b]; a NaN carries any. *)
Definition signed (b : bool) (f : float64) : Prop :=
  match f with
  | S754_nan => True
  | S754_zero s | S754_infinity s | S754_finite s _ _ => s = b
  end.

(** The exponent of a finite float is the least one of binary64 at
    least. *)
Definition above_emin (f : float64) : Prop :=
  match f with
  | S754_finite _ _ e => emin prec emax <= e
  | _ => True
  end.

(** The mantissa and the exponent of a finite float are within the bounds
    of binary64. *)
Definition in_range (f : float64) : Prop :=
  match f with
  | S754_finite _ m e =>
      Z.pos m < 2 ^ prec /\ emin prec emax <= e <= emax - prec
  | _ => True
  end.

(** The value [flmn] returns, from the floats of [v], [l_in_m],
    [arccos_term], [n + 1] and [sum]. *)
Definition frequency (v l_in_m arccos_term n_1 sum : float64) : float64 :=
  let n_term := fdiv (fdiv (fmul n_1 v) (Z_to_float 2)) l_in_m in
  let lm_term :=
    fdiv (fmul sum v)
      (fmul (fmul (Z_to_float 4) l_in_m)
         (S754_finite false 7074237752028440 (-51))) in
  fadd n_term (fmul lm_term arccos_term).

(** What [flmn] does after [math.acos]. *)
Definition tail (n v l_in_m sum arccos_term : pynum) : result pynum :=
  do n_1 <- py_add n (PInt 1);
  do n_v <- py_mul n_1 v;
  do half <- py_truediv n_v (PInt 2);
  do n_term <- py_truediv half l_in_m;
  do sum_v <- py_mul sum v;
  do four_l <- py_mul (PInt 4) l_in_m;
  do denominator <- py_mul four_l math_pi;
  do lm_term <- py_truediv sum_v denominator;
  do product <- py_mul lm_term arccos_term;
  do resonant_frequency <- py_add n_term product;
  Ok resonant_frequency.

(** ** Sample inputs *)

(** A world with an empty trace whose instruments answer ['R']. *)
Definition idle : World := mkWorld [] 0 (fun _ _ => "R").

(** The coordinator built from a set that names the three roles and one
    more, iterated in this order. *)
Definition sample_order : list string :=
  ["top_dielectric_plate"; "resonator_coupling"; "curved_mirror";
   "bottom_dielectric_plate"].

Definition sample_coordinator : OrpheusMotors.t :=
  let top := Motor.mk "authentications.json" "top_dielectric_plate" in
  let mirror := Motor.mk "authentications.json" "curved_mirror" in
  let bottom := Motor.mk "authentications.json" "bottom_dielectric_plate" in
  mk "authentications.json" sample_order [top; mirror; bottom]
     ["top_dielectric_plate"; "curved_mirror"; "bottom_dielectric_plate"]
     (Some mirror) (Some bottom) (Some top).

(** A coordinator with the curved mirror only, and one with no motor. *)
Definition mirror_only : OrpheusMotors.t :=
  let mirror := Motor.mk "authentications.json" "curved_mirror" in
  mk "authentications.json" ["curved_mirror"] [mirror] ["curved_mirror"]
     (Some mirror) None None.

Definition no_motors : OrpheusMotors.t :=
  mk "authentications.json" [] [] [] None None None.

(** A world whose instruments answer ['M'] for ever, and one whose
    instruments answer ['M'] to the first four [get]s and ['R'] after. *)
Definition never_ready : World := mkWorld [] 0 (fun _ _ => "M").

Definition ready_after_four : World :=
  mkWorld [] 0 (fun k _ => if (k <? 4)%nat then "M" else "R").

(** The example of the specification is the call with [increment_distance
    = 1.0], [dielectric_plate_thickness = 0.1], [cavity_length_tracker =
    10.0], [num_plates = 2], [initial_plate_separation = 3.5], that is
    [lit 1 1], [lit 1 10], [lit 10 1], [PInt 2], [lit 7 2]; the pair it
    returns is [11.0] and [11.0/3]. *)
Definition sample_pair : pynum * pynum :=
  (lit 11 1, PFloat (S754_finite false 8256599316845909 (-51))).

(** An [acos] that is right at [1], where it is [+0.0], and at [-1], where
    it is [pi], and gives [pi/2] everywhere else. *)
Definition sample_acos (x : float64) : float64 :=
  if SFeqb x (Z_to_float 1) then S754_zero false
  else if SFeqb x (Z_to_float (-1)) then
    S754_finite false 7074237752028440 (-51)
  else S754_finite false 7074237752028440 (-52).

(** ** Notions used for the rest of the code *)

(** [-x] *)
Definition py_neg (x : pynum) : pynum :=
  match x with
  | PInt z => PInt (- z)
  | PFloat f => PFloat (SFopp f)
  end.

(** A function applied to what a computation returns, if it returns. *)
Definition rmap {A B : Type} (f : A -> B) (r : result A) : result B :=
  match r with
  | Ok a => Ok (f a)
  | Raise e => Raise e
  end.

(** Two floats that differ by their sign at most: opposite when they are
    not zero; a zero of either sign faces a zero of either sign. *)
Definition opposite (x y : float64) : Prop :=
  match x, y with
  | S754_nan, S754_nan => True
  | S754_zero _, S754_zero _ => True
  | S754_infinity s, S754_infinity s' => s' = negb s
  | S754_finite s m e, S754_finite s' m' e' => s' = negb s /\ m' = m /\ e' = e
  | _, _ => False
  end.

(** The number [x] carries the sign bit [b]: an [int] when it is negative,
    a [float] by its sign. *)
Definition sign_bit (b : bool) (x : pynum) : Prop :=
  match x with
  | PInt z => b = (z <? 0)
  | PFloat f => signed b f
  end.

(** What [move_to_zero] and [stop_and_kill] send to one motor. *)
Definition zero_command (m : Motor.t) : event :=
  EvSet (Motor.name m ++ "_move_to_position")%string (VInt 0).

Definition kill_command (m : Motor.t) : event :=
  EvSet (Motor.name m ++ "_status_command")%string (VStr "stop_and_kill").

(** The coordinator [self] is one that [__init__] builds from the list
    [l], in one of the orders in which the set of [l] can be iterated. *)
Definition built_from (l : list string) (self : OrpheusMotors.t) : Prop :=
  exists auths order w w',
    iterates l order /\ __init__ auths order w = (Ok self, w').

(** The three roles, in the order in which [move_by_increment] serves
    them. *)
Definition roles : list string :=
  ["curved_mirror"; "bottom_dielectric_plate"; "top_dielectric_plate"].

(** The endpoints on which the trace [evs] shows a value sent, in order. *)
Definition sent (evs : list event) : list string :=
  flat_map (fun ev => match ev with EvSet endpoint _ => [endpoint] | _ => [] end)
    evs.

(** An event of the console or a value sent: not a [get], not a sleep, not
    a new interface. *)
Definition says_or_sends (ev : event) : bool :=
  match ev with
  | EvPrint _ | EvSet _ _ => true
  | _ => false
  end.

(** Whether [k] thousandths of an inch convert to [400 * k] steps of the
    curved mirror motor, and whether the [n] integers from [k] on all do. *)
Definition exact_thousandths (k : Z) : bool :=
  match curved_mirror_steps (lit k 1000) with
  | Ok steps => steps =? 400 * k
  | Raise _ => false
  end.

Fixpoint exact_from (n : nat) (k : Z) : bool :=
  match n with
  | O => true
  | S n' => exact_thousandths k && exact_from n' (k + 1)
  end.

(** * Properties *)

(** ** The numbers on examples *)

(** The default arguments are what the divisions written in the source
    evaluate to. *)
Example default_arguments :
  py_truediv (PInt 1) (PInt 4) = Ok holder_thickness_default
  /\ py_truediv (PInt 1) (PInt 20) = Ok lip_thickness_default
  /\ py_truediv (PInt 1) (PInt 20) = Ok pitch_default.
Proof. repeat split. Qed.

(** [1/20] is the float [7205759403792794 * 2^-57], printed [0.05]. *)
Example one_twentieth :
  lit 1 20 = PFloat (S754_finite false 7205759403792794 (-57)).
Proof. reflexivity. Qed.

(** [round] sends a half to the even neighbour: [round(0.5) = 0],
    [round(1.5) = 2], [round(2.5) = 2], [round(-2.5) = -2]; it refuses
    infinities and NaN. *)
Example round_half_to_even :
  py_round (lit 1 2) = Ok 0
  /\ py_round (lit 3 2) = Ok 2
  /\ py_round (lit 5 2) = Ok 2
  /\ py_round (lit (-5) 2) = Ok (-2)
  /\ py_round (PFloat (S754_infinity false)) = Raise OverflowError
  /\ py_round (PFloat S754_nan) = Raise ValueError.
Proof. repeat split. Qed.

(** Mixed operands: the [int] is converted; integers divide into the
    nearest float; a zero divisor raises. *)
Example mixed_arithmetic :
  py_add (PInt 10) (lit 1 2) = Ok (lit 21 2)
  /\ py_truediv (PInt 11) (PInt 3) = py_truediv (lit 11 1) (PInt 3)
  /\ py_truediv (lit 11 1) (PInt 0) = Raise ZeroDivisionError
  /\ py_truediv (PInt (10 ^ 400)) (PInt 1) = Raise OverflowError.
Proof. repeat split. Qed.

(** ** Worlds and traces *)

Lemma after_nil (w : World) : after w [] = w.
Proof. destruct w; unfold after; simpl; now rewrite app_nil_r. Qed.

Lemma after_after (w : World) (a b : list event) :
  after (after w a) b = after w (a ++ b).
Proof. unfold after; simpl; now rewrite app_assoc. Qed.

Lemma emitted_after (w : World) (evs : list event) :
  emitted w (after w evs) = evs.
Proof.
  unfold emitted, after; simpl.
  induction (trace w) as [|ev tr IH]; simpl; auto.
Qed.

Lemma emit_run (ev : event) (w : World) : emit ev w = (Ok tt, after w [ev]).
Proof. reflexivity. Qed.

(** ** Looking a motor up by its role *)

Lemma lookup_by_name (ms : list Motor.t) (role : string) :
  contains (map Motor.get_name ms) role = true ->
  exists i m,
    index (map Motor.get_name ms) role = Ok i
    /\ getitem ms i = Ok m
    /\ Motor.name m = role.
Proof.
  induction ms as [|m ms IH]; simpl; [discriminate|].
  change (Motor.get_name m) with (Motor.name m).
  destruct (String.eqb_spec (Motor.name m) role) as [E|NE].
  - intros _. exists O, m. auto.
  - destruct (String.eqb_spec role (Motor.name m)) as [E'|_];
      [congruence|]; simpl.
    intros H. destruct (IH H) as (i & m' & Hi & Hm & Hn).
    exists (S i), m'. rewrite Hi. auto.
Qed.

(** ** The three blocks of [move_by_increment] *)

Section Blocks.

Variable self : OrpheusMotors.t.
Hypothesis Hc : consistent self.
Variables d th sep init : pynum.

Ltac find_motor Hin i m Hi Hm Hn :=
  let Hin' := fresh "Hin'" in
  pose proof Hin as Hin'; rewrite Hc in Hin';
  destruct (lookup_by_name _ _ Hin') as (i & m & Hi & Hm & Hn);
  rewrite <- Hc in Hi.

Ltac pure_step := unfold bind at 1; unfold lift at 1.

Ltac send_move Hm Hn :=
  unfold bind at 1; unfold print; rewrite emit_run;
  pure_step; rewrite Hm;
  unfold Motor.move_steps, interface_set;
  rewrite emit_run, after_after, Hn;
  reflexivity.

Lemma curved_mirror_block_run (w : World) :
  (if contains (motor_names self) "curved_mirror" then
     run cm_ind <- lift (index (motor_names self) "curved_mirror");
     run curved_mirror_steps <- lift (curved_mirror_steps d);
     run _ <- print ("Moving curved mirror motor by "
                       ++ str curved_mirror_steps ++ " steps")%string;
     run motor <- lift (getitem (motors self) cm_ind);
     Motor.move_steps motor curved_mirror_steps
   else ret tt) w
  = run_move (nth 0 (moves self d th sep init) no_move) w.
Proof.
  unfold run_move, moves.
  cbn [nth move_active move_count move_role move_label].
  destruct (contains (motor_names self) "curved_mirror") eqn:Hin;
    [|reflexivity].
  find_motor Hin i m Hi Hm Hn.
  pure_step. rewrite Hi.
  pure_step. destruct (curved_mirror_steps d) as [s|e]; [|reflexivity].
  send_move Hm Hn.
Qed.

Lemma bottom_plate_block_run (w : World) :
  (if contains (motor_names self) "bottom_dielectric_plate" then
     run bdp_ind <- lift (index (motor_names self) "bottom_dielectric_plate");
     run diff <- lift (py_add init d);
     run move_bottom_plate <- lift (py_sub diff sep);
     run bottom_plate_steps <- lift (plates_steps move_bottom_plate th);
     run _ <- print ("Moving bottom plate motor by "
                       ++ str bottom_plate_steps ++ " steps")%string;
     run motor <- lift (getitem (motors self) bdp_ind);
     Motor.move_steps motor bottom_plate_steps
   else ret tt) w
  = run_move (nth 1 (moves self d th sep init) no_move) w.
Proof.
  unfold run_move, moves, bottom_plate_travel.
  cbn [nth move_active move_count move_role move_label].
  destruct (contains (motor_names self) "bottom_dielectric_plate") eqn:Hin;
    [|reflexivity].
  find_motor Hin i m Hi Hm Hn.
  pure_step. rewrite Hi.
  pure_step. destruct (py_add init d) as [diff|e]; [|reflexivity].
  pure_step. cbn [rbind].
  destruct (py_sub diff sep) as [travel|e]; [|reflexivity].
  pure_step. cbn [rbind].
  destruct (plates_steps travel th) as [s|e]; [|reflexivity].
  send_move Hm Hn.
Qed.

Lemma top_plate_block_run (w : World) :
  (if contains (motor_names self) "top_dielectric_plate" then
     run tdp_ind <- lift (index (motor_names self) "top_dielectric_plate");
     run move_top_plate <- lift (py_sub sep init);
     run top_plate_steps <- lift (plates_steps move_top_plate th);
     run _ <- print ("Moving top plate motor by "
                       ++ str top_plate_steps ++ " steps")%string;
     run motor <- lift (getitem (motors self) tdp_ind);
     Motor.move_steps motor top_plate_steps
   else ret tt) w
  = run_move (nth 2 (moves self d th sep init) no_move) w.
Proof.
  unfold run_move, moves, top_plate_travel.
  cbn [nth move_active move_count move_role move_label].
  destruct (contains (motor_names self) "top_dielectric_plate") eqn:Hin;
    [|reflexivity].
  find_motor Hin i m Hi Hm Hn.
  pure_step. rewrite Hi.
  pure_step. destruct (py_sub sep init) as [travel|e]; [|reflexivity].
  pure_step. cbn [rbind].
  destruct (plates_steps travel th) as [s|e]; [|reflexivity].
  send_move Hm Hn.
Qed.

End Blocks.

(** Three moves in a row. *)
Lemma run_moves_issue (m1 m2 m3 : move) (w : World) :
  (let (r1, w1) := run_move m1 w in
   match r1 with
   | Raise e => (Raise e, w1)
   | Ok _ =>
       let (r2, w2) := run_move m2 w1 in
       match r2 with
       | Raise e => (Raise e, w2)
       | Ok _ => run_move m3 w2
       end
   end)
  = let (evs, stop) := issue [m1; m2; m3] in
    (outcome_of tt stop, after w evs).
Proof.
  unfold run_move, issue.
  destruct (move_active m1), (move_count m1),
           (move_active m2), (move_count m2),
           (move_active m3), (move_count m3);
    cbn [outcome_of];
    rewrite ?after_after, ?app_nil_r, ?after_nil; reflexivity.
Qed.

(** [move_by_increment] on a consistent coordinator: the pair is computed,
    then the three moves are issued in order. *)
Lemma move_by_increment_run (self : OrpheusMotors.t)
  (d th t n init : pynum) (w : World) :
  consistent self ->
  move_by_increment self d th t n init w =
  match py_add t d with
  | Raise e => (Raise e, w)
  | Ok new_length =>
      match plate_separation new_length n with
      | Raise e => (Raise e, w)
      | Ok sep =>
          let (evs, stop) := issue (moves self d th sep init) in
          (outcome_of (new_length, sep) stop, after w evs)
      end
  end.
Proof.
  intros Hc. unfold move_by_increment.
  unfold bind at 1, lift at 1.
  destruct (py_add t d) as [new_length|e]; [|reflexivity].
  unfold bind at 1, lift at 1.
  destruct (plate_separation new_length n) as [sep|e]; [|reflexivity].
  pose proof (run_moves_issue
                (nth 0 (moves self d th sep init) no_move)
                (nth 1 (moves self d th sep init) no_move)
                (nth 2 (moves self d th sep init) no_move) w) as H.
  change [nth 0 (moves self d th sep init) no_move;
          nth 1 (moves self d th sep init) no_move;
          nth 2 (moves self d th sep init) no_move]
    with (moves self d th sep init) in H.
  destruct (issue (moves self d th sep init)) as [evs stop].
  unfold bind at 1. rewrite (curved_mirror_block_run self Hc d th sep init).
  destruct (run_move (nth 0 (moves self d th sep init) no_move) w)
    as [[[]|e1] w1]; [|destruct stop; cbn [outcome_of] in *; inversion H; reflexivity].
  unfold bind at 1. rewrite (bottom_plate_block_run self Hc d th sep init).
  destruct (run_move (nth 1 (moves self d th sep init) no_move) w1)
    as [[[]|e2] w2]; [|destruct stop; cbn [outcome_of] in *; inversion H; reflexivity].
  unfold bind at 1. rewrite (top_plate_block_run self Hc d th sep init).
  rewrite H. unfold ret.
  destruct stop; reflexivity.
Qed.

(** ** Running a computation step by step *)

Lemma bind_ok_inv {A B : Type} (m : M A) (k : A -> M B) (w : World) (b : B) :
  fst (bind m k w) = Ok b ->
  exists a w', m w = (Ok a, w') /\ fst (k a w') = Ok b.
Proof.
  unfold bind. destruct (m w) as [[a|e] w']; simpl; [|discriminate].
  intros H. exists a, w'. auto.
Qed.

Lemma lift_ok_inv {A : Type} (r : result A) (w w' : World) (a : A) :
  lift r w = (Ok a, w') -> r = Ok a.
Proof. unfold lift. congruence. Qed.

(** Whatever the coordinator, a call that returns returns the pair of
    steps 1 and 2. *)
Lemma move_by_increment_ok_inv (self : OrpheusMotors.t)
  (d th t n init : pynum) (w : World) (p : pynum * pynum) :
  fst (move_by_increment self d th t n init w) = Ok p ->
  returned_pair d t n = Ok p.
Proof.
  unfold move_by_increment. intros H.
  apply bind_ok_inv in H. destruct H as (new_length & w1 & H1 & H).
  apply bind_ok_inv in H. destruct H as (sep & w2 & H2 & H).
  apply bind_ok_inv in H. destruct H as (? & w3 & _ & H).
  apply bind_ok_inv in H. destruct H as (? & w4 & _ & H).
  apply bind_ok_inv in H. destruct H as (? & w5 & _ & H).
  apply lift_ok_inv in H1. apply lift_ok_inv in H2.
  unfold ret in H. simpl in H. injection H as <-.
  unfold returned_pair. rewrite H1. cbn [rbind].
  unfold plate_separation in H2.
  destruct (py_add n (PInt 1)) as [divisor|e]; cbn [rbind] in *;
    [|discriminate].
  now rewrite H2.
Qed.

(** ** Issuing moves *)

Lemma issue_defined (ms : list move) :
  defined ms <-> snd (issue ms) = None.
Proof.
  unfold defined. induction ms as [|m ms IH]; simpl.
  - split; [reflexivity | intros _ m []].
  - destruct (move_active m) eqn:Ha.
    + destruct (move_count m) as [s|e] eqn:Hs.
      * destruct (issue ms) as [evs stop]; simpl in *.
        rewrite <- IH. split.
        -- intros H m' Hin. apply H. now right.
        -- intros H m' [<-|Hin] Ha'; [now rewrite Hs | now apply H].
      * simpl. split; [|discriminate].
        intros H. specialize (H m (or_introl eq_refl) Ha).
        rewrite Hs in H. discriminate.
    + rewrite <- IH. split.
      * intros H m' Hin. apply H. now right.
      * intros H m' [<-|Hin] Ha'; [congruence | now apply H].
Qed.

(** ** Endpoints and the commands a trace shows *)

Lemma string_length_append (a b : string) :
  String.length (a ++ b) = (String.length a + String.length b)%nat.
Proof. induction a as [|c a IH]; simpl; [reflexivity | now rewrite IH]. Qed.

Lemma append_cancel_r (a b s : string) :
  (a ++ s)%string = (b ++ s)%string -> a = b.
Proof.
  revert b. induction a as [|c a IH]; intros [|c' b] H; simpl in H.
  - reflexivity.
  - apply (f_equal String.length) in H. simpl in H.
    rewrite string_length_append in H. lia.
  - apply (f_equal String.length) in H. simpl in H.
    rewrite string_length_append in H. lia.
  - injection H as -> H. f_equal. now apply IH.
Qed.

Lemma endpoint_eqb (role role' : string) :
  String.eqb (move_steps_endpoint role') (move_steps_endpoint role)
  = String.eqb role' role.
Proof.
  unfold move_steps_endpoint.
  destruct (String.eqb_spec role' role) as [->|NE].
  - apply String.eqb_refl.
  - apply String.eqb_neq. intros H. apply NE. eapply append_cancel_r, H.
Qed.

Lemma commanded_app (role : string) (a b : list event) :
  commanded role (a ++ b) = commanded role a ++ commanded role b.
Proof. unfold commanded. apply flat_map_app. Qed.

Lemma commanded_move_events (role role' label : string) (steps : Z) :
  commanded role (move_events role' label steps)
  = if String.eqb role' role then [steps] else [].
Proof.
  unfold commanded, move_events. cbn [flat_map].
  rewrite endpoint_eqb. now destruct (String.eqb role' role).
Qed.

(** What [issue] commands to a role: the step count of its move when that
    move is reached, nothing otherwise. *)
Lemma commanded_issue_inactive (role : string) (ms : list move) :
  (forall m, In m ms -> move_active m = true -> move_role m <> role) ->
  commanded role (fst (issue ms)) = [].
Proof.
  induction ms as [|m ms IH]; intros H; cbn [issue]; [reflexivity|].
  destruct (move_active m) eqn:Ha.
  - destruct (move_count m) as [s|e]; [|reflexivity].
    specialize (IH (fun m' Hin => H m' (or_intror Hin))).
    destruct (issue ms) as [evs stop]; cbn [fst] in *.
    rewrite commanded_app, commanded_move_events, IH.
    destruct (String.eqb_spec (move_role m) role) as [E|_]; [|reflexivity].
    exfalso. exact (H m (or_introl eq_refl) Ha E).
  - apply IH. intros m' Hin. apply H. now right.
Qed.

Lemma contains_In (l : list string) (x : string) :
  contains l x = true <-> In x l.
Proof.
  unfold contains. rewrite existsb_exists. split.
  - intros (y & Hin & E). apply String.eqb_eq in E. now subst.
  - intros Hin. exists x. split; [assumption | apply String.eqb_refl].
Qed.

(** ** Construction *)

Lemma create_motors_run (order : list string) (self : OrpheusMotors.t)
  (w : World) :
  exists self',
    create_motors order self w
    = (Ok self',
       after w (map (fun _ => EvInterface (auths_file self))
                  (filter known_role order)))
    /\ auths_file self' = auths_file self
    /\ list_of_motors self' = list_of_motors self
    /\ motor_names self' = motor_names self
    /\ motors self'
       = motors self
         ++ map (Motor.mk (auths_file self)) (filter known_role order).
Proof.
  revert self w. induction order as [|motor rest IH]; intros self w.
  - exists self. cbn [create_motors filter map]. unfold ret.
    rewrite after_nil, app_nil_r. auto.
  - cbn [create_motors filter]. unfold known_role.
    destruct (String.eqb_spec motor "curved_mirror") as [->|N1].
    + cbn [orb map].
      unfold CurvedMirrorMotor, Motor.__init__, interface_new.
      unfold bind at 1. unfold bind at 1. rewrite emit_run. unfold ret at 1.
      destruct (IH (append_motor (set_curved_mirror self
                      (Motor.mk (auths_file self) "curved_mirror"))
                      (Motor.mk (auths_file self) "curved_mirror"))
                   (after w [EvInterface (auths_file self)]))
        as (self' & Hrun & Ha & Hl & Hn & Hm).
      exists self'. rewrite Hrun, after_after.
      cbn [append_motor set_curved_mirror auths_file list_of_motors
             motor_names motors] in *.
      rewrite Hm, <- app_assoc. auto.
    + destruct (String.eqb_spec motor "bottom_dielectric_plate") as [->|N2].
      * cbn [orb map].
        unfold BottomDielectricPlateMotor, Motor.__init__, interface_new.
        unfold bind at 1. unfold bind at 1. rewrite emit_run. unfold ret at 1.
        destruct (IH (append_motor (set_bottom_plate self
                        (Motor.mk (auths_file self) "bottom_dielectric_plate"))
                        (Motor.mk (auths_file self) "bottom_dielectric_plate"))
                     (after w [EvInterface (auths_file self)]))
          as (self' & Hrun & Ha & Hl & Hn & Hm).
        exists self'. rewrite Hrun, after_after.
        cbn [append_motor set_bottom_plate auths_file list_of_motors
               motor_names motors] in *.
        rewrite Hm, <- app_assoc. auto.
      * destruct (String.eqb_spec motor "top_dielectric_plate") as [->|N3].
        -- cbn [orb map].
           unfold TopDielectricPlateMotor, Motor.__init__, interface_new.
           unfold bind at 1. unfold bind at 1. rewrite emit_run.
           unfold ret at 1.
           destruct (IH (append_motor (set_top_plate self
                           (Motor.mk (auths_file self) "top_dielectric_plate"))
                           (Motor.mk (auths_file self) "top_dielectric_plate"))
                        (after w [EvInterface (auths_file self)]))
             as (self' & Hrun & Ha & Hl & Hn & Hm).
           exists self'. rewrite Hrun, after_after.
           cbn [append_motor set_top_plate auths_file list_of_motors
                  motor_names motors] in *.
           rewrite Hm, <- app_assoc. auto.
        -- cbn [orb]. apply IH.
Qed.

Lemma init_run (auths : string) (order : list string) (w : World) :
  exists self,
    __init__ auths order w
    = (Ok self,
       after w (map (fun _ => EvInterface auths) (filter known_role order)))
    /\ motor_names self = filter known_role order
    /\ motors self = map (Motor.mk auths) (filter known_role order).
Proof.
  unfold __init__. cbn [list_of_motors].
  destruct (create_motors_run order (mk auths order [] [] None None None) w)
    as (self' & Hrun & _ & _ & _ & Hm).
  cbn [auths_file motors app] in *.
  exists (set_motor_names self' (map Motor.get_name (motors self'))).
  unfold bind. rewrite Hrun. unfold ret.
  cbn [set_motor_names motor_names motors]. rewrite Hm.
  split; [reflexivity|]. split; [|reflexivity].
  rewrite map_map. cbn [Motor.get_name Motor.name]. apply map_id.
Qed.

(** A coordinator as [__init__] builds it is consistent and holds known
    roles only. *)
Lemma init_consistent (auths : string) (order : list string) (w w' : World)
  (self : OrpheusMotors.t) :
  __init__ auths order w = (Ok self, w') ->
  consistent self
  /\ motor_names self = filter known_role order.
Proof.
  intros H. destruct (init_run auths order w) as (self' & Hrun & Hn & Hm).
  rewrite Hrun in H. injection H as <- _.
  split; [|assumption].
  unfold consistent. rewrite Hn, Hm, map_map.
  cbn [Motor.get_name Motor.name]. symmetry. apply map_id.
Qed.

Lemma built_consistent (self : OrpheusMotors.t) :
  built self ->
  consistent self
  /\ forall role, In role (motor_names self) -> known_role role = true.
Proof.
  intros (auths & order & w & w' & H).
  destruct (init_consistent _ _ _ _ _ H) as [Hc Hn].
  split; [assumption|]. intros role Hin. rewrite Hn in Hin.
  now apply filter_In in Hin.
Qed.

(** ** What a call commands *)

Lemma moves_roles (self : OrpheusMotors.t) (d th sep init : pynum) (m : move) :
  In m (moves self d th sep init) ->
  move_active m = contains (motor_names self) (move_role m)
  /\ known_role (move_role m) = true.
Proof.
  unfold moves. intros [<-|[<-|[<-|[]]]]; split; reflexivity.
Qed.

Lemma commanded_only_active (self : OrpheusMotors.t) (d th sep init : pynum)
  (role : string) :
  commanded role (fst (issue (moves self d th sep init))) <> [] ->
  In role (motor_names self) /\ known_role role = true.
Proof.
  intros Hne.
  destruct (contains (motor_names self) role) eqn:E1;
    destruct (known_role role) eqn:E2;
    try (split; [now apply contains_In | reflexivity]);
    exfalso; apply Hne; apply commanded_issue_inactive;
    intros m Hin Ha Hr;
    destruct (moves_roles _ _ _ _ _ _ Hin) as [Hact Hk];
    rewrite Hr in *; congruence.
Qed.

(** Every event that [issue] produces belongs to an active move. *)
Lemma issue_events (ms : list move) (ev : event) :
  In ev (fst (issue ms)) ->
  exists m steps,
    In m ms /\ move_active m = true
    /\ In ev (move_events (move_role m) (move_label m) steps).
Proof.
  induction ms as [|m ms IH]; cbn [issue]; [intros []|].
  destruct (move_active m) eqn:Ha.
  - destruct (move_count m) as [s|e]; [|intros []].
    destruct (issue ms) as [evs stop]. cbn [fst] in *.
    intros Hin. apply in_app_or in Hin. destruct Hin as [Hin|Hin].
    + exists m, s. repeat split; [now left | assumption | assumption].
    + destruct (IH Hin) as (m' & s' & Hm' & Ha' & Hev).
      exists m', s'. repeat split; [now right | assumption | assumption].
  - intros Hin. destruct (IH Hin) as (m' & s' & Hm' & Ha' & Hev).
    exists m', s'. repeat split; [now right | assumption | assumption].
Qed.

(** The only values a call sends are step counts, to active motors. *)
Lemma sets_only_active (self : OrpheusMotors.t) (d th sep init : pynum)
  (endpoint : string) (v : value) :
  In (EvSet endpoint v) (fst (issue (moves self d th sep init))) ->
  exists role steps,
    In role (motor_names self)
    /\ endpoint = move_steps_endpoint role
    /\ v = VInt steps.
Proof.
  intros Hin.
  destruct (issue_events _ _ Hin) as (m & steps & Hm & Ha & Hev).
  destruct (moves_roles _ _ _ _ _ _ Hm) as [Hact _].
  rewrite Hact in Ha. apply contains_In in Ha.
  exists (move_role m), steps. split; [assumption|].
  destruct Hev as [Hev|[Hev|[]]]; [discriminate Hev|].
  injection Hev as <- <-. split; reflexivity.
Qed.

Lemma commanded_when_defined (self : OrpheusMotors.t) (d th sep init : pynum) :
  defined (moves self d th sep init) ->
  let evs := fst (issue (moves self d th sep init)) in
  (In "curved_mirror" (motor_names self) ->
   exists steps,
     curved_mirror_steps d = Ok steps
     /\ commanded "curved_mirror" evs = [steps])
  /\ (In "bottom_dielectric_plate" (motor_names self) ->
      exists travel steps,
        bottom_plate_travel init d sep = Ok travel
        /\ plates_steps travel th = Ok steps
        /\ commanded "bottom_dielectric_plate" evs = [steps])
  /\ (In "top_dielectric_plate" (motor_names self) ->
      exists travel steps,
        top_plate_travel sep init = Ok travel
        /\ plates_steps travel th = Ok steps
        /\ commanded "top_dielectric_plate" evs = [steps]).
Proof.
  intros Hdef evs. subst evs. apply issue_defined in Hdef.
  rewrite <- !contains_In.
  unfold moves, issue in *.
  cbn [move_active move_count move_role move_label] in *.
  destruct (contains (motor_names self) "curved_mirror");
    [destruct (curved_mirror_steps d) as [s1|]; [|discriminate]|];
    (destruct (contains (motor_names self) "bottom_dielectric_plate");
     [destruct (bottom_plate_travel init d sep) as [tb|];
        cbn [rbind] in *; [|discriminate];
      destruct (plates_steps tb th) as [s2|] eqn:?; [|discriminate]|]);
    (destruct (contains (motor_names self) "top_dielectric_plate");
     [destruct (top_plate_travel sep init) as [tt'|];
        cbn [rbind] in *; [|discriminate];
      destruct (plates_steps tt' th) as [s3|] eqn:?; [|discriminate]|]);
    cbn [fst snd] in *;
    rewrite ?commanded_app, ?commanded_move_events;
    (split; [|split]); intros H; try discriminate H;
    repeat eexists; (reflexivity || eassumption).
Qed.

(** ** What a call returns and leaves in the trace *)

Lemma returned_pair_plate_separation (d t n : pynum) :
  returned_pair d t n
  = do new_length <- py_add t d;
    do sep <- plate_separation new_length n;
    Ok (new_length, sep).
Proof.
  unfold returned_pair, plate_separation.
  destruct (py_add t d) as [new_length|]; cbn [rbind]; [|reflexivity].
  destruct (py_add n (PInt 1)); reflexivity.
Qed.

(** Every call leaves the trace extended by the moves issued before it
    returned or raised, and nothing else changed. *)
Lemma move_by_increment_trace (self : OrpheusMotors.t)
  (d th t n init : pynum) (w : World) :
  consistent self ->
  snd (move_by_increment self d th t n init w) = w
  \/ exists new_length sep,
       py_add t d = Ok new_length
       /\ plate_separation new_length n = Ok sep
       /\ snd (move_by_increment self d th t n init w)
          = after w (fst (issue (moves self d th sep init))).
Proof.
  intros Hc. rewrite (move_by_increment_run _ _ _ _ _ _ _ Hc).
  destruct (py_add t d) as [new_length|]; [|now left].
  destruct (plate_separation new_length n) as [sep|] eqn:Hs; [|now left].
  right. exists new_length, sep.
  destruct (issue (moves self d th sep init)); auto.
Qed.

(** A call whose pair and step counts are defined returns the pair, having
    issued its moves. *)
Lemma move_by_increment_completes (self : OrpheusMotors.t)
  (d th t n init : pynum) (w : World) (p : pynum * pynum) :
  consistent self ->
  returned_pair d t n = Ok p ->
  defined (moves self d th (snd p) init) ->
  move_by_increment self d th t n init w
  = (Ok p, after w (fst (issue (moves self d th (snd p) init)))).
Proof.
  intros Hc Hp Hdef. rewrite (move_by_increment_run _ _ _ _ _ _ _ Hc).
  rewrite returned_pair_plate_separation in Hp.
  destruct (py_add t d) as [new_length|]; cbn [rbind] in Hp; [|discriminate].
  destruct (plate_separation new_length n) as [sep|]; cbn [rbind] in Hp;
    [|discriminate].
  injection Hp as <-. cbn [snd] in *.
  apply issue_defined in Hdef.
  destruct (issue (moves self d th sep init)) as [evs stop].
  cbn [snd fst] in *. now subst stop.
Qed.

(** Conversely, a call that returns had its step counts defined. *)
Lemma move_by_increment_returned (self : OrpheusMotors.t)
  (d th t n init : pynum) (w : World) (p : pynum * pynum) :
  consistent self ->
  fst (move_by_increment self d th t n init w) = Ok p ->
  returned_pair d t n = Ok p
  /\ defined (moves self d th (snd p) init).
Proof.
  intros Hc H. split; [eapply move_by_increment_ok_inv, H|].
  rewrite (move_by_increment_run _ _ _ _ _ _ _ Hc) in H.
  destruct (py_add t d) as [new_length|]; [|discriminate].
  destruct (plate_separation new_length n) as [sep|]; [|discriminate].
  apply issue_defined.
  destruct (issue (moves self d th sep init)) as [evs [e|]] eqn:E;
    cbn [fst snd outcome_of] in H; [discriminate|].
  injection H as <-. cbn [snd]. now rewrite E.
Qed.

(** ** binary64 rounding never turns a nonzero value in range into zero *)

Lemma digits2_size (m : positive) : digits2_pos m = Pos.size m.
Proof. induction m; simpl; congruence. Qed.

Lemma digits2_bounds (m : positive) :
  2 ^ (Z.pos (digits2_pos m) - 1) <= Z.pos m < 2 ^ Z.pos (digits2_pos m).
Proof.
  rewrite digits2_size. split.
  - pose proof (Pos.size_le m) as H.
    apply Pos2Z.pos_le_pos in H. rewrite Pos2Z.inj_pow in H.
    replace (Z.pos (Pos.size m)) with (Z.succ (Z.pos (Pos.size m) - 1)) in H
      by lia.
    rewrite Z.pow_succ_r in H by lia. lia.
  - pose proof (Pos.size_gt m) as H.
    apply Pos2Z.pos_lt_pos in H. now rewrite Pos2Z.inj_pow in H.
Qed.

Lemma shr_1_m (mrs : shr_record) :
  0 <= shr_m mrs -> shr_m (shr_1 mrs) = shr_m mrs / 2.
Proof.
  destruct mrs as [m r s]; simpl. intros Hm.
  destruct m as [|[p|p|]|p]; try lia; simpl.
  - reflexivity.
  - rewrite Pos2Z.inj_xI. apply (Z.div_unique _ _ _ 1); lia.
  - rewrite Pos2Z.inj_xO. apply (Z.div_unique _ _ _ 0); lia.
  - reflexivity.
Qed.

Lemma shr_iter_m (p : positive) (mrs : shr_record) :
  0 <= shr_m mrs ->
  shr_m (SpecFloat.iter_pos shr_1 p mrs) = shr_m mrs / 2 ^ Z.pos p.
Proof.
  revert mrs. induction p as [p IH|p IH|]; intros mrs Hm; cbn [SpecFloat.iter_pos].
  - assert (H1 : 0 <= shr_m (shr_1 mrs))
      by (rewrite shr_1_m by assumption; apply Z.div_pos; lia).
    assert (H2 : 0 <= shr_m (SpecFloat.iter_pos shr_1 p (shr_1 mrs)))
      by (rewrite IH by assumption; apply Z.div_pos; lia).
    rewrite IH, IH, shr_1_m by assumption.
    rewrite !Z.div_div by lia.
    f_equal.
    assert (E : Z.pos p~1 = Z.pos p + Z.pos p + 1) by lia.
    rewrite E, !Z.pow_add_r, Z.pow_1_r by lia. ring.
  - assert (H2 : 0 <= shr_m (SpecFloat.iter_pos shr_1 p mrs))
      by (rewrite IH by assumption; apply Z.div_pos; lia).
    rewrite IH, IH by assumption.
    rewrite Z.div_div by lia.
    f_equal.
    assert (E : Z.pos p~0 = Z.pos p + Z.pos p) by lia.
    rewrite E, Z.pow_add_r by lia. ring.
  - rewrite shr_1_m by assumption. reflexivity.
Qed.

Lemma shr_record_of_loc_m (m : Z) (l : location) :
  shr_m (shr_record_of_loc m l) = m.
Proof. destruct l as [|[]]; reflexivity. Qed.

Lemma shr_fexp_positive (m e : Z) (l : location) :
  0 < m -> emin prec emax <= e ->
  0 < shr_m (fst (shr_fexp prec emax m e l))
  /\ emin prec emax <= snd (shr_fexp prec emax m e l).
Proof.
  intros Hm He. unfold shr_fexp, shr.
  destruct m as [|m|m]; try lia. cbn [Zdigits2].
  pose proof (digits2_bounds m) as [Hlo _].
  unfold fexp.
  destruct (Z.max (Z.pos (digits2_pos m) + e - prec) (emin prec emax) - e)
    as [|p|p] eqn:En; cbn [fst snd]; rewrite ?shr_record_of_loc_m;
    try (split; lia).
  rewrite shr_iter_m by (rewrite shr_record_of_loc_m; lia).
  rewrite shr_record_of_loc_m. split; [|lia].
  assert (Hp : Z.pos p <= Z.pos (digits2_pos m) - 1) by (unfold prec in *; lia).
  apply Z.div_str_pos. split; [apply Z.pow_pos_nonneg; lia|].
  eapply Z.le_trans; [|exact Hlo]. apply Z.pow_le_mono_r; lia.
Qed.

Lemma round_nearest_even_positive (m : Z) (l : location) :
  0 < m -> 0 < round_nearest_even m l.
Proof.
  intros Hm. destruct l as [|[]]; simpl; try lia.
  destruct (Z.even m); lia.
Qed.

Lemma binary_round_aux_not_zero (s : bool) (m e : Z) (l : location) :
  0 < m -> emin prec emax <= e ->
  is_zero (binary_round_aux prec emax s m e l) = false.
Proof.
  intros Hm He. unfold binary_round_aux.
  destruct (shr_fexp_positive m e l Hm He) as [H1 H1e].
  destruct (shr_fexp prec emax m e l) as [mrs' e']. cbn [fst snd] in *.
  pose proof (round_nearest_even_positive (shr_m mrs') (loc_of_shr_record mrs') H1) as H2.
  destruct (shr_fexp_positive _ e' loc_Exact H2 H1e) as [H3 _].
  destruct (shr_fexp prec emax _ e' loc_Exact) as [mrs'' e''].
  cbn [fst] in H3.
  destruct (shr_m mrs''); try lia.
  now destruct (e'' <=? emax - prec).
Qed.

Lemma binary_round_not_zero (s : bool) (m : positive) (e : Z) :
  emin prec emax <= e ->
  is_zero (binary_round prec emax s m e) = false.
Proof.
  intros He. unfold binary_round, shl_align.
  destruct (fexp prec emax (Z.pos (digits2_pos m) + e) - e) eqn:Ed;
    try (apply binary_round_aux_not_zero; lia).
  apply binary_round_aux_not_zero; [lia|]. unfold fexp. lia.
Qed.

Lemma Z_to_float_not_zero (z : Z) : z <> 0 -> is_zero (Z_to_float z) = false.
Proof.
  intros Hz. unfold Z_to_float, binary_normalize.
  destruct z; [congruence| |]; apply binary_round_not_zero;
    unfold emin, emax, prec; lia.
Qed.

Lemma shl_iter (m d : positive) :
  Z.pos (Pos.iter xO m d) = Z.pos m * 2 ^ Z.pos d.
Proof.
  induction d as [|d IH] using Pos.peano_ind.
  - simpl. lia.
  - rewrite Pos.iter_succ, Pos2Z.inj_xO, IH, Pos2Z.inj_succ, Z.pow_succ_r by lia.
    ring.
Qed.

Lemma valid_finite_bounds (s : bool) (m : positive) (e : Z) :
  valid_binary prec emax (S754_finite s m e) = true ->
  Z.pos m < 2 ^ 53 /\ emin prec emax <= e.
Proof.
  unfold valid_binary, bounded, canonical_mantissa, fexp.
  intros H. apply andb_prop in H. destruct H as [H _].
  apply Z.eqb_eq in H. unfold SpecFloat.fexp in H.
  pose proof (digits2_bounds m) as [_ Hhi].
  split; [|lia].
  eapply Z.lt_le_trans; [exact Hhi|].
  apply Z.pow_le_mono_r; unfold prec in *; lia.
Qed.

(** [x + 1] is not zero when [x > -1]. *)
Lemma fadd_one_not_zero (f : float64) :
  valid_binary prec emax f = true ->
  SFcompare f (Z_to_float (-1)) = Some Gt ->
  is_zero (fadd f (Z_to_float 1)) = false.
Proof.
  intros Hv Hgt.
  destruct f as [s|[|]| |s m e];
    [reflexivity | discriminate | reflexivity | discriminate |].
  destruct (valid_finite_bounds _ _ _ Hv) as [Hm He].
  change (Z_to_float 1) with (S754_finite false 4503599627370496 (-52)).
  change (Z_to_float (-1)) with (S754_finite true 4503599627370496 (-52)) in Hgt.
  unfold fadd, SFadd.
  assert (Hez : emin prec emax <= Z.min e (-52))
    by (unfold emin, emax, prec in *; lia).
  set (ez := Z.min e (-52)) in *.
  set (a := Z.pos (fst (shl_align m e ez))).
  set (b := Z.pos (fst (shl_align 4503599627370496 (-52) ez))).
  assert (Hsum : cond_Zopp s a + cond_Zopp false b <> 0).
  { destruct s; cbn [cond_Zopp]; [|subst a b; lia].
    cbn [SFcompare] in Hgt.
    subst a b. unfold shl_align.
    destruct (Z.compare_spec e (-52)) as [Ee|Ee|Ee]; try discriminate.
    - (* same exponent: the mantissa is smaller *)
      subst e. replace ez with (-52) by (subst ez; reflexivity).
      change (-52 - -52) with 0. cbn [fst].
      assert (Hlt : (m < 4503599627370496)%positive).
      { unfold Pos.lt.
        change (Pos.compare m 4503599627370496)
          with (PosDef.Pos.compare_cont Eq m 4503599627370496).
        destruct (PosDef.Pos.compare_cont Eq m 4503599627370496);
          cbn [CompOpp] in Hgt; congruence. }
      apply Pos2Z.pos_lt_pos in Hlt. clear - Hlt. lia.
    - (* smaller exponent: one is shifted up past the mantissa *)
      replace ez with e by (subst ez; lia).
      rewrite Z.sub_diag. cbn [fst].
      destruct (e - -52) as [|d|d] eqn:Ed; try lia.
      cbn [fst]. rewrite shl_iter.
      assert (Hd : 2 ^ 1 <= 2 ^ Z.pos d) by (apply Z.pow_le_mono_r; lia).
      change (2 ^ 1) with 2 in Hd.
      change (2 ^ 53) with 9007199254740992 in Hm.
      remember (2 ^ Z.pos d) as x. clear - Hm Hd. lia. }
  unfold binary_normalize.
  destruct (cond_Zopp s a + cond_Zopp false b); [congruence| |];
    now apply binary_round_not_zero.
Qed.

Lemma divisor_nonzero (n : pynum) :
  valid n -> exceeds_minus_one n = true ->
  exists divisor, py_add n (PInt 1) = Ok divisor /\ nonzero divisor.
Proof.
  destruct n as [z|f]; cbn [valid exceeds_minus_one]; intros Hv Hgt.
  - exists (PInt (z + 1)). split; [reflexivity|]. cbn [nonzero].
    apply Z.ltb_lt in Hgt. lia.
  - exists (PFloat (fadd f (Z_to_float 1))). split; [reflexivity|].
    cbn [nonzero]. apply fadd_one_not_zero; [assumption|].
    destruct (SFcompare f (Z_to_float (-1))) as [[]|]; congruence.
Qed.

(** Dividing by a nonzero number raises, if anything, [OverflowError]. *)
Lemma truediv_nonzero (x divisor : pynum) (e : exn) :
  nonzero divisor -> py_truediv x divisor = Raise e -> e = OverflowError.
Proof.
  destruct x as [a|fa], divisor as [b|fb]; cbn [nonzero py_truediv as_float rbind];
    intros Hnz H.
  - apply Z.eqb_neq in Hnz. rewrite Hnz in H.
    destruct (is_infinity (Z_div_float a b)); congruence.
  - destruct (is_infinity (Z_to_float a)); cbn [rbind] in H; [congruence|].
    rewrite Hnz in H. discriminate.
  - destruct (is_infinity (Z_to_float b)); cbn [rbind] in H; [congruence|].
    rewrite (Z_to_float_not_zero b Hnz) in H. discriminate.
  - rewrite Hnz in H. discriminate.
Qed.

(** ** binary64 rounding of a value below [2^1023] is finite *)

Lemma digits2_le (m : positive) (k : Z) :
  Z.pos m < 2 ^ k -> Z.pos (digits2_pos m) <= k.
Proof.
  intros H. pose proof (digits2_bounds m) as [Hlo _].
  destruct (Z.le_gt_cases (Z.pos (digits2_pos m)) k) as [|Hgt]; [assumption|].
  exfalso.
  assert (2 ^ k <= 2 ^ (Z.pos (digits2_pos m) - 1))
    by (destruct (Z.le_gt_cases 0 k);
        [apply Z.pow_le_mono_r; lia
        | rewrite (Z.pow_neg_r 2 k) by lia; apply Z.pow_nonneg; lia]).
  lia.
Qed.

Lemma shr_fexp_bounds (m e : Z) (l : location) :
  0 < m -> emin prec emax <= e ->
  let r := shr_fexp prec emax m e l in
  0 < shr_m (fst r)
  /\ snd r = Z.max e (Zdigits2 m + e - prec)
  /\ shr_m (fst r) < 2 ^ (Zdigits2 m - (snd r - e)).
Proof.
  intros Hm He r. subst r. unfold shr_fexp, shr.
  destruct m as [|m|m]; try lia. cbn [Zdigits2].
  pose proof (digits2_bounds m) as [Hlo Hhi].
  unfold SpecFloat.fexp.
  destruct (Z.max (Z.pos (digits2_pos m) + e - prec) (emin prec emax) - e)
    as [|p|p] eqn:En; cbn [fst snd]; rewrite ?shr_record_of_loc_m.
  - split; [lia|]. split; [lia|].
    replace (Z.pos (digits2_pos m) - (e - e)) with (Z.pos (digits2_pos m))
      by lia. exact Hhi.
  - rewrite shr_iter_m by (rewrite shr_record_of_loc_m; lia).
    rewrite shr_record_of_loc_m.
    assert (Hp : Z.pos p = Z.pos (digits2_pos m) - prec) by lia.
    split; [|split; [lia|]].
    + apply Z.div_str_pos. split; [apply Z.pow_pos_nonneg; lia|].
      eapply Z.le_trans; [|exact Hlo].
      apply Z.pow_le_mono_r; unfold prec in *; lia.
    + replace (Z.pos (digits2_pos m) - (e + Z.pos p - e)) with prec by lia.
      apply Z.div_lt_upper_bound; [apply Z.pow_pos_nonneg; lia|].
      rewrite <- Z.pow_add_r by (unfold prec; lia).
      replace (Z.pos p + prec) with (Z.pos (digits2_pos m)) by lia.
      exact Hhi.
  - split; [lia|]. split; [lia|].
    replace (Z.pos (digits2_pos m) - (e - e)) with (Z.pos (digits2_pos m))
      by lia. exact Hhi.
Qed.

Lemma binary_round_aux_finite (s : bool) (m e : Z) (l : location) :
  0 < m -> emin prec emax <= e -> e <= emax - prec ->
  Zdigits2 m + e < emax ->
  is_infinity (binary_round_aux prec emax s m e l) = false.
Proof.
  intros Hm He Hhi Hd. unfold binary_round_aux.
  destruct (shr_fexp_bounds m e l Hm He) as (H1 & H1e & H1b).
  destruct (shr_fexp prec emax m e l) as [mrs' e']. cbn [fst snd] in *.
  set (m2 := round_nearest_even (shr_m mrs') (loc_of_shr_record mrs')).
  assert (Hm2 : 0 < m2) by now apply round_nearest_even_positive.
  assert (Hm2b : m2 <= 2 ^ (Zdigits2 m - (e' - e))).
  { subst m2. unfold round_nearest_even.
    destruct (loc_of_shr_record mrs') as [|[]]; try lia.
    destruct (Z.even (shr_m mrs')); lia. }
  assert (He' : emin prec emax <= e') by lia.
  destruct (shr_fexp_bounds m2 e' loc_Exact Hm2 He') as (H3 & H3e & _).
  destruct (shr_fexp prec emax m2 e' loc_Exact) as [mrs'' e''].
  cbn [fst snd] in *.
  destruct (shr_m mrs'') as [|m3|m3]; try reflexivity.
  assert (Hdig : Zdigits2 m2 <= Zdigits2 m - (e' - e) + 1).
  { destruct m2 as [|q|q]; try lia. cbn [Zdigits2].
    apply digits2_le.
    assert (0 <= Zdigits2 m - (e' - e)).
    { destruct (Z.le_gt_cases 0 (Zdigits2 m - (e' - e))); [assumption|].
      rewrite Z.pow_neg_r in Hm2b by lia. lia. }
    rewrite Z.pow_add_r, Z.pow_1_r by lia. lia. }
  destruct (Z.leb_spec e'' (emax - prec)); [reflexivity|].
  exfalso. unfold emax, prec in *. lia.
Qed.

Lemma digits2_iter (m d : positive) :
  Z.pos (digits2_pos (Pos.iter xO m d)) = Z.pos (digits2_pos m) + Z.pos d.
Proof.
  induction d as [|d IH] using Pos.peano_ind.
  - simpl. lia.
  - rewrite Pos.iter_succ. cbn [digits2_pos]. lia.
Qed.

Lemma binary_round_finite (s : bool) (m : positive) (e : Z) :
  emin prec emax <= e -> e <= emax - prec ->
  Z.pos (digits2_pos m) + e < emax ->
  is_infinity (binary_round prec emax s m e) = false.
Proof.
  intros He Hhi Hd. unfold binary_round, shl_align.
  destruct (SpecFloat.fexp prec emax (Z.pos (digits2_pos m) + e) - e)
    as [|d|d] eqn:Ed;
    try (apply binary_round_aux_finite; cbn [Zdigits2]; lia).
  unfold SpecFloat.fexp in *.
  apply binary_round_aux_finite; cbn [Zdigits2]; try lia.
  rewrite digits2_iter. lia.
Qed.

Lemma Z_to_float_finite (z : Z) :
  Z.abs z < 2 ^ 1023 -> is_infinity (Z_to_float z) = false.
Proof.
  intros Hz. unfold Z_to_float, binary_normalize.
  destruct z as [|m|m]; [reflexivity | |];
    (apply binary_round_finite;
     [unfold emin, emax, prec; lia | unfold emax, prec; lia |
      pose proof (digits2_le m 1023 Hz); unfold emax; lia]).
Qed.

(** With a [float] length and an [int] number of plates above [-1] the
    plate separation is the quotient of the two floats. *)
Lemma plate_separation_float_int (length : float64) (k : Z) :
  -1 < k -> k + 1 < 2 ^ 1023 ->
  plate_separation (PFloat length) (PInt k)
  = Ok (PFloat (fdiv length (Z_to_float (k + 1)))).
Proof.
  intros Hlo Hhi. unfold plate_separation. cbn [py_add rbind].
  unfold py_truediv, as_float. cbn [rbind].
  rewrite Z_to_float_finite by lia. cbn [rbind].
  rewrite Z_to_float_not_zero by lia. reflexivity.
Qed.

(** ** The samples *)

Lemma sample_built : built sample_coordinator.
Proof.
  exists "authentications.json", sample_order, idle.
  eexists. reflexivity.
Qed.

Lemma mirror_only_built : built mirror_only.
Proof.
  exists "authentications.json", ["curved_mirror"], idle.
  eexists. reflexivity.
Qed.

Lemma no_motors_built : built no_motors.
Proof.
  exists "authentications.json", (@nil string), idle.
  eexists. reflexivity.
Qed.

(** The example of the specification, in full. *)
Example sample_call :
  move_by_increment sample_coordinator (lit 1 1) (lit 1 10) (lit 10 1)
    (PInt 2) (lit 7 2) idle
  = (Ok sample_pair,
     after idle
       [EvPrint "Moving curved mirror motor by 400000 steps";
        EvSet "curved_mirror_move_steps" (VInt 400000);
        EvPrint "Moving bottom plate motor by 323333 steps";
        EvSet "bottom_dielectric_plate_move_steps" (VInt 323333);
        EvPrint "Moving top plate motor by 56667 steps";
        EvSet "top_dielectric_plate_move_steps" (VInt 56667)]).
Proof. reflexivity. Qed.

Lemma sample_pair_returned :
  returned_pair (lit 1 1) (lit 10 1) (PInt 2) = Ok sample_pair.
Proof. reflexivity. Qed.

Lemma sample_defined (self : OrpheusMotors.t) :
  defined (moves self (lit 1 1) (lit 1 10) (snd sample_pair) (lit 7 2)).
Proof.
  intros m [<-|[<-|[<-|[]]]] _; reflexivity.
Qed.

(** Every list has an order in which its set can be iterated. *)
Lemma iterates_nodup (l : list string) : iterates l (nodup string_dec l).
Proof.
  split; [apply NoDup_nodup | intros x; apply nodup_In].
Qed.

(** ** Calls that raise

    The coordinator validates nothing: an exception of the arithmetic
    leaves the call at the point where it is raised.  With [num_plates =
    -1] the division raises before any motor is commanded; a distance that
    is not a number is refused by [round] when the first active motor is
    reached. *)
Remark move_by_increment_zero_division :
  move_by_increment sample_coordinator (lit 1 1) (lit 1 10) (lit 10 1)
    (PInt (-1)) (lit 7 2) idle
  = (Raise ZeroDivisionError, idle).
Proof. reflexivity. Qed.

Remark move_by_increment_nan :
  move_by_increment sample_coordinator (PFloat S754_nan) (lit 1 10)
    (lit 10 1) (PInt 2) (lit 7 2) idle
  = (Raise ValueError, idle)
  /\ fst (move_by_increment no_motors (PFloat S754_nan) (lit 1 10)
            (lit 10 1) (PInt 2) (lit 7 2) idle)
     = Ok (PFloat S754_nan, PFloat S754_nan).
Proof. split; reflexivity. Qed.

(** * The claims *)

(** C1.  A call of [move_by_increment] on a coordinator built by
    [__init__] returns exactly when the pair ([cavity_length_tracker +
    increment_distance], that sum divided by [num_plates + 1]) and the step
    counts of the active motors are defined, and what it returns is that
    pair.  The helper [plate_separation(length, num_plates)] is [length /
    (num_plates + 1)]; for [num_plates > -1] the divisor is not zero, so
    that the division can raise [OverflowError] only; and with [float]
    lengths and an [int] number of plates above [-1] the pair is defined:
    it is the sum of the two floats and its quotient by [num_plates + 1]. *)
Theorem move_by_increment_returns
  (self : OrpheusMotors.t) (d th t n init : pynum) (w : World) :
  built self ->
  (forall p,
     fst (move_by_increment self d th t n init w) = Ok p
     <-> returned_pair d t n = Ok p
         /\ defined (moves self d th (snd p) init))
  /\ (forall length,
       exists divisor,
         py_add n (PInt 1) = Ok divisor
         /\ plate_separation length n = py_truediv length divisor)
  /\ (valid n -> exceeds_minus_one n = true ->
      forall length,
      exists divisor,
        py_add n (PInt 1) = Ok divisor
        /\ nonzero divisor
        /\ plate_separation length n = py_truediv length divisor
        /\ forall e, plate_separation length n = Raise e -> e = OverflowError)
  /\ (forall (ft fd : float64) (k : Z),
        t = PFloat ft -> d = PFloat fd -> n = PInt k ->
        -1 < k -> k + 1 < 2 ^ 1023 ->
        returned_pair d t n
        = Ok (PFloat (fadd ft fd),
              PFloat (fdiv (fadd ft fd) (Z_to_float (k + 1))))).
Proof.
  intros Hb. destruct (built_consistent _ Hb) as [Hc _].
  split; [|split; [|split]].
  - intros p. split.
    + now apply move_by_increment_returned.
    + intros [Hp Hdef].
      now rewrite (move_by_increment_completes _ _ _ _ _ _ w _ Hc Hp Hdef).
  - intros length. unfold plate_separation.
    destruct n as [z|f].
    + exists (PInt (z + 1)). split; reflexivity.
    + exists (PFloat (fadd f (Z_to_float 1))). split; reflexivity.
  - intros Hv Hgt length.
    destruct (divisor_nonzero n Hv Hgt) as (divisor & Hd & Hnz).
    exists divisor. unfold plate_separation. rewrite Hd. cbn [rbind].
    repeat split; try assumption.
    intros e. now apply truediv_nonzero.
  - intros ft fd k -> -> -> Hlo Hhi.
    rewrite returned_pair_plate_separation. cbn [py_add float_binop as_float rbind].
    now rewrite plate_separation_float_int.
Qed.

Lemma move_by_increment_returns_witness :
  fst (move_by_increment sample_coordinator (lit 1 1) (lit 1 10) (lit 10 1)
         (PInt 2) (lit 7 2) idle) = Ok sample_pair.
Proof.
  apply (proj1 (move_by_increment_returns sample_coordinator (lit 1 1)
                  (lit 1 10) (lit 10 1) (PInt 2) (lit 7 2) idle
                  sample_built)).
  split; [exact sample_pair_returned | exact (sample_defined _)].
Defined.

(** ** The trace of a call *)

Lemma emitted_same (w : World) : emitted w w = [].
Proof. rewrite <- (after_nil w) at 2. apply emitted_after. Qed.

Lemma known_role_cases (role : string) :
  known_role role = true ->
  role = "curved_mirror"
  \/ role = "bottom_dielectric_plate"
  \/ role = "top_dielectric_plate".
Proof.
  unfold known_role. intros H.
  apply orb_prop in H. destruct H as [H|H];
    [apply orb_prop in H; destruct H as [H|H]|];
    apply String.eqb_eq in H; auto.
Qed.

(** The moves of a call whose pair and step counts are defined. *)
Lemma move_by_increment_emitted (self : OrpheusMotors.t)
  (d th t n init : pynum) (w : World) (p : pynum * pynum) :
  consistent self ->
  returned_pair d t n = Ok p ->
  defined (moves self d th (snd p) init) ->
  emitted w (snd (move_by_increment self d th t n init w))
  = fst (issue (moves self d th (snd p) init)).
Proof.
  intros Hc Hp Hdef.
  rewrite (move_by_increment_completes _ _ _ _ _ _ w _ Hc Hp Hdef).
  cbn [snd]. apply emitted_after.
Qed.

Lemma returned_pair_fst (d t n : pynum) (p : pynum * pynum) :
  returned_pair d t n = Ok p -> py_add t d = Ok (fst p).
Proof.
  unfold returned_pair.
  destruct (py_add t d) as [new_length|]; cbn [rbind]; [|discriminate].
  destruct (py_add n (PInt 1)) as [divisor|]; cbn [rbind]; [|discriminate].
  destruct (py_truediv new_length divisor); cbn [rbind]; [|discriminate].
  now intros [= <-].
Qed.

(** C2.  In a call of [move_by_increment] whose pair and step counts are
    defined, an active bottom plate motor is commanded
    [plates_distance_to_steps((initial_plate_separation +
    increment_distance) - new_plate_separation, dielectric_plate_thickness)]
    steps and an active top plate motor
    [plates_distance_to_steps(new_plate_separation -
    initial_plate_separation, dielectric_plate_thickness)] steps, once each.
    For [increment_distance = 1.0], [cavity_length_tracker = 10.0],
    [num_plates = 2], [initial_plate_separation = 3.5] the bottom plate
    travel is [(3.5 + 1.0) - 11/3], which is [0.8333333333333335], and the
    top plate travel is [11/3 - 3.5], which is [0.16666666666666652]. *)
Theorem plates_commanded
  (self : OrpheusMotors.t) (d th t n init : pynum) (w : World)
  (new_length sep : pynum) :
  built self ->
  returned_pair d t n = Ok (new_length, sep) ->
  defined (moves self d th sep init) ->
  let call := move_by_increment self d th t n init w in
  fst call = Ok (new_length, sep)
  /\ (In "bottom_dielectric_plate" (motor_names self) ->
      exists travel steps,
        bottom_plate_travel init d sep = Ok travel
        /\ plates_steps travel th = Ok steps
        /\ commanded "bottom_dielectric_plate" (emitted w (snd call)) = [steps])
  /\ (In "top_dielectric_plate" (motor_names self) ->
      exists travel steps,
        top_plate_travel sep init = Ok travel
        /\ plates_steps travel th = Ok steps
        /\ commanded "top_dielectric_plate" (emitted w (snd call)) = [steps])
  /\ (d = lit 1 1 -> t = lit 10 1 -> n = PInt 2 -> init = lit 7 2 ->
      bottom_plate_travel init d sep
      = (do sum <- py_add (lit 7 2) (lit 1 1);
         do third <- py_truediv (PInt 11) (PInt 3);
         py_sub sum third)
      /\ bottom_plate_travel init d sep
         = Ok (lit 8333333333333335 10000000000000000)
      /\ top_plate_travel sep init
         = (do third <- py_truediv (PInt 11) (PInt 3);
            py_sub third (lit 7 2))
      /\ top_plate_travel sep init
         = Ok (lit 16666666666666652 100000000000000000)).
Proof.
  intros Hb Hp Hdef call. subst call.
  destruct (built_consistent _ Hb) as [Hc _].
  pose proof (move_by_increment_emitted self d th t n init w _ Hc Hp Hdef)
    as Hev.
  cbn [snd] in Hev. rewrite Hev.
  destruct (commanded_when_defined self d th sep init Hdef)
    as (_ & Hbottom & Htop).
  split; [|split; [|split]].
  - now rewrite (move_by_increment_completes _ _ _ _ _ _ w _ Hc Hp Hdef).
  - exact Hbottom.
  - exact Htop.
  - intros -> -> -> ->.
    rewrite sample_pair_returned in Hp. injection Hp as <- <-.
    repeat split; reflexivity.
Qed.

Lemma plates_commanded_witness :
  commanded "bottom_dielectric_plate"
    (emitted idle
       (snd (move_by_increment sample_coordinator (lit 1 1) (lit 1 10)
               (lit 10 1) (PInt 2) (lit 7 2) idle))) = [323333]
  /\ commanded "top_dielectric_plate"
       (emitted idle
          (snd (move_by_increment sample_coordinator (lit 1 1) (lit 1 10)
                  (lit 10 1) (PInt 2) (lit 7 2) idle))) = [56667].
Proof.
  destruct (plates_commanded sample_coordinator (lit 1 1) (lit 1 10)
              (lit 10 1) (PInt 2) (lit 7 2) idle (fst sample_pair)
              (snd sample_pair) sample_built sample_pair_returned
              (sample_defined _))
    as (_ & Hbottom & Htop & _).
  destruct (Hbottom ltac:(simpl; tauto)) as (tb & sb & Htb & Hsb & Hcb).
  destruct (Htop ltac:(simpl; tauto)) as (tt' & st & Htt & Hst & Hct).
  split.
  - rewrite Hcb. f_equal.
    vm_compute in Htb. injection Htb as <-.
    vm_compute in Hsb. injection Hsb as <-. reflexivity.
  - rewrite Hct. f_equal.
    vm_compute in Htt. injection Htt as <-.
    vm_compute in Hst. injection Hst as <-. reflexivity.
Defined.

(** C8.  In any call of [move_by_increment] on a coordinator built by
    [__init__], whether it returns or raises, a [move_steps] command
    reaches only motors whose role is in [motor_names], and nothing else is
    sent on the interface; and in a call that returns, a role is in
    [motor_names] if and only if its motor was commanded, once. *)
Theorem moves_reach_active_motors_only
  (self : OrpheusMotors.t) (d th t n init : pynum) (w : World) :
  built self ->
  let call := move_by_increment self d th t n init w in
  (forall role,
     commanded role (emitted w (snd call)) <> [] ->
     In role (motor_names self))
  /\ (forall endpoint v,
        In (EvSet endpoint v) (emitted w (snd call)) ->
        exists role steps,
          In role (motor_names self)
          /\ endpoint = move_steps_endpoint role
          /\ v = VInt steps)
  /\ (is_ok (fst call) = true ->
      forall role,
        In role (motor_names self)
        <-> exists steps, commanded role (emitted w (snd call)) = [steps]).
Proof.
  intros Hb call. subst call.
  destruct (built_consistent _ Hb) as [Hc Hk].
  split; [|split].
  - intros role Hne.
    destruct (move_by_increment_trace self d th t n init w Hc)
      as [E|(new_length & sep & _ & _ & E)]; rewrite E in Hne.
    + now rewrite emitted_same in Hne.
    + rewrite emitted_after in Hne.
      now apply commanded_only_active in Hne.
  - intros endpoint v Hin.
    destruct (move_by_increment_trace self d th t n init w Hc)
      as [E|(new_length & sep & _ & _ & E)]; rewrite E in Hin.
    + rewrite emitted_same in Hin. destruct Hin.
    + rewrite emitted_after in Hin.
      now apply sets_only_active in Hin.
  - intros Hok role.
    destruct (fst (move_by_increment self d th t n init w)) as [p|] eqn:Hp;
      [|discriminate].
    destruct (move_by_increment_returned _ _ _ _ _ _ _ _ Hc Hp) as [Hpair Hdef].
    rewrite (move_by_increment_emitted self d th t n init w _ Hc Hpair Hdef).
    destruct (commanded_when_defined self d th (snd p) init Hdef)
      as (Hmirror & Hbottom & Htop).
    split.
    + intros Hin.
      destruct (known_role_cases role (Hk role Hin)) as [-> | [-> | ->]].
      * destruct (Hmirror Hin) as (s & _ & Hs). eauto.
      * destruct (Hbottom Hin) as (? & s & _ & _ & Hs). eauto.
      * destruct (Htop Hin) as (? & s & _ & _ & Hs). eauto.
    + intros (steps & Hs).
      apply (commanded_only_active self d th (snd p) init role).
      rewrite Hs. discriminate.
Qed.

Lemma moves_reach_active_motors_only_witness :
  commanded "top_dielectric_plate"
    (emitted idle
       (snd (move_by_increment mirror_only (lit 1 1) (lit 1 10) (lit 10 1)
               (PInt 2) (lit 7 2) idle))) = []
  /\ exists steps,
       commanded "curved_mirror"
         (emitted idle
            (snd (move_by_increment mirror_only (lit 1 1) (lit 1 10)
                    (lit 10 1) (PInt 2) (lit 7 2) idle))) = [steps].
Proof.
  destruct (moves_reach_active_motors_only mirror_only (lit 1 1) (lit 1 10)
              (lit 10 1) (PInt 2) (lit 7 2) idle mirror_only_built)
    as (Honly & _ & Hiff).
  split.
  - destruct (commanded "top_dielectric_plate" _) eqn:E; [reflexivity|].
    exfalso.
    assert (Hin : In "top_dielectric_plate" (motor_names mirror_only))
      by (apply Honly; rewrite E; discriminate).
    simpl in Hin. destruct Hin as [Hin|[]]. discriminate Hin.
  - apply (Hiff eq_refl). simpl. tauto.
Defined.

(** C10.  Two calls of [move_by_increment] that agree on
    [increment_distance], [cavity_length_tracker] and [num_plates] and both
    return, return the same pair, whatever their coordinators, their
    [dielectric_plate_thickness] and their [initial_plate_separation]; and
    each of the two returns as soon as that pair and its own step counts
    are defined. *)
Theorem returned_pair_depends_on_three_arguments
  (self1 self2 : OrpheusMotors.t) (d t n th1 th2 init1 init2 : pynum)
  (w1 w2 : World) :
  (forall p1 p2,
     fst (move_by_increment self1 d th1 t n init1 w1) = Ok p1 ->
     fst (move_by_increment self2 d th2 t n init2 w2) = Ok p2 ->
     p1 = p2 /\ returned_pair d t n = Ok p1)
  /\ (built self1 -> built self2 ->
      forall p,
        returned_pair d t n = Ok p ->
        defined (moves self1 d th1 (snd p) init1) ->
        defined (moves self2 d th2 (snd p) init2) ->
        fst (move_by_increment self1 d th1 t n init1 w1) = Ok p
        /\ fst (move_by_increment self2 d th2 t n init2 w2) = Ok p).
Proof.
  split.
  - intros p1 p2 H1 H2.
    apply move_by_increment_ok_inv in H1, H2.
    split; [congruence | assumption].
  - intros Hb1 Hb2 p Hp Hd1 Hd2.
    destruct (built_consistent _ Hb1) as [Hc1 _].
    destruct (built_consistent _ Hb2) as [Hc2 _].
    rewrite (move_by_increment_completes _ _ _ _ _ _ w1 _ Hc1 Hp Hd1).
    rewrite (move_by_increment_completes _ _ _ _ _ _ w2 _ Hc2 Hp Hd2).
    split; reflexivity.
Qed.

Lemma returned_pair_depends_on_three_arguments_witness :
  fst (move_by_increment sample_coordinator (lit 1 1) (lit 1 10) (lit 10 1)
         (PInt 2) (lit 7 2) idle)
  = fst (move_by_increment no_motors (lit 1 1) (lit 3 10) (lit 10 1)
           (PInt 2) (lit 4 1) (after idle [EvSleep 1])).
Proof.
  destruct (proj2 (returned_pair_depends_on_three_arguments
                     sample_coordinator no_motors (lit 1 1) (lit 10 1)
                     (PInt 2) (lit 1 10) (lit 3 10) (lit 7 2) (lit 4 1)
                     idle (after idle [EvSleep 1]))
              sample_built no_motors_built sample_pair
              sample_pair_returned (sample_defined _)
              ltac:(intros m [<-|[<-|[<-|[]]]] Ha; discriminate Ha))
    as [H1 H2].
  rewrite H1, H2. reflexivity.
Defined.

(** C6.  Threading the first component returned by [move_by_increment]
    into the [cavity_length_tracker] of the next call, whatever the
    coordinator and the other arguments of each call: if the sequence runs
    to its end, the final tracker is [t0 + d1 + d2 + ... + dk], summed from
    the left; and the sequence does run to its end when the pair and the
    step counts of every call are defined. *)
Theorem thread_running_sum (calls : list call) (t0 : pynum) (w : World) :
  (forall tf,
     fst (thread t0 calls w) = Ok tf ->
     running_sum t0 (map call_increment_distance calls) = Ok tf)
  /\ (Forall (fun c => built (call_self c)) calls ->
      each_defined t0 calls ->
      exists tf,
        fst (thread t0 calls w) = Ok tf
        /\ running_sum t0 (map call_increment_distance calls) = Ok tf).
Proof.
  revert t0 w. induction calls as [|c rest IH]; intros t0 w.
  - split.
    + intros tf H. exact H.
    + intros _ _. exists t0. split; reflexivity.
  - cbn [thread map running_sum each_defined]. split.
    + intros tf H.
      apply bind_ok_inv in H. destruct H as (p & w' & Hcall & H).
      assert (Hp : returned_pair (call_increment_distance c) t0
                     (call_num_plates c) = Ok p).
      { eapply move_by_increment_ok_inv. now rewrite Hcall. }
      rewrite (returned_pair_fst _ _ _ _ Hp). cbn [rbind].
      now apply (proj1 (IH (fst p) w')).
    + intros Hb (p & Hp & Hdef & Hrest).
      inversion Hb as [|? ? Hbc Hbrest]; subst.
      destruct (built_consistent _ Hbc) as [Hc _].
      unfold bind.
      rewrite (move_by_increment_completes _ _ _ _ _ _ w _ Hc Hp Hdef).
      rewrite (returned_pair_fst _ _ _ _ Hp). cbn [rbind].
      now apply (proj2 (IH (fst p) _)).
Qed.

Lemma thread_running_sum_witness :
  running_sum (lit 10 1) [lit 1 1; lit 1 2; lit (-1) 4] = Ok (lit 45 4).
Proof.
  apply (proj1 (thread_running_sum
                  [mkCall sample_coordinator (lit 1 1) (lit 1 10) (PInt 2)
                     (lit 7 2);
                   mkCall no_motors (lit 1 2) (lit 3 10) (PInt 0) (lit 4 1);
                   mkCall mirror_only (lit (-1) 4) (lit 1 10) (PInt 5)
                     (lit 2 1)]
                  (lit 10 1) idle)).
  vm_compute. reflexivity.
Defined.

(** C7.  Whatever the list of motors, [OrpheusMotors.__init__] raises
    nothing, creates one motor for each of ['curved_mirror'],
    ['bottom_dielectric_plate'] and ['top_dielectric_plate'] that the list
    names and none for any other string, and leaves in [motor_names] those
    known roles only; the motor that [TestMotor] would create, of role
    ['resonator_coupling'], is never among the motors. *)
Theorem init_ignores_unknown_roles
  (auths : string) (list_of_motors order : list string) (w : World) :
  iterates list_of_motors order ->
  exists self,
    __init__ auths order w
    = (Ok self, after w (map (fun _ => EvInterface auths) (motor_names self)))
    /\ motors self = map (Motor.mk auths) (motor_names self)
    /\ motor_names self = filter known_role order
    /\ NoDup (motor_names self)
    /\ (forall role,
          In role (motor_names self)
          <-> In role list_of_motors /\ known_role role = true)
    /\ ~ In "resonator_coupling" (motor_names self)
    /\ (forall w0 m, fst (TestMotor auths w0) = Ok m -> ~ In m (motors self)).
Proof.
  intros [Hnd Hiter].
  destruct (init_run auths order w) as (self & Hrun & Hn & Hm).
  exists self. rewrite Hn, Hm, Hrun.
  assert (Hno : ~ In "resonator_coupling" (filter known_role order)).
  { intros H. apply filter_In in H. destruct H as [_ H]. discriminate H. }
  repeat split; try assumption.
  - now apply NoDup_filter.
  - apply filter_In in H. now apply Hiter.
  - apply filter_In in H. tauto.
  - intros [Hin Hk]. apply filter_In. split; [now apply Hiter | assumption].
  - intros w0 m Hmk Hin. injection Hmk as <-.
    apply in_map_iff in Hin. destruct Hin as (role & E & Hin).
    injection E as ->. contradiction.
Qed.

Lemma init_ignores_unknown_roles_witness :
  exists self,
    __init__ "authentications.json" sample_order idle
    = (Ok self,
       after idle (map (fun _ => EvInterface "authentications.json")
                     (motor_names self)))
    /\ motor_names self
       = ["top_dielectric_plate"; "curved_mirror"; "bottom_dielectric_plate"].
Proof.
  destruct (init_ignores_unknown_roles "authentications.json"
              ("resonator_coupling" :: sample_order ++ ["curved_mirror"])
              sample_order idle)
    as (self & Hrun & _ & Hn & _).
  - split.
    + unfold sample_order. repeat constructor; simpl; intuition discriminate.
    + intros x. unfold sample_order. simpl. tauto.
  - exists self. split; [exact Hrun | exact Hn].
Defined.

(** ** Waiting *)

Lemma get_status_run (m : Motor.t) (w : World) :
  Motor.get_status m w
  = (Ok (device w (asked w) (status_endpoint m)),
     mkWorld (trace w ++ [EvGet (status_endpoint m)]) (S (asked w)) (device w)).
Proof. reflexivity. Qed.

Lemma wait_for_motor_step (fuel : nat) (m : Motor.t) (w : World) :
  Motor.wait_for_motor (S fuel) m w
  = if String.eqb (device w (asked w) (status_endpoint m)) "R"
    then (Ok (Some tt),
          mkWorld (trace w ++ [EvGet (status_endpoint m)]) (S (asked w))
            (device w))
    else Motor.wait_for_motor fuel m
           (mkWorld
              (trace w
               ++ [EvGet (status_endpoint m); EvGet (status_endpoint m);
                   EvPrint (device w (S (asked w)) (status_endpoint m));
                   EvSleep 1])
              (S (S (asked w))) (device w)).
Proof.
  cbn [Motor.wait_for_motor].
  unfold bind at 1. rewrite get_status_run.
  destruct (String.eqb (device w (asked w) (status_endpoint m)) "R");
    [reflexivity|].
  unfold bind at 1. rewrite get_status_run. cbn [trace asked device].
  unfold bind at 1. unfold print. rewrite emit_run.
  unfold bind at 1. unfold sleep. rewrite emit_run.
  unfold after. cbn [trace asked device].
  rewrite <- !List.app_assoc. reflexivity.
Qed.

(** The loop of [wait_for_motor], turn by turn: either the condition read
    ['R'] at its [j]-th evaluation, [j < fuel], and the loop ended there,
    or it read something else [fuel] times and the loop is still running. *)
Lemma wait_for_motor_run (fuel : nat) (m : Motor.t) (w : World) :
  (exists j,
     (j < fuel)%nat
     /\ (forall i, (i < j)%nat ->
                   device w (asked w + 2 * i) (status_endpoint m) <> "R")
     /\ device w (asked w + 2 * j) (status_endpoint m) = "R"
     /\ Motor.wait_for_motor fuel m w
        = (Ok (Some tt),
           mkWorld (trace w ++ waiting (device w) m (asked w) j
                      ++ [EvGet (status_endpoint m)])
             (asked w + 2 * j + 1) (device w)))
  \/ ((forall i, (i < fuel)%nat ->
                 device w (asked w + 2 * i) (status_endpoint m) <> "R")
      /\ Motor.wait_for_motor fuel m w
         = (Ok None,
            mkWorld (trace w ++ waiting (device w) m (asked w) fuel)
              (asked w + 2 * fuel) (device w))).
Proof.
  revert w. induction fuel as [|fuel IH]; intros w.
  - right. split; [intros i Hi; lia|].
    cbn [Motor.wait_for_motor waiting]. unfold ret.
    rewrite app_nil_r, Nat.add_0_r. now destruct w.
  - rewrite wait_for_motor_step.
    destruct (String.eqb_spec (device w (asked w) (status_endpoint m)) "R")
      as [E|NE].
    + left. exists O. rewrite !Nat.add_0_r. cbn [waiting app].
      repeat split; [lia | intros i Hi; lia | assumption |].
      do 2 f_equal. lia.
    + match goal with
      | |- context [Motor.wait_for_motor fuel m ?w2] =>
          destruct (IH w2) as [(j & Hj & Hno & Hyes & Hrun)|(Hno & Hrun)];
          rewrite Hrun; clear Hrun; cbn [trace asked device] in *
      end.
      * left. exists (S j).
        repeat split; [lia | | |].
        -- intros [|i] Hi; [now rewrite Nat.add_0_r|].
           replace (asked w + 2 * S i)%nat with (S (S (asked w)) + 2 * i)%nat
             by lia.
           apply Hno. lia.
        -- now replace (asked w + 2 * S j)%nat
             with (S (S (asked w)) + 2 * j)%nat by lia.
        -- cbn [waiting]. f_equal. f_equal.
           ++ rewrite <- !List.app_assoc. reflexivity.
           ++ lia.
      * right. split.
        -- intros [|i] Hi; [now rewrite Nat.add_0_r|].
           replace (asked w + 2 * S i)%nat with (S (S (asked w)) + 2 * i)%nat
             by lia.
           apply Hno. lia.
        -- cbn [waiting]. f_equal. f_equal.
           ++ rewrite <- !List.app_assoc. reflexivity.
           ++ lia.
Qed.

Lemma get_motor_status_from_run (ms : list Motor.t) (status : list string)
  (w : World) :
  get_motor_status_from ms status w
  = (Ok (status ++ round_of (device w) (asked w) ms),
     mkWorld (trace w ++ polls ms) (asked w + List.length ms) (device w)).
Proof.
  revert status w. induction ms as [|m ms IH]; intros status w.
  - cbn [get_motor_status_from round_of polls map List.length]. unfold ret.
    rewrite !app_nil_r, Nat.add_0_r. now destruct w.
  - cbn [get_motor_status_from]. unfold bind. rewrite get_status_run.
    rewrite IH. cbn [trace asked device round_of polls map List.length].
    f_equal.
    + now rewrite <- List.app_assoc.
    + f_equal; [now rewrite <- List.app_assoc | lia].
Qed.

Lemma wait_loop_step (fuel : nat) (self : OrpheusMotors.t)
  (ready : list string) (w : World) :
  let ms := motors self in
  wait_loop (S fuel) self ready w
  = if list_eq_dec string_dec (round_of (device w) (asked w) ms) ready
    then (Ok (Some tt),
          mkWorld (trace w ++ polls ms) (asked w + List.length ms) (device w))
    else wait_loop fuel self ready
           (mkWorld
              (trace w
               ++ polls ms ++ polls ms
               ++ [EvPrint (repr_list
                              (round_of (device w)
                                 (asked w + List.length ms) ms));
                   EvSleep 1])
              (asked w + List.length ms + List.length ms) (device w)).
Proof.
  intros ms. subst ms. cbn [wait_loop].
  unfold bind at 1. unfold get_motor_status.
  rewrite get_motor_status_from_run. cbn [app].
  destruct (list_eq_dec string_dec
              (round_of (device w) (asked w) (motors self)) ready);
    [reflexivity|].
  unfold bind at 1. rewrite get_motor_status_from_run.
  cbn [app trace asked device].
  unfold bind at 1. unfold print. rewrite emit_run.
  unfold bind at 1. unfold sleep. rewrite emit_run.
  unfold after. cbn [trace asked device].
  rewrite <- !List.app_assoc. reflexivity.
Qed.

(** The loop of [wait_for_motors], turn by turn. *)
Lemma wait_loop_run (fuel : nat) (self : OrpheusMotors.t)
  (ready : list string) (w : World) :
  let ms := motors self in
  let len := List.length ms in
  (exists j,
     (j < fuel)%nat
     /\ (forall i, (i < j)%nat ->
                   round_of (device w) (asked w + 2 * len * i) ms <> ready)
     /\ round_of (device w) (asked w + 2 * len * j) ms = ready
     /\ wait_loop fuel self ready w
        = (Ok (Some tt),
           mkWorld (trace w ++ waiting_all (device w) ms (asked w) j
                      ++ polls ms)
             (asked w + 2 * len * j + len) (device w)))
  \/ ((forall i, (i < fuel)%nat ->
                 round_of (device w) (asked w + 2 * len * i) ms <> ready)
      /\ wait_loop fuel self ready w
         = (Ok None,
            mkWorld (trace w ++ waiting_all (device w) ms (asked w) fuel)
              (asked w + 2 * len * fuel) (device w))).
Proof.
  intros ms len. revert w. induction fuel as [|fuel IH]; intros w.
  - right. split; [intros i Hi; lia|].
    cbn [wait_loop waiting_all]. unfold ret.
    rewrite app_nil_r, Nat.mul_0_r, Nat.add_0_r. now destruct w.
  - rewrite wait_loop_step. fold ms. fold len.
    destruct (list_eq_dec string_dec
                (round_of (device w) (asked w) ms) ready) as [E|NE].
    + left. exists O. rewrite !Nat.mul_0_r, !Nat.add_0_r.
      cbn [waiting_all app].
      repeat split; [lia | intros i Hi; lia | assumption].
    + match goal with
      | |- context [wait_loop fuel self ready ?w2] =>
          destruct (IH w2) as [(j & Hj & Hno & Hyes & Hrun)|(Hno & Hrun)];
          rewrite Hrun; clear Hrun; cbn [trace asked device] in *
      end.
      * left. exists (S j).
        repeat split; [lia | | |].
        -- intros [|i] Hi; [now rewrite Nat.mul_0_r, Nat.add_0_r|].
           replace (asked w + 2 * len * S i)%nat
             with (asked w + len + len + 2 * len * i)%nat by lia.
           apply Hno. lia.
        -- now replace (asked w + 2 * len * S j)%nat
             with (asked w + len + len + 2 * len * j)%nat by lia.
        -- cbn [waiting_all]. fold len. f_equal. f_equal.
           ++ rewrite <- !List.app_assoc. reflexivity.
           ++ lia.
      * right. split.
        -- intros [|i] Hi; [now rewrite Nat.mul_0_r, Nat.add_0_r|].
           replace (asked w + 2 * len * S i)%nat
             with (asked w + len + len + 2 * len * i)%nat by lia.
           apply Hno. lia.
        -- cbn [waiting_all]. fold len. f_equal. f_equal.
           ++ rewrite <- !List.app_assoc. reflexivity.
           ++ lia.
Qed.

Lemma sleeps_app (a b : list event) : sleeps (a ++ b) = sleeps a ++ sleeps b.
Proof. unfold sleeps. apply flat_map_app. Qed.

Lemma sleeps_polls (ms : list Motor.t) : sleeps (polls ms) = [].
Proof. induction ms as [|m ms IH]; [reflexivity | exact IH]. Qed.

Lemma sleeps_waiting (dev : nat -> string -> string) (m : Motor.t)
  (k j : nat) : sleeps (waiting dev m k j) = repeat 1 j.
Proof.
  revert k. induction j as [|j IH]; intros k; [reflexivity|].
  cbn [waiting]. rewrite sleeps_app, IH. reflexivity.
Qed.

Lemma sleeps_waiting_all (dev : nat -> string -> string) (ms : list Motor.t)
  (k j : nat) : sleeps (waiting_all dev ms k j) = repeat 1 j.
Proof.
  revert k. induction j as [|j IH]; intros k; [reflexivity|].
  cbn [waiting_all]. rewrite !sleeps_app, !sleeps_polls, IH. reflexivity.
Qed.

Lemma emitted_world (w : World) (evs : list event) (k : nat)
  (dev : nat -> string -> string) :
  emitted w (mkWorld (trace w ++ evs) k dev) = evs.
Proof.
  unfold emitted. cbn [trace].
  induction (trace w) as [|ev tr IH]; simpl; auto.
Qed.

Lemma wait_for_motors_unfold (fuel : nat) (self : OrpheusMotors.t)
  (w : World) :
  wait_for_motors fuel self w
  = match wait_loop fuel self (repeat "R" (List.length (motor_names self)))
            (after w [EvPrint (repr_list (motor_names self))]) with
    | (Ok (Some _), w1) => (Ok (Some tt), after w1 [EvPrint "done waiting"])
    | (Ok None, w1) => (Ok None, w1)
    | (Raise e, w1) => (Raise e, w1)
    end.
Proof.
  unfold wait_for_motors.
  unfold bind at 1. unfold print at 1. rewrite emit_run.
  unfold bind at 1.
  destruct (wait_loop fuel self _ _) as [[[[]|]|e] w1]; reflexivity.
Qed.

(** The whole of [wait_for_motors]: the names are printed, the loop runs,
    and ['done waiting'] is printed if it ends. *)
Lemma wait_for_motors_run (fuel : nat) (self : OrpheusMotors.t) (w : World) :
  let ms := motors self in
  let len := List.length ms in
  let ready := repeat "R" (List.length (motor_names self)) in
  (exists j,
     (j < fuel)%nat
     /\ (forall i, (i < j)%nat ->
                   round_of (device w) (asked w + 2 * len * i) ms <> ready)
     /\ round_of (device w) (asked w + 2 * len * j) ms = ready
     /\ wait_for_motors fuel self w
        = (Ok (Some tt),
           mkWorld (trace w
                    ++ [EvPrint (repr_list (motor_names self))]
                    ++ waiting_all (device w) ms (asked w) j
                    ++ polls ms ++ [EvPrint "done waiting"])
             (asked w + 2 * len * j + len) (device w)))
  \/ ((forall i, (i < fuel)%nat ->
                 round_of (device w) (asked w + 2 * len * i) ms <> ready)
      /\ wait_for_motors fuel self w
         = (Ok None,
            mkWorld (trace w
                     ++ [EvPrint (repr_list (motor_names self))]
                     ++ waiting_all (device w) ms (asked w) fuel)
              (asked w + 2 * len * fuel) (device w))).
Proof.
  intros ms len ready. rewrite wait_for_motors_unfold. fold ready.
  destruct (wait_loop_run fuel self ready
              (after w [EvPrint (repr_list (motor_names self))]))
    as [(j & Hj & Hno & Hyes & Hrun)|(Hno & Hrun)];
    rewrite Hrun; clear Hrun;
    cbn [after trace asked device] in *; fold ms in Hno |- *;
    fold len in Hno |- *.
  - left. exists j. repeat split; try assumption.
    unfold after. cbn [trace asked device].
    do 2 f_equal. rewrite <- !List.app_assoc. reflexivity.
  - right. split; [assumption|].
    do 2 f_equal. rewrite <- !List.app_assoc. reflexivity.
Qed.

(** C9.  [wait_for_motor] returns only on a status ['R'] read by its loop
    condition and [wait_for_motors] only on a round of statuses that are
    all ['R']; each turn of either loop that reads anything else sleeps one
    second, once, before the next; and there is no other way out: on
    statuses that are never ['R'] (never all ['R']) the loops are still
    running after any number of turns, while an ['R'] (a round of ['R'])
    read by the condition ends them. *)
Theorem waits_until_ready :
  (forall fuel m w,
     (forall k, device w k (status_endpoint m) <> "R") ->
     fst (Motor.wait_for_motor fuel m w) = Ok None)
  /\ (forall fuel m w w',
        Motor.wait_for_motor fuel m w = (Ok (Some tt), w') ->
        exists j,
          (forall i, (i < j)%nat ->
                     device w (asked w + 2 * i) (status_endpoint m) <> "R")
          /\ device w (asked w + 2 * j) (status_endpoint m) = "R"
          /\ emitted w w'
             = waiting (device w) m (asked w) j ++ [EvGet (status_endpoint m)]
          /\ sleeps (emitted w w') = repeat 1 j)
  /\ (forall fuel m w j,
        (forall i, (i < j)%nat ->
                   device w (asked w + 2 * i) (status_endpoint m) <> "R") ->
        device w (asked w + 2 * j) (status_endpoint m) = "R" ->
        (j < fuel)%nat ->
        fst (Motor.wait_for_motor fuel m w) = Ok (Some tt))
  /\ (forall fuel self w,
        (forall k, round_of (device w) k (motors self)
                   <> repeat "R" (List.length (motor_names self))) ->
        fst (wait_for_motors fuel self w) = Ok None)
  /\ (forall fuel self w w',
        wait_for_motors fuel self w = (Ok (Some tt), w') ->
        exists j,
          (forall i, (i < j)%nat ->
                     round_of (device w)
                       (asked w + 2 * List.length (motors self) * i)
                       (motors self)
                     <> repeat "R" (List.length (motor_names self)))
          /\ Forall (eq "R")
               (round_of (device w)
                  (asked w + 2 * List.length (motors self) * j)
                  (motors self))
          /\ List.length (motors self) = List.length (motor_names self)
          /\ emitted w w'
             = [EvPrint (repr_list (motor_names self))]
               ++ waiting_all (device w) (motors self) (asked w) j
               ++ polls (motors self) ++ [EvPrint "done waiting"]
          /\ sleeps (emitted w w') = repeat 1 j)
  /\ (forall fuel self w j,
        (forall i, (i < j)%nat ->
                   round_of (device w)
                     (asked w + 2 * List.length (motors self) * i)
                     (motors self)
                   <> repeat "R" (List.length (motor_names self))) ->
        round_of (device w) (asked w + 2 * List.length (motors self) * j)
          (motors self)
        = repeat "R" (List.length (motor_names self)) ->
        (j < fuel)%nat ->
        fst (wait_for_motors fuel self w) = Ok (Some tt)).
Proof.
  repeat split.
  - intros fuel m w Hnever.
    destruct (wait_for_motor_run fuel m w)
      as [(j & _ & _ & Hyes & _)|(_ & Hrun)].
    + now apply Hnever in Hyes.
    + now rewrite Hrun.
  - intros fuel m w w' H.
    destruct (wait_for_motor_run fuel m w)
      as [(j & _ & Hno & Hyes & Hrun)|(_ & Hrun)];
      rewrite Hrun in H; [|discriminate].
    injection H as <-. exists j. rewrite emitted_world.
    repeat split; try assumption.
    rewrite sleeps_app, sleeps_waiting. cbn. apply app_nil_r.
  - intros fuel m w j Hno Hyes Hj.
    destruct (wait_for_motor_run fuel m w)
      as [(j' & _ & _ & _ & Hrun)|(Hno' & _)].
    + now rewrite Hrun.
    + now apply Hno' in Hyes.
  - intros fuel self w Hnever.
    destruct (wait_for_motors_run fuel self w)
      as [(j & _ & _ & Hyes & _)|(_ & Hrun)].
    + now apply Hnever in Hyes.
    + now rewrite Hrun.
  - intros fuel self w w' H.
    destruct (wait_for_motors_run fuel self w)
      as [(j & _ & Hno & Hyes & Hrun)|(_ & Hrun)];
      rewrite Hrun in H; [|discriminate].
    injection H as <-. exists j. rewrite emitted_world.
    repeat split; try assumption.
    + rewrite Hyes. clear. induction (List.length (motor_names self));
        constructor; auto.
    + apply (f_equal (@List.length string)) in Hyes.
      rewrite repeat_length in Hyes. rewrite <- Hyes.
      clear. generalize (asked w + 2 * List.length (motors self) * j)%nat.
      induction (motors self) as [|m ms IH]; intros k; [reflexivity|].
      cbn [round_of List.length]. now rewrite <- IH.
    + cbn [app sleeps flat_map].
      change (flat_map _ ?l) with (sleeps l).
      rewrite !sleeps_app, sleeps_waiting_all, sleeps_polls. cbn.
      apply app_nil_r.
  - intros fuel self w j Hno Hyes Hj.
    destruct (wait_for_motors_run fuel self w)
      as [(j' & _ & _ & _ & Hrun)|(Hno' & _)].
    + now rewrite Hrun.
    + now apply Hno' in Hyes.
Qed.

Lemma waits_until_ready_witness :
  fst (Motor.wait_for_motor 1000 (Motor.mk "authentications.json"
                                    "curved_mirror") never_ready) = Ok None
  /\ fst (Motor.wait_for_motor 5 (Motor.mk "authentications.json"
                                    "curved_mirror") ready_after_four)
     = Ok (Some tt)
  /\ fst (wait_for_motors 1000 sample_coordinator never_ready) = Ok None.
Proof.
  split; [|split].
  - apply (proj1 waits_until_ready). intros k. discriminate.
  - apply (proj1 (proj2 (proj2 waits_until_ready)) 5%nat _ ready_after_four
             2%nat).
    + intros [|[|i]] Hi; [discriminate | discriminate | lia].
    + reflexivity.
    + lia.
  - apply (proj1 (proj2 (proj2 (proj2 waits_until_ready)))).
    intros k. cbn. discriminate.
Defined.

(** ** Signs through binary64 rounding *)

Lemma binary_round_aux_signed (s : bool) (m e : Z) (l : location) :
  signed s (binary_round_aux prec emax s m e l).
Proof.
  unfold binary_round_aux.
  destruct (shr_fexp prec emax m e l) as [mrs' e'].
  destruct (shr_fexp prec emax _ e' loc_Exact) as [mrs'' e''].
  destruct (shr_m mrs''); [reflexivity | | exact I].
  destruct (e'' <=? emax - prec); reflexivity.
Qed.

Lemma binary_round_signed (s : bool) (m : positive) (e : Z) :
  signed s (binary_round prec emax s m e).
Proof.
  unfold binary_round.
  destruct (shl_align m e _) as [mz ez]. apply binary_round_aux_signed.
Qed.

Lemma Z_to_float_signed (z : Z) : signed (z <? 0) (Z_to_float z).
Proof.
  unfold Z_to_float, binary_normalize.
  destruct z; [reflexivity | |]; apply binary_round_signed.
Qed.

Lemma fdiv_signed (bx by_ : bool) (x y : float64) :
  signed bx x -> signed by_ y -> signed (xorb bx by_) (fdiv x y).
Proof.
  unfold fdiv, SFdiv.
  destruct x as [sx|sx| |sx mx ex], y as [sy|sy| |sy my ey]; cbn [signed];
    intros; subst; auto.
  destruct (SFdiv_core_binary prec emax (Z.pos mx) ex (Z.pos my) ey)
    as [[mz ez] lz].
  apply binary_round_aux_signed.
Qed.

Lemma fmul_signed (bx by_ : bool) (x y : float64) :
  signed bx x -> signed by_ y -> signed (xorb bx by_) (fmul x y).
Proof.
  unfold fmul, SFmul.
  destruct x as [sx|sx| |sx mx ex], y as [sy|sy| |sy my ey]; cbn [signed];
    intros; subst; auto.
  apply binary_round_aux_signed.
Qed.

Lemma round_half_even_nonneg (m : positive) (e : Z) : 0 <= round_half_even m e.
Proof.
  unfold round_half_even.
  destruct (0 <=? e) eqn:E.
  - apply Z.leb_le in E. apply Z.mul_nonneg_nonneg; [lia|].
    apply Z.pow_nonneg. lia.
  - apply Z.leb_gt in E.
    assert (Hd : 0 < 2 ^ (- e)) by (apply Z.pow_pos_nonneg; lia).
    assert (Hq : 0 <= Z.pos m / 2 ^ (- e)) by (apply Z.div_pos; lia).
    destruct (2 * (Z.pos m mod 2 ^ (- e)) ?= 2 ^ (- e)); try lia.
    destruct (Z.even _); lia.
Qed.

Lemma py_round_signed (b : bool) (f : float64) (z : Z) :
  signed b f -> py_round (PFloat f) = Ok z ->
  if b then z <= 0 else 0 <= z.
Proof.
  destruct f as [s|s| |s m e]; cbn [signed py_round]; intros Hs H;
    try discriminate.
  - injection H as <-. destruct b; lia.
  - injection H as <-. subst s.
    pose proof (round_half_even_nonneg m e).
    destruct b; cbn [cond_Zopp]; lia.
Qed.

(** ** The step formulas *)

Lemma steps_formula_float (fa : float64) :
  steps_formula (PFloat fa)
  = py_round (PFloat (fmul (Z_to_float 20000)
                        (fdiv fa (Z_div_float 1 20)))).
Proof. reflexivity. Qed.

Lemma steps_formula_int (k : Z) :
  steps_formula (PInt k)
  = if is_infinity (Z_to_float k) then Raise OverflowError
    else steps_formula (PFloat (Z_to_float k)).
Proof.
  unfold steps_formula, pitch_default, lit, py_truediv, as_float.
  destruct (is_infinity (Z_to_float k)); reflexivity.
Qed.

Lemma steps_formula_float_sign (fa : float64) (b : bool) (z : Z) :
  signed b fa -> steps_formula (PFloat fa) = Ok z ->
  if b then z <= 0 else 0 <= z.
Proof.
  intros Hs H. rewrite steps_formula_float in H.
  eapply py_round_signed; [|exact H].
  replace b with (xorb false (xorb b false)) by now destruct b.
  apply fmul_signed; [reflexivity|].
  apply fdiv_signed; [assumption | reflexivity].
Qed.

Lemma steps_formula_zero (s : bool) : steps_formula (PFloat (S754_zero s)) = Ok 0.
Proof. destruct s; reflexivity. Qed.

(** The step count has the sign of the distance it is computed from, or is
    zero. *)
Lemma steps_formula_sign (a : pynum) (z : Z) :
  steps_formula a = Ok z ->
  exists sg, py_sgn a = Some sg /\ (0 <= sg -> 0 <= z) /\ (sg <= 0 -> z <= 0).
Proof.
  destruct a as [k|fa]; intros H.
  - rewrite steps_formula_int in H.
    destruct (is_infinity (Z_to_float k)); [discriminate|].
    exists (Z.sgn k). split; [reflexivity|].
    pose proof (steps_formula_float_sign _ _ _ (Z_to_float_signed k) H) as Hz.
    destruct (Z.ltb_spec k 0) as [Hk|Hk].
    + split; lia.
    + destruct (Z.eq_dec k 0) as [->|Hk0].
      * change (Z_to_float 0) with (S754_zero false) in H.
        rewrite steps_formula_zero in H. injection H as <-. split; lia.
      * split; lia.
  - destruct fa as [s|s| |s m e].
    + rewrite steps_formula_zero in H. injection H as <-.
      exists 0. repeat split; lia.
    + discriminate H.
    + discriminate H.
    + exists (if s then -1 else 1). split; [reflexivity|].
      pose proof (steps_formula_float_sign (S754_finite s m e) s z eq_refl H).
      destruct s; split; lia.
Qed.

Lemma plates_steps_gap (d th : pynum) :
  plates_steps d th
  = do g <- gap th; do a <- py_add d g; steps_formula a.
Proof.
  unfold plates_steps, plates_distance_to_steps, gap, steps_formula.
  destruct (py_truediv holder_thickness_default (PInt 2)) as [hc|];
    cbn [rbind]; [|reflexivity].
  destruct (py_truediv th (PInt 2)) as [half|]; cbn [rbind]; [|reflexivity].
  destruct (py_add lip_thickness_default half) as [pc|]; cbn [rbind];
    [|reflexivity].
  destruct (py_sub pc hc) as [g|]; cbn [rbind]; [|reflexivity].
  destruct (py_add d g) as [a|]; cbn [rbind]; [|reflexivity].
  destruct (py_truediv a pitch_default) as [turns|]; cbn [rbind];
    [|reflexivity].
  destruct (py_mul steps_per_rotation_default turns) as [steps|]; cbn [rbind];
    [|reflexivity].
  now destruct (py_round steps).
Qed.

Lemma gap_float (th g : pynum) : gap th = Ok g -> exists f, g = PFloat f.
Proof.
  unfold gap.
  change (py_truediv holder_thickness_default (PInt 2))
    with (Ok (PFloat (S754_finite false 4503599627370496 (-55)))).
  cbn [rbind].
  destruct (py_truediv th (PInt 2)) as [half|]; cbn [rbind]; [|discriminate].
  destruct (py_add lip_thickness_default half) as [pc|]; cbn [rbind];
    [|discriminate].
  unfold py_sub. destruct pc as [z|f]; unfold float_binop, as_float;
    cbn [rbind].
  - destruct (is_infinity (Z_to_float z)); cbn [rbind]; [discriminate|].
    intros [= <-]. eauto.
  - intros [= <-]. eauto.
Qed.

(** Adding a zero distance to the gap leaves the step count unchanged. *)
Lemma steps_formula_add_zero (zero : pynum) (f : float64) :
  zero = PInt 0 \/ (exists s, zero = PFloat (S754_zero s)) ->
  (do a <- py_add zero (PFloat f); steps_formula a) = steps_formula (PFloat f).
Proof.
  intros [->|[s ->]].
  - change (py_add (PInt 0) (PFloat f))
      with (Ok (PFloat (fadd (S754_zero false) f))).
    cbn [rbind]. destruct f as [[|]|[|]| |s m e]; reflexivity.
  - change (py_add (PFloat (S754_zero s)) (PFloat f))
      with (Ok (PFloat (fadd (S754_zero s) f))).
    cbn [rbind]. destruct s, f as [[|]|[|]| |s' m e]; reflexivity.
Qed.

(** On binary64 the order of the product and the quotient shows in the
    result: at [3.375e-05] inches, half a step from fourteen steps, the
    code's order gives thirteen steps and the other order fourteen. *)
Remark steps_formula_order_shows :
  steps_formula (lit 3375 100000000) = Ok 13
  /\ steps_formula_product_first (lit 3375 100000000) = Ok 14.
Proof. split; reflexivity. Qed.

(** C4, as stated, fails: [round(steps_per_rotation * distance / pitch)],
    as the expression is written, forms the product first, and the code
    forms the quotient by the pitch first.  At [5.375e-05] inches the code
    gives 22 steps; the expression as written gives 21, on binary64 and in
    exact arithmetic, with the pitch [1/20] and with the float of
    [(1/20)]. *)
Lemma curved_mirror_formula_counterexample :
  curved_mirror_steps (lit 5375 100000000) = Ok 22
  /\ steps_formula_product_first (lit 5375 100000000) = Ok 21
  /\ steps_formula_exact (1, 20) (lit 5375 100000000) = Some 21
  /\ fraction pitch_default = Some (7205759403792794, 2 ^ 57)
  /\ steps_formula_exact (7205759403792794, 2 ^ 57) (lit 5375 100000000)
     = Some 21.
Proof. repeat split. Qed.

(** C4, amended.  [curved_mirror_distance_to_steps(distance)] at the
    default pitch and steps per rotation is [round(steps_per_rotation *
    (distance / pitch))] on binary64: the distance, converted to a [float]
    if it is an [int], is divided by the float of [(1/20)], the quotient is
    multiplied by [20000.0], each result rounded to the nearest float, and
    the product is rounded to the nearest integer.  There is no offset: a
    zero distance gives zero steps, and the count has the sign of the
    distance or is zero.  In a call of [move_by_increment] whose pair and
    step counts are defined, an active curved mirror motor is commanded
    exactly [curved_mirror_distance_to_steps(increment_distance)] steps,
    once. *)
Theorem curved_mirror_commanded
  (self : OrpheusMotors.t) (d th t n init : pynum) (w : World)
  (new_length sep : pynum) :
  built self ->
  returned_pair d t n = Ok (new_length, sep) ->
  defined (moves self d th sep init) ->
  let call := move_by_increment self d th t n init w in
  (forall distance, curved_mirror_steps distance = steps_formula distance)
  /\ (forall f,
        curved_mirror_steps (PFloat f)
        = py_round (PFloat (fmul (Z_to_float 20000)
                              (fdiv f (Z_div_float 1 20)))))
  /\ (forall k,
        curved_mirror_steps (PInt k)
        = if is_infinity (Z_to_float k) then Raise OverflowError
          else curved_mirror_steps (PFloat (Z_to_float k)))
  /\ curved_mirror_steps (PInt 0) = Ok 0
  /\ (forall s, curved_mirror_steps (PFloat (S754_zero s)) = Ok 0)
  /\ (forall distance z,
        curved_mirror_steps distance = Ok z ->
        exists sg,
          py_sgn distance = Some sg
          /\ (0 <= sg -> 0 <= z) /\ (sg <= 0 -> z <= 0))
  /\ fst call = Ok (new_length, sep)
  /\ (In "curved_mirror" (motor_names self) ->
      exists steps,
        curved_mirror_steps d = Ok steps
        /\ commanded "curved_mirror" (emitted w (snd call)) = [steps]).
Proof.
  intros Hb Hp Hdef call. subst call.
  destruct (built_consistent _ Hb) as [Hc _].
  pose proof (move_by_increment_emitted self d th t n init w _ Hc Hp Hdef)
    as Hev.
  cbn [snd] in Hev. rewrite Hev.
  destruct (commanded_when_defined self d th sep init Hdef) as (Hmirror & _).
  assert (Hf : forall distance,
             curved_mirror_steps distance = steps_formula distance).
  { intros distance.
    unfold curved_mirror_steps, curved_mirror_distance_to_steps, steps_formula.
    destruct (py_truediv distance pitch_default) as [turns|]; cbn [rbind];
      [|reflexivity].
    destruct (py_mul steps_per_rotation_default turns) as [steps|]; cbn [rbind];
      [|reflexivity].
    now destruct (py_round steps). }
  split; [exact Hf|]. split; [|split; [|split; [|split; [|split; [|split]]]]].
  - intros f. rewrite Hf. apply steps_formula_float.
  - intros k. rewrite !Hf. apply steps_formula_int.
  - reflexivity.
  - intros []; reflexivity.
  - intros distance z Hz. rewrite Hf in Hz. now apply steps_formula_sign.
  - now rewrite (move_by_increment_completes _ _ _ _ _ _ w _ Hc Hp Hdef).
  - exact Hmirror.
Qed.

Lemma curved_mirror_commanded_witness :
  commanded "curved_mirror"
    (emitted idle
       (snd (move_by_increment sample_coordinator (lit 1 1) (lit 1 10)
               (lit 10 1) (PInt 2) (lit 7 2) idle))) = [400000].
Proof.
  destruct (curved_mirror_commanded sample_coordinator (lit 1 1) (lit 1 10)
              (lit 10 1) (PInt 2) (lit 7 2) idle (fst sample_pair)
              (snd sample_pair) sample_built sample_pair_returned
              (sample_defined _))
    as (_ & _ & _ & _ & _ & _ & _ & Hmirror).
  destruct (Hmirror ltac:(simpl; tauto)) as (steps & Hs & Hcm).
  rewrite Hcm. f_equal.
  vm_compute in Hs. injection Hs as <-. reflexivity.
Defined.

(** C3, as stated, fails: the sign of the input distance is not preserved.
    With the default thicknesses and a plate [0.1] thick the gap is
    [-0.025]; a distance of [0.01], positive, gives [-6000] steps. *)
Lemma plates_steps_sign_counterexample :
  plates_steps (lit 1 100) (lit 1 10) = Ok (-6000)
  /\ py_sgn (lit 1 100) = Some 1
  /\ Z.sgn (-6000) = -1.
Proof. repeat split. Qed.

(** C3, amended.  [plates_distance_to_steps(distance, plate_thickness)] at
    the default parameters is [round(steps_per_rotation * (distance + gap)
    / pitch)] with [gap = (lip_thickness + plate_thickness/2) -
    holder_thickness/2], the quotient by the pitch being formed first; the
    result has the sign of [distance + gap], or is zero, whatever the sign
    of [distance]; and at zero distance it is [round(steps_per_rotation *
    gap / pitch)]. *)
Theorem plates_steps_formula (d th : pynum) :
  plates_steps d th
  = (do g <- gap th; do a <- py_add d g; steps_formula a)
  /\ (forall g a z,
        gap th = Ok g -> py_add d g = Ok a -> plates_steps d th = Ok z ->
        exists sg,
          py_sgn a = Some sg /\ (0 <= sg -> 0 <= z) /\ (sg <= 0 -> z <= 0))
  /\ plates_steps (PInt 0) th = (do g <- gap th; steps_formula g)
  /\ (forall s,
        plates_steps (PFloat (S754_zero s)) th
        = (do g <- gap th; steps_formula g)).
Proof.
  split; [apply plates_steps_gap|]. split; [|split].
  - intros g a z Hg Ha Hz.
    rewrite plates_steps_gap, Hg in Hz. cbn [rbind] in Hz.
    rewrite Ha in Hz. cbn [rbind] in Hz.
    now apply steps_formula_sign.
  - rewrite plates_steps_gap.
    destruct (gap th) as [g|] eqn:Hg; cbn [rbind]; [|reflexivity].
    destruct (gap_float _ _ Hg) as [f ->].
    apply steps_formula_add_zero. now left.
  - intros s. rewrite plates_steps_gap.
    destruct (gap th) as [g|] eqn:Hg; cbn [rbind]; [|reflexivity].
    destruct (gap_float _ _ Hg) as [f ->].
    apply steps_formula_add_zero. right. now exists s.
Qed.

Lemma plates_steps_formula_witness :
  exists sg,
    py_sgn (PFloat (S754_finite true 8646911284551349 (-59))) = Some sg
    /\ (0 <= sg -> 0 <= -6000)
    /\ (sg <= 0 -> -6000 <= 0).
Proof.
  apply (proj1 (proj2 (plates_steps_formula (lit 1 100) (lit 1 10)))
           (PFloat (S754_finite true 7205759403792792 (-58)))
           (PFloat (S754_finite true 8646911284551349 (-59)))
           (-6000)); reflexivity.
Defined.

(** ** flmn *)

(** *** What the operations raise and return *)

Lemma py_truediv_float (x y r : pynum) :
  py_truediv x y = Ok r -> exists f, r = PFloat f.
Proof.
  destruct x as [a|fa], y as [b|fb]; unfold py_truediv, as_float;
    cbn [rbind].
  - destruct (b =? 0); [discriminate|].
    destruct (is_infinity _); [discriminate|]. intros [= <-]. eauto.
  - destruct (is_infinity _); cbn [rbind]; [discriminate|].
    destruct (is_zero fb); [discriminate|]. intros [= <-]. eauto.
  - destruct (is_infinity _); cbn [rbind]; [discriminate|].
    destruct (is_zero _); [discriminate|]. intros [= <-]. eauto.
  - destruct (is_zero fb); [discriminate|]. intros [= <-]. eauto.
Qed.





(** One step of a computation: the first call that is not yet known to
    return or to raise is taken apart. *)
Ltac step_rbind :=
  cbn [rbind];
  match goal with
  | |- context [rbind ?e _] =>
      lazymatch e with
      | rbind _ _ => fail
      | _ => destruct e eqn:?
      end
  end.


(** *** The exponent of a rounded value *)

Lemma shr_fexp_exponent (m e : Z) (l : location) :
  emin prec emax <= snd (shr_fexp prec emax m e l).
Proof.
  unfold shr_fexp, shr, SpecFloat.fexp.
  destruct (Z.max (Zdigits2 m + e - prec) (emin prec emax) - e) eqn:E;
    cbn [snd]; lia.
Qed.

Lemma binary_round_aux_above (s : bool) (m e : Z) (l : location) :
  above_emin (binary_round_aux prec emax s m e l).
Proof.
  unfold binary_round_aux.
  destruct (shr_fexp prec emax m e l) as [mrs' e'].
  pose proof (shr_fexp_exponent
                (round_nearest_even (shr_m mrs') (loc_of_shr_record mrs'))
                e' loc_Exact) as H.
  destruct (shr_fexp prec emax _ e' loc_Exact) as [mrs'' e''].
  cbn [snd] in H.
  destruct (shr_m mrs''); cbn [above_emin]; auto.
  destruct (e'' <=? emax - prec); cbn [above_emin]; auto.
Qed.

Lemma binary_normalize_above (m e : Z) :
  above_emin (binary_normalize prec emax m e false).
Proof.
  unfold binary_normalize, binary_round.
  destruct m as [|p|p]; cbn [above_emin]; auto;
    destruct (shl_align _ _ _); apply binary_round_aux_above.
Qed.

Lemma Z_div_float_above (a b : Z) : above_emin (Z_div_float a b).
Proof.
  unfold Z_div_float. destruct (Z.abs a =? 0); [exact I|].
  apply binary_normalize_above.
Qed.

Lemma fdiv_above (x y : float64) : above_emin (fdiv x y).
Proof.
  unfold fdiv, SFdiv.
  destruct x as [sx|sx| |sx mx ex], y as [sy|sy| |sy my ey];
    try exact I.
  destruct (SFdiv_core_binary _ _ _ _ _ _) as [[mz ez] lz].
  apply binary_round_aux_above.
Qed.

Lemma fmul_above (x y : float64) : above_emin (fmul x y).
Proof.
  unfold fmul, SFmul.
  destruct x as [sx|sx| |sx mx ex], y as [sy|sy| |sy my ey];
    try exact I.
  apply binary_round_aux_above.
Qed.

Lemma py_truediv_above (x y : pynum) (f : float64) :
  py_truediv x y = Ok (PFloat f) -> above_emin f.
Proof.
  destruct x as [a|fa], y as [b|fb]; unfold py_truediv, as_float;
    cbn [rbind];
    repeat match goal with
           | |- context [if ?c then _ else _] => destruct c; cbn [rbind]
           end; try discriminate; intros [= <-];
    auto using Z_div_float_above, fdiv_above.
Qed.

(** *** Products that are not zero *)

Lemma shr_fexp_positive_digits (m e : Z) (l : location) :
  0 < m -> emin prec emax < Zdigits2 m + e ->
  0 < shr_m (fst (shr_fexp prec emax m e l)).
Proof.
  intros Hm He. unfold shr_fexp, shr.
  destruct m as [|m|m]; try lia. cbn [Zdigits2] in *.
  pose proof (digits2_bounds m) as [Hlo _].
  unfold SpecFloat.fexp.
  destruct (Z.max (Z.pos (digits2_pos m) + e - prec) (emin prec emax) - e)
    as [|p|p] eqn:En; cbn [fst]; rewrite ?shr_record_of_loc_m; try lia.
  rewrite shr_iter_m by (rewrite shr_record_of_loc_m; lia).
  rewrite shr_record_of_loc_m.
  assert (Hp : Z.pos p <= Z.pos (digits2_pos m) - 1) by (unfold prec in *; lia).
  apply Z.div_str_pos. split; [apply Z.pow_pos_nonneg; lia|].
  eapply Z.le_trans; [|exact Hlo]. apply Z.pow_le_mono_r; lia.
Qed.

Lemma binary_round_aux_not_zero_digits (s : bool) (m e : Z) (l : location) :
  0 < m -> emin prec emax < Zdigits2 m + e ->
  is_zero (binary_round_aux prec emax s m e l) = false.
Proof.
  intros Hm He. unfold binary_round_aux.
  pose proof (shr_fexp_positive_digits m e l Hm He) as H1.
  pose proof (shr_fexp_exponent m e l) as H1e.
  destruct (shr_fexp prec emax m e l) as [mrs' e']. cbn [fst snd] in *.
  pose proof (round_nearest_even_positive (shr_m mrs') (loc_of_shr_record mrs') H1) as H2.
  destruct (shr_fexp_positive _ e' loc_Exact H2 H1e) as [H3 _].
  destruct (shr_fexp prec emax _ e' loc_Exact) as [mrs'' e''].
  cbn [fst] in H3.
  destruct (shr_m mrs''); try lia.
  now destruct (e'' <=? emax - prec).
Qed.

Lemma digits2_mul (a b : positive) :
  Z.pos (digits2_pos a) + Z.pos (digits2_pos b) - 1
  <= Z.pos (digits2_pos (a * b)).
Proof.
  pose proof (digits2_bounds a) as [Ha _].
  pose proof (digits2_bounds b) as [Hb _].
  pose proof (digits2_bounds (a * b)) as [_ Hab].
  rewrite Pos2Z.inj_mul in Hab.
  set (da := Z.pos (digits2_pos a)) in *.
  set (db := Z.pos (digits2_pos b)) in *.
  set (d := Z.pos (digits2_pos (a * b))) in *.
  assert (H : 2 ^ (da - 1 + (db - 1)) < 2 ^ d).
  { rewrite Z.pow_add_r by lia.
    eapply Z.le_lt_trans; [|exact Hab].
    apply Z.mul_le_mono_nonneg; try assumption; apply Z.pow_nonneg; lia. }
  apply Z.pow_lt_mono_r_iff in H; lia.
Qed.

(** A product is not zero when neither factor is and the second is one at
    least in magnitude. *)
Lemma fmul_not_zero (x y : float64) :
  above_emin x -> is_zero x = false ->
  match y with
  | S754_finite _ my ey => 0 < Z.pos (digits2_pos my) + ey
  | S754_infinity _ | S754_nan => True
  | S754_zero _ => False
  end ->
  is_zero (fmul x y) = false.
Proof.
  unfold fmul, SFmul.
  destruct x as [sx|sx| |sx mx ex], y as [sy|sy| |sy my ey];
    cbn [above_emin is_zero]; try discriminate; try tauto; try reflexivity.
  intros Hx _ Hy.
  apply binary_round_aux_not_zero_digits; [lia|].
  cbn [Zdigits2]. pose proof (digits2_mul mx my).
  pose proof (digits2_bounds mx) as _.
  assert (1 <= Z.pos (digits2_pos mx)) by lia. lia.
Qed.

Lemma fmul_comm (x y : float64) : fmul x y = fmul y x.
Proof.
  unfold fmul, SFmul.
  destruct x as [sx|sx| |sx mx ex], y as [sy|sy| |sy my ey];
    try reflexivity; rewrite ?(xorb_comm sx sy); try reflexivity.
  now rewrite Pos.mul_comm, Z.add_comm.
Qed.

Lemma denominator_not_zero (f : float64) :
  above_emin f -> is_zero f = false ->
  is_zero (fmul (fmul (Z_to_float 4) f)
             (S754_finite false 7074237752028440 (-51))) = false.
Proof.
  intros Ha Hz. apply fmul_not_zero.
  - apply fmul_above.
  - rewrite fmul_comm. apply fmul_not_zero; [assumption | assumption |].
    vm_compute. reflexivity.
  - vm_compute. reflexivity.
Qed.

(** *** The steps of [flmn] *)

Lemma py_mul_float_r (x : pynum) (f : float64) :
  py_mul x (PFloat f) = do a <- as_float x; Ok (PFloat (fmul a f)).
Proof. destruct x; reflexivity. Qed.

Lemma tail_run (n sum : pynum) (v l_in_m arccos_term : float64) :
  above_emin l_in_m ->
  tail n (PFloat v) (PFloat l_in_m) sum (PFloat arccos_term)
  = do n_1 <- py_add n (PInt 1);
    do n_f <- as_float n_1;
    if is_zero l_in_m then Raise ZeroDivisionError
    else
      do sum_f <- as_float sum;
      Ok (PFloat (frequency v l_in_m arccos_term n_f sum_f)).
Proof.
  intros Ha. unfold tail.
  destruct (py_add n (PInt 1)) as [n_1|]; cbn [rbind]; [|reflexivity].
  rewrite py_mul_float_r.
  destruct (as_float n_1) as [n_f|]; cbn [rbind]; [|reflexivity].
  change (py_truediv (PFloat (fmul n_f v)) (PInt 2))
    with (Ok (PFloat (fdiv (fmul n_f v) (Z_to_float 2)))).
  cbn [rbind]. unfold py_truediv at 1. cbn [as_float rbind].
  destruct (is_zero l_in_m) eqn:Hz; [reflexivity|]. cbn [rbind].
  rewrite py_mul_float_r.
  destruct (as_float sum) as [sum_f|]; cbn [rbind]; [|reflexivity].
  change (py_mul (PInt 4) (PFloat l_in_m))
    with (Ok (PFloat (fmul (Z_to_float 4) l_in_m))).
  cbn [rbind]. unfold math_pi. cbn [py_mul float_binop as_float rbind].
  unfold py_truediv. cbn [as_float rbind].
  rewrite (denominator_not_zero l_in_m Ha Hz). reflexivity.
Qed.

Lemma math_acos_float (acos : float64 -> float64) (x : float64) :
  c_library acos ->
  math_acos acos (PFloat x)
  = if is_nan x then Ok (PFloat S754_nan)
    else if between (-1) 1 (PFloat x) then Ok (PFloat (acos x))
    else Raise ValueError.
Proof.
  intros Hc. unfold math_acos, math_1, c_acos. cbn [as_float rbind between].
  destruct (is_nan x) eqn:Hn; [now destruct x|].
  destruct (SFleb (Z_to_float (-1)) x) eqn:H1; cbn [andb is_nan negb];
    [|reflexivity].
  destruct (SFleb x (Z_to_float 1)) eqn:H2; cbn [andb is_nan negb];
    [|reflexivity].
  pose proof (Hc _ H1 H2) as Hf.
  destruct (acos x); try discriminate; cbn [is_nan is_infinity andb]; try reflexivity.
Qed.

Lemma py_sub_one_float (ratio : float64) :
  py_sub (PInt 1) (PFloat ratio) = Ok (PFloat (fsub (Z_to_float 1) ratio)).
Proof. reflexivity. Qed.

Lemma flmn_tail (acos : float64 -> float64) (l m n length eps_r r0 : pynum) :
  flmn acos l m n length eps_r r0
  = do v <- speed eps_r;
    do sum <- mode_sum l m;
    do l_in_m <- py_truediv length (PInt 100);
    do r0_m <- py_truediv r0 (PInt 100);
    do twice <- py_mul (PInt 2) l_in_m;
    do ratio <- py_truediv twice r0_m;
    do argument <- py_sub (PInt 1) ratio;
    do arccos_term <- math_acos acos argument;
    tail n v l_in_m sum arccos_term.
Proof.
  unfold flmn, speed, mode_sum, tail.
  repeat step_rbind; cbn [rbind]; reflexivity.
Qed.


Lemma speed_float (eps_r v : pynum) :
  speed eps_r = Ok v -> exists f, v = PFloat f.
Proof.
  unfold speed. destruct (math_sqrt eps_r); cbn [rbind]; [|discriminate].
  apply py_truediv_float.
Qed.


Lemma py_mul_two (x r : pynum) :
  py_truediv x (PInt 100) = Ok r -> is_ok (py_mul (PInt 2) r) = true.
Proof.
  intros H. destruct (py_truediv_float _ _ _ H) as [f ->]. reflexivity.
Qed.


Lemma acos_argument_float (length r0 x : pynum) :
  acos_argument length r0 = Ok x ->
  exists f l_in_m,
    x = PFloat f
    /\ py_truediv length (PInt 100) = Ok (PFloat l_in_m)
    /\ above_emin l_in_m.
Proof.
  unfold acos_argument.
  destruct (py_truediv length (PInt 100)) as [l_in_m|] eqn:Hl; cbn [rbind];
    [|discriminate].
  destruct (py_truediv_float _ _ _ Hl) as [lf ->].
  pose proof (py_truediv_above _ _ _ Hl) as Ha.
  destruct (py_mul (PInt 2) (PFloat lf)) as [twice|]; cbn [rbind];
    [|discriminate].
  destruct (py_truediv r0 (PInt 100)) as [r0_m|]; cbn [rbind]; [|discriminate].
  destruct (py_truediv twice r0_m) as [ratio|] eqn:Hr; cbn [rbind];
    [|discriminate].
  destruct (py_truediv_float _ _ _ Hr) as [rf ->].
  rewrite py_sub_one_float. intros [= <-]. eauto.
Qed.

(** [flmn], step by step. *)
Lemma flmn_flow (acos : float64 -> float64) (l m n length eps_r r0 : pynum) :
  flmn acos l m n length eps_r r0
  = do v <- speed eps_r;
    do sum <- mode_sum l m;
    do argument <- acos_argument length r0;
    do arccos_term <- math_acos acos argument;
    do l_in_m <- py_truediv length (PInt 100);
    tail n v l_in_m sum arccos_term.
Proof.
  rewrite flmn_tail. unfold acos_argument.
  destruct (speed eps_r) as [v|]; cbn [rbind]; [|reflexivity].
  destruct (mode_sum l m) as [sum|]; cbn [rbind]; [|reflexivity].
  destruct (py_truediv length (PInt 100)) as [l_in_m|] eqn:Hl; cbn [rbind];
    [|reflexivity].
  pose proof (py_mul_two _ _ Hl) as H2.
  destruct (py_mul (PInt 2) l_in_m) as [twice|]; [|discriminate].
  cbn [rbind].
  destruct (py_truediv r0 (PInt 100)) as [r0_m|]; cbn [rbind]; [|reflexivity].
  destruct (py_truediv twice r0_m) as [ratio|]; cbn [rbind]; [|reflexivity].
  destruct (py_sub (PInt 1) ratio) as [argument|]; cbn [rbind]; [|reflexivity].
  destruct (math_acos acos argument); reflexivity.
Qed.


(** *** Square roots *)

Lemma valid_in_range (f : float64) :
  valid_binary prec emax f = true -> in_range f.
Proof.
  destruct f as [s|s| |s m e]; cbn [in_range]; auto. intros Hv.
  destruct (valid_finite_bounds _ _ _ Hv) as [Hm He].
  unfold valid_binary, bounded in Hv.
  apply andb_prop in Hv. destruct Hv as [_ Hb]. apply Z.leb_le in Hb.
  repeat split; assumption.
Qed.

Lemma binary_round_aux_in_range (s : bool) (m e : Z) (l : location) :
  0 < m -> emin prec emax <= e ->
  in_range (binary_round_aux prec emax s m e l)
  /\ is_nan (binary_round_aux prec emax s m e l) = false
  /\ signed s (binary_round_aux prec emax s m e l).
Proof.
  intros Hm He. unfold binary_round_aux.
  destruct (shr_fexp_bounds m e l Hm He) as (H1 & H1e & _).
  destruct (shr_fexp prec emax m e l) as [mrs' e']. cbn [fst snd] in *.
  set (m2 := round_nearest_even (shr_m mrs') (loc_of_shr_record mrs')).
  assert (Hm2 : 0 < m2) by now apply round_nearest_even_positive.
  assert (He' : emin prec emax <= e') by lia.
  destruct (shr_fexp_bounds m2 e' loc_Exact Hm2 He') as (H3 & H3e & H3b).
  destruct (shr_fexp prec emax m2 e' loc_Exact) as [mrs'' e''].
  cbn [fst snd] in *.
  destruct (shr_m mrs'') as [|m3|m3]; try lia.
  destruct (Z.leb_spec e'' (emax - prec)); cbn [in_range is_nan signed];
    [|auto].
  split; [|auto]. split; [|lia].
  eapply Z.lt_le_trans; [exact H3b|].
  apply Z.pow_le_mono_r; lia.
Qed.

Lemma binary_round_in_range (s : bool) (m : positive) (e : Z) :
  emin prec emax <= e ->
  in_range (binary_round prec emax s m e)
  /\ is_nan (binary_round prec emax s m e) = false
  /\ signed s (binary_round prec emax s m e).
Proof.
  intros He. unfold binary_round, shl_align.
  destruct (SpecFloat.fexp prec emax (Z.pos (digits2_pos m) + e) - e) eqn:Ed;
    try (apply binary_round_aux_in_range; lia).
  apply binary_round_aux_in_range; [lia|]. unfold SpecFloat.fexp. lia.
Qed.

Lemma Z_to_float_in_range (z : Z) :
  in_range (Z_to_float z) /\ is_nan (Z_to_float z) = false.
Proof.
  assert (He : emin prec emax <= 0) by (unfold emin, emax, prec; lia).
  unfold Z_to_float, binary_normalize.
  destruct z as [|p|p]; [cbn; auto | |].
  - destruct (binary_round_in_range false p 0 He) as (H1 & H2 & _). auto.
  - destruct (binary_round_in_range true p 0 He) as (H1 & H2 & _). auto.
Qed.

Lemma sqrt_digits (q n k : Z) :
  0 <= k -> 0 < q -> q * q <= n -> n < 2 ^ (2 * k) -> Zdigits2 q <= k.
Proof.
  intros Hk Hq Hle Hlt.
  destruct q as [|p|p]; try lia. cbn [Zdigits2].
  apply digits2_le.
  apply Z.square_lt_simpl_nonneg; [apply Z.pow_nonneg; lia|].
  replace (2 ^ k * 2 ^ k) with (2 ^ (2 * k))
    by (replace (2 * k) with (k + k) by lia; apply Z.pow_add_r; lia).
  lia.
Qed.

Lemma fsqrt_positive (m : positive) (e : Z) :
  in_range (S754_finite false m e) ->
  let r := SFsqrt prec emax (S754_finite false m e) in
  is_zero r = false /\ is_infinity r = false /\ is_nan r = false.
Proof.
  cbn [in_range SFsqrt]. intros (Hm & Hlo & Hhi).
  unfold SFsqrt_core_binary.
  set (d := Zdigits2 (Z.pos m)).
  set (e' := Z.min (SpecFloat.fexp prec emax (Z.div2 (d + e + 1))) (Z.div2 e)).
  set (s := e - 2 * e').
  assert (Hdiv : 2 * Z.div2 e <= e <= 2 * Z.div2 e + 1).
  { rewrite Z.div2_div. pose proof (Z.div_mod e 2 ltac:(lia)).
    pose proof (Z.mod_pos_bound e 2 ltac:(lia)). lia. }
  assert (He' : emin prec emax <= e' <= emax - prec).
  { subst e'. unfold SpecFloat.fexp, emin, emax, prec in *. lia. }
  assert (Hs : 0 <= s) by (subst s e'; lia).
  set (m' := match s with
             | 0 => Z.pos m
             | Z.pos _ => Z.shiftl (Z.pos m) s
             | Z.neg _ => 0
             end).
  assert (Em' : m' = Z.pos m * 2 ^ s).
  { subst m'. destruct s as [|p|p] eqn:Es; try lia.
    now rewrite Z.shiftl_mul_pow2 by lia. }
  assert (Hm' : 0 < m').
  { rewrite Em'. apply Z.mul_pos_pos; [lia|]. apply Z.pow_pos_nonneg; lia. }
  pose proof (Z.sqrtrem_spec m' ltac:(lia)) as Hspec.
  destruct (Z.sqrtrem m') as [q r]. destruct Hspec as [Hq Hr].
  assert (Hq0 : 0 < q) by nia.
  set (l := if r =? 0 then loc_Exact
            else loc_Inexact (if r <=? q then Lt else Gt)).
  assert (Hdq : Zdigits2 q + e' < emax).
  { assert (Hk : Zdigits2 q <= (54 + s) / 2).
    { apply (sqrt_digits q m'); [apply Z.div_pos; lia | assumption | nia |].
      rewrite Em'.
      apply Z.lt_le_trans with (2 ^ prec * 2 ^ s).
      - apply Z.mul_lt_mono_pos_r; [apply Z.pow_pos_nonneg; lia | assumption].
      - rewrite <- Z.pow_add_r by (unfold prec; lia).
        apply Z.pow_le_mono_r; [lia|].
        pose proof (Z.div_mod (54 + s) 2 ltac:(lia)).
        pose proof (Z.mod_pos_bound (54 + s) 2 ltac:(lia)).
        unfold prec. lia. }
    pose proof (Z.div_mod (54 + s) 2 ltac:(lia)).
    pose proof (Z.mod_pos_bound (54 + s) 2 ltac:(lia)).
    subst s. unfold emax, prec in *. lia. }
  destruct He' as [He1 He2].
  split; [|split].
  - now apply binary_round_aux_not_zero.
  - now apply binary_round_aux_finite.
  - now apply binary_round_aux_in_range.
Qed.

(** *** The speed *)

Lemma speed_of_float (f : float64) :
  in_range f ->
  (speed (PFloat f) = Raise ValueError <-> py_sgn (PFloat f) = Some (-1))
  /\ (speed (PFloat f) = Raise ZeroDivisionError <-> py_sgn (PFloat f) = Some 0)
  /\ (is_ok (speed (PFloat f)) = true
      <-> py_sgn (PFloat f) = Some 1 \/ py_sgn (PFloat f) = None).
Proof.
  intros Hr. unfold speed, math_sqrt, math_1. cbn [as_float rbind].
  destruct f as [s|[|]| |[|] m e]; cbn [SFsqrt is_nan is_infinity is_finite
                                         andb negb rbind py_sgn].
  - (* zero *)
    unfold py_truediv. cbn [as_float rbind is_zero is_ok].
    repeat split; intros; try discriminate; try reflexivity.
    destruct H; discriminate.
  - (* -inf *)
    cbn [is_ok]. repeat split; intros; try discriminate; try reflexivity.
    destruct H; discriminate.
  - (* +inf *)
    unfold py_truediv. cbn [as_float rbind is_zero is_ok].
    repeat split; intros; try discriminate; auto.
  - (* nan *)
    unfold py_truediv. cbn [as_float rbind is_zero is_ok].
    repeat split; intros; try discriminate; auto.
  - (* negative *)
    cbn [is_ok]. repeat split; intros; try discriminate; try reflexivity.
    destruct H; discriminate.
  - (* positive *)
    destruct (fsqrt_positive m e Hr) as (Hz & Hi & Hn).
    cbn [SFsqrt] in Hz, Hi, Hn.
    destruct (let '(mz, ez, lz) := SFsqrt_core_binary prec emax (Z.pos m) e in
              binary_round_aux prec emax false mz ez lz) as [s'|s'| |s' m' e'];
      try discriminate.
    cbn [is_nan is_infinity andb rbind]. unfold py_truediv.
    cbn [as_float rbind is_zero is_ok].
    repeat split; intros; try discriminate; auto.
Qed.

Lemma py_sgn_Z_to_float (z : Z) :
  is_infinity (Z_to_float z) = false ->
  py_sgn (PFloat (Z_to_float z)) = Some (Z.sgn z).
Proof.
  intros Hi. destruct (Z.eq_dec z 0) as [->|Hz]; [reflexivity|].
  pose proof (Z_to_float_not_zero z Hz) as Hnz.
  pose proof (Z_to_float_signed z) as Hs.
  destruct (Z_to_float_in_range z) as [_ Hn].
  destruct (Z_to_float z) as [s|s| |s m e]; try discriminate.
  cbn [signed] in Hs. subst s. cbn [py_sgn].
  destruct (Z.ltb_spec z 0); f_equal; lia.
Qed.

(** [c/math.sqrt(eps_r)] is a math domain error on a negative [eps_r], a
    division by zero on a zero, and defined on a positive one and on a
    NaN. *)
Lemma speed_sign (eps_r : pynum) :
  valid eps_r ->
  (speed eps_r = Raise ValueError
   <-> convertible eps_r = true /\ py_sgn eps_r = Some (-1))
  /\ (speed eps_r = Raise ZeroDivisionError <-> py_sgn eps_r = Some 0)
  /\ (is_ok (speed eps_r) = true
      <-> convertible eps_r = true
          /\ (py_sgn eps_r = Some 1 \/ py_sgn eps_r = None)).
Proof.
  destruct eps_r as [z|f]; cbn [valid]; intros Hv.
  - unfold convertible. cbn [as_float].
    destruct (is_infinity (Z_to_float z)) eqn:Hi.
    + assert (E : speed (PInt z) = Raise OverflowError).
      { unfold speed, math_sqrt, math_1. cbn [as_float]. now rewrite Hi. }
      rewrite E. cbn [is_ok py_sgn].
      split; [|split]; (split; intros H); try discriminate;
        try (destruct H; discriminate).
      injection H as Hz. destruct z; discriminate.
    + assert (E : speed (PInt z) = speed (PFloat (Z_to_float z))).
      { unfold speed, math_sqrt, math_1. cbn [as_float]. now rewrite Hi. }
      rewrite E. cbn [is_ok].
      destruct (speed_of_float (Z_to_float z)
                  (proj1 (Z_to_float_in_range z))) as (H1 & H2 & H3).
      rewrite (py_sgn_Z_to_float z Hi) in H1, H2, H3. cbn [py_sgn].
      rewrite H1, H2, H3. clear. intuition.
  - destruct (speed_of_float f (valid_in_range f Hv)) as (H1 & H2 & H3).
    unfold convertible. cbn [as_float is_ok].
    rewrite H1, H2, H3. clear. intuition.
Qed.


(** *** The claim

    The example of the specification: [length = r0 = 33]. *)

Lemma sample_acos_c_library : c_library sample_acos.
Proof.
  intros x _ _. unfold sample_acos.
  destruct (SFeqb x (Z_to_float 1)); [reflexivity|].
  destruct (SFeqb x (Z_to_float (-1))); reflexivity.
Qed.







(** * Further properties of the code

    The rest of [motor.py]: what [__init__] leaves in the attributes, the
    methods that serve every motor in turn, the calls of
    [move_by_increment] that raise, and the two conversions as functions
    of their arguments; then [flmn] on its degenerate arguments and across
    its modes. *)

(** ** Coordinators built from a list *)

Lemma sample_built_from :
  built_from ("resonator_coupling" :: sample_order ++ ["curved_mirror"])
    sample_coordinator.
Proof.
  exists "authentications.json", sample_order, idle. eexists. split.
  - split.
    + unfold sample_order. repeat constructor; simpl; intuition discriminate.
    + intros x. unfold sample_order. simpl. tauto.
  - reflexivity.
Qed.

Lemma init_auths_file (auths : string) (order : list string) (w w' : World)
  (self : OrpheusMotors.t) :
  __init__ auths order w = (Ok self, w') ->
  auths_file self = auths /\ list_of_motors self = order.
Proof.
  unfold __init__. cbn [list_of_motors].
  destruct (create_motors_run order (mk auths order [] [] None None None) w)
    as (s & Hs & Ha & Hl & _).
  unfold bind. rewrite Hs. unfold ret. intros Heq. injection Heq as <- _.
  split; [exact Ha | exact Hl].
Qed.

Lemma built_from_motors (l : list string) (self : OrpheusMotors.t) :
  built_from l self ->
  exists auths order,
    iterates l order
    /\ motor_names self = filter known_role order
    /\ motors self = map (Motor.mk auths) (motor_names self)
    /\ NoDup (motor_names self)
    /\ auths_file self = auths.
Proof.
  intros (auths & order & w & w' & Hit & Hrun).
  exists auths, order. split; [assumption|].
  destruct (init_auths_file _ _ _ _ _ Hrun) as [Ha _].
  destruct (init_run auths order w) as (self' & Hrun' & Hn & Hm).
  rewrite Hrun' in Hrun. injection Hrun as <- _.
  rewrite Hn, Hm. repeat split; try assumption.
  apply NoDup_filter. apply Hit.
Qed.

Lemma built_from_built (l : list string) (self : OrpheusMotors.t) :
  built_from l self -> built self.
Proof.
  intros (auths & order & w & w' & _ & H). now exists auths, order, w, w'.
Qed.

Lemma built_from_names (l : list string) (self : OrpheusMotors.t)
  (role : string) :
  built_from l self ->
  (In role (motor_names self) <-> In role l /\ known_role role = true).
Proof.
  intros Hb.
  destruct (built_from_motors _ _ Hb) as (auths & order & [_ Hit] & Hn & _).
  rewrite Hn, filter_In, Hit. tauto.
Qed.

Lemma contains_cons (x y : string) (l : list string) :
  contains (y :: l) x = (String.eqb y x || contains l x)%bool.
Proof. unfold contains. cbn [existsb]. now rewrite String.eqb_sym. Qed.

Lemma contains_iterates (l order : list string) (x : string) :
  iterates l order -> contains order x = contains l x.
Proof.
  intros [_ Hit].
  destruct (contains order x) eqn:E1, (contains l x) eqn:E2; try reflexivity.
  - apply contains_In, Hit, contains_In in E1. congruence.
  - apply contains_In, Hit, contains_In in E2. congruence.
Qed.

Lemma known_roles_at_most_three (names : list string) :
  NoDup names -> (forall r, In r names -> known_role r = true) ->
  (List.length names <= 3)%nat.
Proof.
  intros Hnd Hk.
  change 3%nat with (List.length roles).
  apply NoDup_incl_length; [assumption|].
  intros r Hr. specialize (Hk r Hr).
  destruct (known_role_cases r Hk) as [-> | [-> | ->]]; unfold roles; simpl;
    tauto.
Qed.

(** ** The attributes that [__init__] creates *)

Lemma create_motors_attributes (order : list string)
  (self self' : OrpheusMotors.t) (w w' : World) :
  create_motors order self w = (Ok self', w') ->
  curved_mirror self'
  = (if contains order "curved_mirror"
     then Some (Motor.mk (auths_file self) "curved_mirror")
     else curved_mirror self)
  /\ bottom_plate self'
     = (if contains order "bottom_dielectric_plate"
        then Some (Motor.mk (auths_file self) "bottom_dielectric_plate")
        else bottom_plate self)
  /\ top_plate self'
     = (if contains order "top_dielectric_plate"
        then Some (Motor.mk (auths_file self) "top_dielectric_plate")
        else top_plate self).
Proof.
  revert self w. induction order as [|motor rest IH]; intros self w.
  - cbn [create_motors]. unfold ret. intros Heq. injection Heq as <- _. auto.
  - cbn [create_motors]. rewrite !contains_cons.
    destruct (String.eqb_spec motor "curved_mirror") as [->|N1];
      [|destruct (String.eqb_spec motor "bottom_dielectric_plate") as [->|N2];
        [|destruct (String.eqb_spec motor "top_dielectric_plate") as [->|N3]]].
    + unfold CurvedMirrorMotor, Motor.__init__, interface_new.
      unfold bind at 1. unfold bind at 1. rewrite emit_run. unfold ret at 1.
      intros H. apply IH in H.
      cbn [append_motor set_curved_mirror auths_file curved_mirror bottom_plate
             top_plate String.eqb Ascii.eqb Bool.eqb orb] in *.
      destruct H as (H1 & H2 & H3). rewrite H1, H2, H3.
      repeat split. now destruct (contains rest "curved_mirror").
    + unfold BottomDielectricPlateMotor, Motor.__init__, interface_new.
      unfold bind at 1. unfold bind at 1. rewrite emit_run. unfold ret at 1.
      intros H. apply IH in H.
      cbn [append_motor set_bottom_plate auths_file curved_mirror bottom_plate
             top_plate String.eqb Ascii.eqb Bool.eqb orb] in *.
      destruct H as (H1 & H2 & H3). rewrite H1, H2, H3.
      repeat split. now destruct (contains rest "bottom_dielectric_plate").
    + unfold TopDielectricPlateMotor, Motor.__init__, interface_new.
      unfold bind at 1. unfold bind at 1. rewrite emit_run. unfold ret at 1.
      intros H. apply IH in H.
      cbn [append_motor set_top_plate auths_file curved_mirror bottom_plate
             top_plate String.eqb Ascii.eqb Bool.eqb orb] in *.
      destruct H as (H1 & H2 & H3). rewrite H1, H2, H3.
      repeat split. now destruct (contains rest "top_dielectric_plate").
    + cbn [orb]. apply IH.
Qed.

Lemma init_attributes (auths : string) (order : list string) (w w' : World)
  (self : OrpheusMotors.t) :
  __init__ auths order w = (Ok self, w') ->
  curved_mirror self
  = (if contains order "curved_mirror"
     then Some (Motor.mk auths "curved_mirror") else None)
  /\ bottom_plate self
     = (if contains order "bottom_dielectric_plate"
        then Some (Motor.mk auths "bottom_dielectric_plate") else None)
  /\ top_plate self
     = (if contains order "top_dielectric_plate"
        then Some (Motor.mk auths "top_dielectric_plate") else None).
Proof.
  unfold __init__. cbn [list_of_motors]. unfold bind.
  destruct (create_motors order (mk auths order [] [] None None None) w)
    as [[s|e] w1] eqn:Hc; [|discriminate].
  unfold ret. intros Heq. injection Heq as <- _.
  apply create_motors_attributes in Hc. exact Hc.
Qed.

(** X1.  After [__init__] the attribute [curved_mirror] ([bottom_plate],
    [top_plate]) exists exactly when the list names the role, and then it
    is the motor of that role held in [self.motors], created with the
    coordinator's authentication file; whatever the list, its duplicates
    and its unknown names, the coordinator holds at most three motors. *)
Theorem init_role_attributes
  (auths : string) (l order : list string) (w : World) :
  iterates l order ->
  exists self w',
    __init__ auths order w = (Ok self, w')
    /\ curved_mirror self
       = (if contains l "curved_mirror"
          then Some (Motor.mk auths "curved_mirror") else None)
    /\ bottom_plate self
       = (if contains l "bottom_dielectric_plate"
          then Some (Motor.mk auths "bottom_dielectric_plate") else None)
    /\ top_plate self
       = (if contains l "top_dielectric_plate"
          then Some (Motor.mk auths "top_dielectric_plate") else None)
    /\ (forall m,
          curved_mirror self = Some m \/ bottom_plate self = Some m
          \/ top_plate self = Some m ->
          In m (motors self))
    /\ (List.length (motors self) <= 3)%nat
    /\ auths_file self = auths.
Proof.
  intros Hit.
  destruct (init_run auths order w) as (self & Hrun & Hn & Hm).
  exists self. eexists. split; [exact Hrun|].
  destruct (init_attributes _ _ _ _ _ Hrun) as (H1 & H2 & H3).
  rewrite !(contains_iterates l order) in H1, H2, H3 by assumption.
  split; [exact H1|]. split; [exact H2|]. split; [exact H3|].
  split; [|split].
  - intros m Hcase. rewrite Hm. apply in_map_iff.
    assert (Hin : forall r, contains l r = true -> known_role r = true ->
                            In r (filter known_role order)).
    { intros r Hr Hk. apply filter_In. split; [|assumption].
      apply Hit. now apply contains_In. }
    rewrite H1, H2, H3 in Hcase.
    destruct Hcase as [H|[H|H]].
    + destruct (contains l "curved_mirror") eqn:E; [|discriminate].
      injection H as <-. eexists. split; [reflexivity|]. now apply Hin.
    + destruct (contains l "bottom_dielectric_plate") eqn:E; [|discriminate].
      injection H as <-. eexists. split; [reflexivity|]. now apply Hin.
    + destruct (contains l "top_dielectric_plate") eqn:E; [|discriminate].
      injection H as <-. eexists. split; [reflexivity|]. now apply Hin.
  - rewrite Hm, length_map.
    apply known_roles_at_most_three.
    + apply NoDup_filter, Hit.
    + intros r Hr. now apply filter_In in Hr.
  - exact (proj1 (init_auths_file _ _ _ _ _ Hrun)).
Qed.

Lemma init_role_attributes_witness :
  exists self w',
    __init__ "authentications.json" ["curved_mirror"; "resonator_coupling"] idle
    = (Ok self, w')
    /\ curved_mirror self
       = Some (Motor.mk "authentications.json" "curved_mirror")
    /\ top_plate self = None.
Proof.
  destruct (init_role_attributes "authentications.json"
              ["curved_mirror"; "resonator_coupling"; "curved_mirror"]
              ["curved_mirror"; "resonator_coupling"] idle)
    as (self & w' & Hrun & Hcm & _ & Htop & _).
  - split.
    + repeat constructor; simpl; intuition discriminate.
    + intros x. simpl. tauto.
  - exists self, w'. split; [exact Hrun|]. split; [exact Hcm | exact Htop].
Defined.

(** ** Finding the motor of a role *)

Lemma index_missing (l : list string) (x : string) :
  ~ In x l -> index l x = Raise ValueError.
Proof.
  induction l as [|y l IH]; intros Hno; cbn [index]; [reflexivity|].
  destruct (String.eqb_spec y x) as [->|_]; [exfalso; apply Hno; now left|].
  rewrite IH by (intros H; apply Hno; now right). reflexivity.
Qed.

(** X2.  On a coordinator that [__init__] built,
    [motor_names.index(role)] finds every role of [motor_names] and
    [motors] holds, at the position found, the motor of that role, with the
    coordinator's authentication file; a role that is not in [motor_names]
    is refused by [index] with [ValueError]. *)
Theorem role_lookup (self : OrpheusMotors.t) (role : string) :
  built self ->
  (In role (motor_names self) ->
   exists i m,
     index (motor_names self) role = Ok i
     /\ (i < List.length (motors self))%nat
     /\ getitem (motors self) i = Ok m
     /\ Motor.get_name m = role
     /\ Motor.auths_file m = auths_file self)
  /\ (~ In role (motor_names self) ->
      index (motor_names self) role = Raise ValueError).
Proof.
  intros Hb. split; [|apply index_missing].
  intros Hin. destruct (built_consistent _ Hb) as [Hc _].
  pose proof Hin as Hin'. apply contains_In in Hin'. rewrite Hc in Hin'.
  destruct (lookup_by_name _ _ Hin') as (i & m & Hi & Hm & Hn).
  rewrite <- Hc in Hi. exists i, m.
  split; [assumption|].
  assert (Hnth : nth_error (motors self) i = Some m).
  { unfold getitem in Hm. destruct (nth_error (motors self) i); congruence. }
  split; [apply nth_error_Some; congruence|].
  split; [assumption|]. split; [assumption|].
  destruct Hb as (auths & order & w & w' & Hrun).
  destruct (init_auths_file _ _ _ _ _ Hrun) as [Ha _].
  destruct (init_run auths order w) as (self' & Hrun' & _ & Hms).
  rewrite Hrun' in Hrun. injection Hrun as <- _.
  rewrite Ha. apply nth_error_In in Hnth. rewrite Hms in Hnth.
  apply in_map_iff in Hnth. destruct Hnth as (r & <- & _). reflexivity.
Qed.

Lemma role_lookup_witness :
  exists i m,
    index (motor_names sample_coordinator) "curved_mirror" = Ok i
    /\ getitem (motors sample_coordinator) i = Ok m
    /\ Motor.get_name m = "curved_mirror".
Proof.
  destruct (proj1 (role_lookup sample_coordinator "curved_mirror" sample_built))
    as (i & m & Hi & _ & Hm & Hn & _).
  - simpl. tauto.
  - exists i, m. auto.
Defined.

(** ** The methods that serve every motor in turn *)

Lemma round_of_nth (dev : nat -> string -> string) (ms : list Motor.t)
  (k i : nat) (m : Motor.t) :
  nth_error ms i = Some m ->
  nth_error (round_of dev k ms) i = Some (dev (k + i)%nat (status_endpoint m)).
Proof.
  revert k i. induction ms as [|m0 ms IH]; intros k [|i]; cbn; try discriminate.
  - intros [= ->]. now rewrite Nat.add_0_r.
  - intros H. rewrite (IH (S k) i H). do 2 f_equal. lia.
Qed.

Lemma round_of_length (dev : nat -> string -> string) (ms : list Motor.t)
  (k : nat) : List.length (round_of dev k ms) = List.length ms.
Proof.
  revert k. induction ms as [|m ms IH]; intros k; cbn; [reflexivity|].
  now rewrite IH.
Qed.

(** X3.  [get_motor_status] asks every motor of the coordinator for its
    status, once, in the order of [self.motors], and returns the answers in
    that order: one status per motor, the [i]-th being the answer to the
    [i]-th [get] of the call; it prints nothing and does not sleep. *)
Theorem get_motor_status_one_per_motor (self : OrpheusMotors.t) (w : World) :
  exists status w',
    get_motor_status self w = (Ok status, w')
    /\ List.length status = List.length (motors self)
    /\ (forall i m,
          nth_error (motors self) i = Some m ->
          nth_error status i
          = Some (device w (asked w + i)%nat (status_endpoint m)))
    /\ emitted w w' = polls (motors self)
    /\ asked w' = (asked w + List.length (motors self))%nat
    /\ device w' = device w.
Proof.
  unfold get_motor_status. rewrite get_motor_status_from_run. cbn [app].
  eexists. eexists. split; [reflexivity|].
  split; [apply round_of_length|].
  split; [intros i m; apply round_of_nth|].
  split; [apply emitted_world|]. split; reflexivity.
Qed.

Lemma get_motor_status_one_per_motor_witness :
  exists status w',
    get_motor_status sample_coordinator ready_after_four = (Ok status, w')
    /\ nth_error status 1 = Some "M".
Proof.
  destruct (get_motor_status_one_per_motor sample_coordinator ready_after_four)
    as (status & w' & Hrun & _ & Hnth & _).
  exists status, w'. split; [exact Hrun|].
  apply (Hnth 1%nat (Motor.mk "authentications.json" "curved_mirror")).
  reflexivity.
Defined.

Lemma move_to_zero_from_run (ms : list Motor.t) (w : World) :
  move_to_zero_from ms w = (Ok tt, after w (map zero_command ms)).
Proof.
  revert w. induction ms as [|m ms IH]; intros w.
  - cbn [move_to_zero_from map]. unfold ret. now rewrite after_nil.
  - cbn [move_to_zero_from map]. unfold bind, Motor.move_to_zero, interface_set.
    rewrite emit_run, IH, after_after. reflexivity.
Qed.

Lemma stop_and_kill_from_run (ms : list Motor.t) (w : World) :
  stop_and_kill_from ms w = (Ok tt, after w (map kill_command ms)).
Proof.
  revert w. induction ms as [|m ms IH]; intros w.
  - cbn [stop_and_kill_from map]. unfold ret. now rewrite after_nil.
  - cbn [stop_and_kill_from map]. unfold bind, Motor.stop_and_kill, interface_set.
    rewrite emit_run, IH, after_after. reflexivity.
Qed.

Lemma zero_command_inj (auths : string) (r r' : string) :
  zero_command (Motor.mk auths r) = zero_command (Motor.mk auths r') -> r = r'.
Proof.
  unfold zero_command. cbn [Motor.name]. intros [= H].
  eapply append_cancel_r, H.
Qed.

Lemma kill_command_inj (auths : string) (r r' : string) :
  kill_command (Motor.mk auths r) = kill_command (Motor.mk auths r') -> r = r'.
Proof.
  unfold kill_command. cbn [Motor.name]. intros [= H].
  eapply append_cancel_r, H.
Qed.

(** X4.  [move_to_zero] sends position [0] to every motor of the
    coordinator, once, in the order of [self.motors], and does nothing
    else; it raises nothing.  On a coordinator built from the list [l] the
    motors reached are those of the known roles that [l] names, each
    once. *)
Theorem move_to_zero_reaches_every_motor
  (self : OrpheusMotors.t) (w : World) :
  move_to_zero self w = (Ok tt, after w (map zero_command (motors self)))
  /\ (forall l, built_from l self ->
        NoDup (map zero_command (motors self))
        /\ forall role,
             In (EvSet (role ++ "_move_to_position")%string (VInt 0))
                (map zero_command (motors self))
             <-> In role l /\ known_role role = true).
Proof.
  split; [apply move_to_zero_from_run|].
  intros l Hb.
  destruct (built_from_motors _ _ Hb) as (auths & order & _ & _ & Hm & Hnd & _).
  rewrite Hm, map_map. split.
  - apply NoDup_map_NoDup_ForallPairs; [|assumption].
    intros r r' _ _. apply zero_command_inj.
  - intros role. rewrite <- (built_from_names _ _ role Hb), in_map_iff.
    split.
    + intros (r & E & Hin).
      change (EvSet (role ++ "_move_to_position")%string (VInt 0))
        with (zero_command (Motor.mk auths role)) in E.
      apply zero_command_inj in E. now subst.
    + intros Hin. now exists role.
Qed.

Lemma move_to_zero_reaches_every_motor_witness :
  In (EvSet "curved_mirror_move_to_position" (VInt 0))
     (map zero_command (motors sample_coordinator)).
Proof.
  apply (proj2 (proj2 (proj2 (move_to_zero_reaches_every_motor
                                sample_coordinator idle)
                         _ sample_built_from) "curved_mirror")).
  split; [simpl; tauto | reflexivity].
Defined.

(** X5.  [stop_and_kill] sends ['stop_and_kill'] to every motor of the
    coordinator, once, in the order of [self.motors]; it raises nothing and
    commands no move.  On a coordinator built from the list [l] the motors
    reached are those of the known roles that [l] names, each once. *)
Theorem stop_and_kill_reaches_every_motor
  (self : OrpheusMotors.t) (w : World) :
  stop_and_kill self w = (Ok tt, after w (map kill_command (motors self)))
  /\ (forall role, commanded role (map kill_command (motors self)) = [])
  /\ (forall l, built_from l self ->
        NoDup (map kill_command (motors self))
        /\ forall role,
             In (EvSet (role ++ "_status_command")%string (VStr "stop_and_kill"))
                (map kill_command (motors self))
             <-> In role l /\ known_role role = true).
Proof.
  split; [apply stop_and_kill_from_run|]. split.
  - intros role. induction (motors self) as [|m ms IH]; [reflexivity|].
    cbn [map]. change (commanded role (kill_command m :: map kill_command ms))
      with (commanded role (map kill_command ms)). exact IH.
  - intros l Hb.
    destruct (built_from_motors _ _ Hb) as (auths & order & _ & _ & Hm & Hnd & _).
    rewrite Hm, map_map. split.
    + apply NoDup_map_NoDup_ForallPairs; [|assumption].
      intros r r' _ _. apply kill_command_inj.
    + intros role. rewrite <- (built_from_names _ _ role Hb), in_map_iff.
      split.
      * intros (r & E & Hin).
        change (EvSet (role ++ "_status_command")%string (VStr "stop_and_kill"))
          with (kill_command (Motor.mk auths role)) in E.
        apply kill_command_inj in E. now subst.
      * intros Hin. now exists role.
Qed.

Lemma stop_and_kill_reaches_every_motor_witness :
  In (EvSet "top_dielectric_plate_status_command" (VStr "stop_and_kill"))
     (map kill_command (motors sample_coordinator)).
Proof.
  apply (proj2 (proj2 (proj2 (proj2 (stop_and_kill_reaches_every_motor
                                       sample_coordinator idle))
                         _ sample_built_from) "top_dielectric_plate")).
  split; [simpl; tauto | reflexivity].
Defined.

(** ** A coordinator without motors *)

Lemma issue_inactive (ms : list move) :
  (forall m, In m ms -> move_active m = false) -> issue ms = ([], None).
Proof.
  induction ms as [|m ms IH]; intros H; cbn [issue]; [reflexivity|].
  rewrite (H m (or_introl eq_refl)). apply IH.
  intros m' Hin. apply H. now right.
Qed.

(** X6.  A coordinator built from a list that names none of the three
    roles, the default empty list among them, holds no motor and is inert:
    [get_motor_status] returns the empty list without asking,
    [wait_for_motors] prints [[]] and ['done waiting'] and returns at once
    without asking or sleeping, [move_to_zero] and [stop_and_kill] send
    nothing, and [move_by_increment] computes its pair, or raises the
    exception of its pair, and sends nothing. *)
Theorem coordinator_without_motors
  (l : list string) (self : OrpheusMotors.t) (w : World) :
  built_from l self ->
  (forall role, In role l -> known_role role = false) ->
  motors self = [] /\ motor_names self = []
  /\ get_motor_status self w = (Ok [], w)
  /\ (forall fuel,
        wait_for_motors (S fuel) self w
        = (Ok (Some tt), after w [EvPrint "[]"; EvPrint "done waiting"]))
  /\ move_to_zero self w = (Ok tt, w)
  /\ stop_and_kill self w = (Ok tt, w)
  /\ (forall d th t n init,
        move_by_increment self d th t n init w = lift (returned_pair d t n) w).
Proof.
  intros Hb Hno.
  destruct (built_from_motors _ _ Hb) as (auths & order & Hit & Hn & Hm & _).
  assert (Hnames : motor_names self = []).
  { rewrite Hn. destruct (filter known_role order) as [|r rs] eqn:E;
      [reflexivity|].
    assert (Hin : In r (filter known_role order)) by (rewrite E; now left).
    apply filter_In in Hin. destruct Hin as [Hin Hk].
    apply Hit in Hin. rewrite (Hno r Hin) in Hk. discriminate. }
  assert (Hmotors : motors self = []) by (rewrite Hm, Hnames; reflexivity).
  split; [assumption|]. split; [assumption|].
  split; [|split; [|split; [|split]]].
  - unfold get_motor_status. rewrite Hmotors. reflexivity.
  - intros fuel. rewrite wait_for_motors_unfold, wait_loop_step.
    rewrite Hmotors, Hnames. cbn [round_of repeat List.length polls map].
    destruct (list_eq_dec string_dec [] []) as [_|N]; [|congruence].
    unfold after. cbn [trace asked device]. f_equal. f_equal.
    + rewrite app_nil_r, <- List.app_assoc. reflexivity.
    + lia.
  - unfold move_to_zero. rewrite Hmotors. reflexivity.
  - unfold stop_and_kill. rewrite Hmotors. reflexivity.
  - intros d th t n init.
    destruct (built_consistent _ (built_from_built _ _ Hb)) as [Hc _].
    rewrite (move_by_increment_run _ _ _ _ _ _ _ Hc).
    rewrite returned_pair_plate_separation. unfold lift.
    destruct (py_add t d) as [new_length|]; cbn [rbind]; [|reflexivity].
    destruct (plate_separation new_length n) as [sep|]; cbn [rbind];
      [|reflexivity].
    rewrite issue_inactive.
    + cbn [outcome_of]. now rewrite after_nil.
    + intros m Hin. destruct (moves_roles _ _ _ _ _ _ Hin) as [-> _].
      rewrite Hnames. reflexivity.
Qed.

Lemma coordinator_without_motors_witness :
  wait_for_motors 1 no_motors never_ready
  = (Ok (Some tt), after never_ready [EvPrint "[]"; EvPrint "done waiting"]).
Proof.
  apply (coordinator_without_motors [] no_motors never_ready).
  - exists "authentications.json", (@nil string), idle. eexists.
    split; [|reflexivity].
    split; [constructor | intros x; tauto].
  - intros role [].
Defined.

(** ** Calls of [move_by_increment] that raise *)

Lemma returned_pair_raise (d t n : pynum) (e : exn) :
  returned_pair d t n = Raise e ->
  py_add t d = Raise e
  \/ exists new_length,
       py_add t d = Ok new_length
       /\ plate_separation new_length n = Raise e.
Proof.
  rewrite returned_pair_plate_separation.
  destruct (py_add t d) as [new_length|e1]; cbn [rbind].
  - destruct (plate_separation new_length n) as [sep|e2] eqn:Hs; cbn [rbind];
      [discriminate|].
    intros [= ->]. right. exists new_length. split; [reflexivity | exact Hs].
  - intros [= ->]. now left.
Qed.

(** X7.  When the new length or the new plate separation cannot be
    computed, the call raises that exception before anything is printed or
    sent: no motor has moved, whatever the coordinator. *)
Theorem move_by_increment_raises_before_moving
  (self : OrpheusMotors.t) (d th t n init : pynum) (w : World) (e : exn) :
  returned_pair d t n = Raise e ->
  move_by_increment self d th t n init w = (Raise e, w).
Proof.
  intros H. unfold move_by_increment.
  destruct (returned_pair_raise _ _ _ _ H) as [H1|(new_length & H1 & H2)].
  - unfold bind at 1, lift at 1. now rewrite H1.
  - unfold bind at 1, lift at 1. rewrite H1.
    unfold bind at 1, lift at 1. now rewrite H2.
Qed.

Lemma move_by_increment_raises_before_moving_witness :
  move_by_increment sample_coordinator (lit 1 1) (lit 1 10) (lit 10 1)
    (PInt (-1)) (lit 7 2) idle
  = (Raise ZeroDivisionError, idle).
Proof.
  apply move_by_increment_raises_before_moving. reflexivity.
Defined.

Lemma issue_raise (ms : list move) (e : exn) :
  snd (issue ms) = Some e ->
  exists m, In m ms /\ move_active m = true /\ move_count m = Raise e.
Proof.
  induction ms as [|m ms IH]; cbn [issue]; [discriminate|].
  destruct (move_active m) eqn:Ha.
  - destruct (move_count m) as [steps|e'] eqn:Hs.
    + destruct (issue ms) as [evs stop]. cbn [snd] in *.
      intros H. destruct (IH H) as (m' & Hin & Ha' & Hs').
      exists m'. split; [now right | auto].
    + cbn [snd]. intros [= ->]. exists m. split; [now left | auto].
  - intros H. destruct (IH H) as (m' & Hin & Ha' & Hs').
    exists m'. split; [now right | auto].
Qed.

(** X8.  A call is not undone when it raises.  The exception of a call
    whose pair is defined is that of the step count of an active motor;
    the motors served before it have been commanded and stay so: the
    curved mirror, when it is active and its step count is defined, has
    been sent that count, and the top plate, served last, has been sent
    nothing. *)
Theorem raising_call_keeps_earlier_moves
  (self : OrpheusMotors.t) (d th t n init : pynum) (w : World)
  (new_length sep : pynum) (e : exn) :
  built self ->
  returned_pair d t n = Ok (new_length, sep) ->
  fst (move_by_increment self d th t n init w) = Raise e ->
  let evs := emitted w (snd (move_by_increment self d th t n init w)) in
  (exists m,
     In m (moves self d th sep init)
     /\ move_active m = true /\ move_count m = Raise e)
  /\ (forall steps,
        In "curved_mirror" (motor_names self) ->
        curved_mirror_steps d = Ok steps ->
        commanded "curved_mirror" evs = [steps])
  /\ commanded "top_dielectric_plate" evs = [].
Proof.
  intros Hb Hp Hraise evs. subst evs.
  destruct (built_consistent _ Hb) as [Hc _].
  rewrite (move_by_increment_run _ _ _ _ _ _ _ Hc) in *.
  rewrite returned_pair_plate_separation in Hp.
  destruct (py_add t d) as [nl|]; cbn [rbind] in Hp; [|discriminate].
  destruct (plate_separation nl n) as [sp|]; cbn [rbind] in Hp; [|discriminate].
  injection Hp as -> ->.
  destruct (issue (moves self d th sep init)) as [evs stop] eqn:Hi.
  cbn [fst snd] in *. rewrite emitted_after.
  destruct stop as [e'|]; cbn [outcome_of] in Hraise; [|discriminate].
  injection Hraise as ->.
  split; [apply issue_raise; now rewrite Hi|].
  cut ((forall steps,
          contains (motor_names self) "curved_mirror" = true ->
          curved_mirror_steps d = Ok steps ->
          commanded "curved_mirror" evs = [steps])
       /\ commanded "top_dielectric_plate" evs = []).
  { intros [H1 H2]. split; [|exact H2].
    intros steps Hin. apply H1. now apply contains_In. }
  revert Hi. unfold moves, issue.
  cbn [move_active move_count move_role move_label].
  destruct (contains (motor_names self) "curved_mirror");
    [destruct (curved_mirror_steps d) as [s1|]|];
    (destruct (contains (motor_names self) "bottom_dielectric_plate");
     [destruct (bottom_plate_travel init d sep) as [tb|]; cbn [rbind];
      [destruct (plates_steps tb th) as [s2|]|]|]);
    (destruct (contains (motor_names self) "top_dielectric_plate");
     [destruct (top_plate_travel sep init) as [tt'|]; cbn [rbind];
      [destruct (plates_steps tt' th) as [s3|]|]|]);
    intros Hi; injection Hi as <- He; try discriminate He;
    rewrite ?commanded_app, ?commanded_move_events;
    (split; [intros steps Hin Hs; try discriminate; try (now injection Hs as <-)
            | reflexivity]).
Qed.

Lemma raising_call_keeps_earlier_moves_witness :
  commanded "curved_mirror"
    (emitted idle
       (snd (move_by_increment sample_coordinator (lit 1 1) (lit 1 10)
               (lit 10 1) (PInt 2) (lit (10 ^ 308) 1) idle))) = [400000].
Proof.
  apply (proj1 (proj2 (raising_call_keeps_earlier_moves sample_coordinator
                         (lit 1 1) (lit 1 10) (lit 10 1) (PInt 2)
                         (lit (10 ^ 308) 1) idle (fst sample_pair)
                         (snd sample_pair) OverflowError sample_built
                         sample_pair_returned
                         ltac:(vm_compute; reflexivity)))
           400000).
  - simpl. tauto.
  - reflexivity.
Defined.

(** ** The order of the commands *)

Lemma sent_app (a b : list event) : sent (a ++ b) = sent a ++ sent b.
Proof. unfold sent. apply flat_map_app. Qed.

Lemma sent_issue (ms : list move) :
  exists rest,
    sent (fst (issue ms)) ++ rest
    = map (fun m => move_steps_endpoint (move_role m)) (filter move_active ms)
    /\ (snd (issue ms) = None -> rest = []).
Proof.
  induction ms as [|m ms (rest & IH & Hnone)]; cbn [issue filter].
  - exists []. split; [reflexivity | auto].
  - destruct (move_active m).
    + destruct (move_count m) as [steps|e].
      * destruct (issue ms) as [evs stop]. cbn [fst snd map] in *.
        exists rest. rewrite sent_app. cbn [move_events sent flat_map app].
        rewrite <- IH. split; [reflexivity | assumption].
      * cbn [fst snd sent flat_map app].
        eexists. split; [reflexivity | discriminate].
    + exists rest. split; assumption.
Qed.

Lemma active_moves (self : OrpheusMotors.t) (d th sep init : pynum) :
  map (fun m => move_steps_endpoint (move_role m))
    (filter move_active (moves self d th sep init))
  = map move_steps_endpoint (filter (contains (motor_names self)) roles).
Proof.
  unfold moves, roles. cbn [filter move_active].
  destruct (contains (motor_names self) "curved_mirror"),
           (contains (motor_names self) "bottom_dielectric_plate"),
           (contains (motor_names self) "top_dielectric_plate"); reflexivity.
Qed.

(** X9.  Whatever the order in which the motors were listed and created,
    a call of [move_by_increment] commands them in the order curved
    mirror, bottom plate, top plate: the endpoints it sends to are, in
    order, the [move_steps] endpoints of the active roles in that order,
    all of them when the call returns and the first few of them when it
    raises. *)
Theorem moves_in_fixed_order
  (self : OrpheusMotors.t) (d th t n init : pynum) (w : World) :
  built self ->
  let call := move_by_increment self d th t n init w in
  let served :=
    map move_steps_endpoint (filter (contains (motor_names self)) roles) in
  (exists rest, sent (emitted w (snd call)) ++ rest = served)
  /\ (is_ok (fst call) = true -> sent (emitted w (snd call)) = served).
Proof.
  intros Hb call served. subst call served.
  destruct (built_consistent _ Hb) as [Hc _].
  rewrite (move_by_increment_run _ _ _ _ _ _ _ Hc).
  destruct (py_add t d) as [new_length|]; cbn [fst snd];
    [|rewrite emitted_same; split; [eexists; reflexivity | discriminate]].
  destruct (plate_separation new_length n) as [sep|]; cbn [fst snd];
    [|rewrite emitted_same; split; [eexists; reflexivity | discriminate]].
  destruct (sent_issue (moves self d th sep init)) as (rest & Hrest & Hnone).
  rewrite active_moves in Hrest.
  destruct (issue (moves self d th sep init)) as [evs stop].
  cbn [fst snd] in *. rewrite emitted_after. split.
  - now exists rest.
  - destruct stop; cbn [outcome_of is_ok]; [discriminate|].
    intros _. rewrite (Hnone eq_refl), app_nil_r in Hrest. exact Hrest.
Qed.

Lemma moves_in_fixed_order_witness :
  sent (emitted idle
          (snd (move_by_increment sample_coordinator (lit 1 1) (lit 1 10)
                  (lit 10 1) (PInt 2) (lit 7 2) idle)))
  = ["curved_mirror_move_steps"; "bottom_dielectric_plate_move_steps";
     "top_dielectric_plate_move_steps"].
Proof.
  apply (proj2 (moves_in_fixed_order sample_coordinator (lit 1 1) (lit 1 10)
                  (lit 10 1) (PInt 2) (lit 7 2) idle sample_built)).
  reflexivity.
Defined.

(** ** What a call never does *)

Lemma issue_says_or_sends (ms : list move) :
  forallb says_or_sends (fst (issue ms)) = true.
Proof.
  induction ms as [|m ms IH]; cbn [issue]; [reflexivity|].
  destruct (move_active m); [|exact IH].
  destruct (move_count m) as [steps|e]; [|reflexivity].
  destruct (issue ms) as [evs stop]. cbn [fst] in *.
  rewrite forallb_app, IH. reflexivity.
Qed.

(** X10.  A call of [move_by_increment] never asks a motor for its
    status, never sleeps and opens no interface: it only prints and sends,
    so the motors are commanded without being waited for; the answers of
    the instruments and the count of the questions asked are left as they
    were, and the trace is only extended. *)
Theorem move_by_increment_never_waits
  (self : OrpheusMotors.t) (d th t n init : pynum) (w : World) :
  built self ->
  let w' := snd (move_by_increment self d th t n init w) in
  trace w' = trace w ++ emitted w w'
  /\ forallb says_or_sends (emitted w w') = true
  /\ asked w' = asked w
  /\ device w' = device w.
Proof.
  intros Hb w'. subst w'.
  destruct (built_consistent _ Hb) as [Hc _].
  assert (H : exists evs,
             snd (move_by_increment self d th t n init w) = after w evs
             /\ forallb says_or_sends evs = true).
  { destruct (move_by_increment_trace self d th t n init w Hc)
      as [E|(new_length & sep & _ & _ & E)]; rewrite E.
    - exists []. now rewrite after_nil.
    - eexists. split; [reflexivity | apply issue_says_or_sends]. }
  destruct H as (evs & -> & Hevs).
  rewrite emitted_after. repeat split; assumption.
Qed.

Lemma move_by_increment_never_waits_witness :
  asked (snd (move_by_increment sample_coordinator (lit 1 1) (lit 1 10)
                (lit 10 1) (PInt 2) (lit 7 2) ready_after_four))
  = asked ready_after_four.
Proof.
  apply (move_by_increment_never_waits sample_coordinator (lit 1 1) (lit 1 10)
           (lit 10 1) (PInt 2) (lit 7 2) ready_after_four sample_built).
Defined.

(** ** The conversions as functions of their arguments *)

Lemma opposite_opp (f : float64) : opposite f (SFopp f).
Proof. destruct f; cbn; auto. Qed.

Lemma binary_round_aux_opposite (s : bool) (m e : Z) (l : location) :
  opposite (binary_round_aux prec emax s m e l)
           (binary_round_aux prec emax (negb s) m e l).
Proof.
  unfold binary_round_aux.
  destruct (shr_fexp prec emax m e l) as [mrs' e'].
  destruct (shr_fexp prec emax _ e' loc_Exact) as [mrs'' e''].
  destruct (shr_m mrs''); cbn [opposite]; auto.
  destruct (e'' <=? emax - prec); cbn; auto.
Qed.

Lemma binary_round_opposite (s : bool) (m : positive) (e : Z) :
  opposite (binary_round prec emax s m e) (binary_round prec emax (negb s) m e).
Proof.
  unfold binary_round.
  destruct (shl_align m e _) as [mz ez]. apply binary_round_aux_opposite.
Qed.

Lemma binary_normalize_opposite (b : bool) (m e : Z) :
  opposite (binary_normalize prec emax (cond_Zopp b m) e false)
           (binary_normalize prec emax (cond_Zopp (negb b) m) e false).
Proof.
  unfold binary_normalize.
  destruct b, m as [|p|p]; cbn [cond_Zopp negb Z.opp opposite]; auto;
    try apply (binary_round_opposite false);
    apply (binary_round_opposite true).
Qed.

Lemma Z_to_float_opposite (z : Z) : opposite (Z_to_float z) (Z_to_float (- z)).
Proof.
  unfold Z_to_float.
  exact (binary_normalize_opposite false z 0).
Qed.

Lemma Z_div_float_opposite (a b : Z) :
  opposite (Z_div_float a b) (Z_div_float (- a) b).
Proof.
  unfold Z_div_float. rewrite Z.abs_opp.
  destruct (Z.eqb_spec (Z.abs a) 0) as [E|NE]; [exact I|].
  assert (Hneg : (- a <? 0) = negb (a <? 0)).
  { destruct (Z.ltb_spec a 0), (Z.ltb_spec (- a) 0); try reflexivity; lia. }
  rewrite Hneg.
  replace (xorb (negb (a <? 0)) (b <? 0)) with (negb (xorb (a <? 0) (b <? 0)))
    by (destruct (a <? 0), (b <? 0); reflexivity).
  apply binary_normalize_opposite.
Qed.

Lemma opposite_infinity (x y : float64) :
  opposite x y -> is_infinity y = is_infinity x.
Proof. destruct x, y; cbn; tauto. Qed.

Lemma fdiv_opposite (x x' y : float64) :
  opposite x x' -> opposite (fdiv x y) (fdiv x' y).
Proof.
  unfold fdiv, SFdiv.
  destruct x as [s|s| |s m e], x' as [s'|s'| |s' m' e'];
    cbn [opposite]; try tauto; intros H;
    destruct y as [sy|sy| |sy my ey]; cbn [opposite]; auto;
    try (subst s'; now destruct s, sy).
  all: try (destruct H as (-> & -> & ->); now destruct s, sy).
  destruct H as (-> & -> & ->).
  destruct (SFdiv_core_binary prec emax (Z.pos m) e (Z.pos my) ey)
    as [[mz ez] lz].
  replace (xorb (negb s) sy) with (negb (xorb s sy)) by now destruct s, sy.
  apply binary_round_aux_opposite.
Qed.

Lemma fmul_opposite (x y y' : float64) :
  opposite y y' -> opposite (fmul x y) (fmul x y').
Proof.
  unfold fmul, SFmul.
  destruct y as [s|s| |s m e], y' as [s'|s'| |s' m' e'];
    cbn [opposite]; try tauto; intros H;
    destruct x as [sx|sx| |sx mx ex]; cbn [opposite]; auto;
    try (subst s'; now destruct s, sx).
  all: try (destruct H as (-> & -> & ->); now destruct s, sx).
  destruct H as (-> & -> & ->).
  replace (xorb sx (negb s)) with (negb (xorb sx s)) by now destruct s, sx.
  apply binary_round_aux_opposite.
Qed.

Lemma py_round_opposite (x y : float64) :
  opposite x y -> py_round (PFloat y) = rmap Z.opp (py_round (PFloat x)).
Proof.
  destruct x as [s|s| |s m e], y as [s'|s'| |s' m' e'];
    cbn [opposite]; try tauto; intros H; cbn [py_round rmap]; auto.
  destruct H as (-> & -> & ->). f_equal.
  destruct s; cbn [cond_Zopp negb]; lia.
Qed.

(** What a number and its opposite convert to. *)
Lemma as_float_opposite (x : pynum) :
  match as_float x, as_float (py_neg x) with
  | Ok a, Ok b => opposite a b
  | Raise e, Raise e' => e = e'
  | _, _ => False
  end.
Proof.
  destruct x as [z|f]; cbn [as_float py_neg].
  - pose proof (Z_to_float_opposite z) as H.
    rewrite (opposite_infinity _ _ H).
    now destruct (is_infinity (Z_to_float z)).
  - apply opposite_opp.
Qed.

Lemma py_truediv_opposite (x y : pynum) :
  match py_truediv x y, py_truediv (py_neg x) y with
  | Ok (PFloat a), Ok (PFloat b) => opposite a b
  | Raise e, Raise e' => e = e'
  | _, _ => False
  end.
Proof.
  destruct x as [a|fa], y as [b|fb].
  - cbn [py_truediv py_neg].
    destruct (b =? 0); [reflexivity|].
    pose proof (Z_div_float_opposite a b) as H.
    rewrite (opposite_infinity _ _ H).
    now destruct (is_infinity (Z_div_float a b)).
  - pose proof (as_float_opposite (PInt a)) as H.
    unfold py_truediv. cbn [py_neg] in *.
    destruct (as_float (PInt a)) as [x|e], (as_float (PInt (- a))) as [x'|e'];
      cbn [rbind as_float]; try tauto.
    destruct (is_zero fb); [reflexivity|]. now apply fdiv_opposite.
  - unfold py_truediv. cbn [py_neg as_float rbind].
    destruct (is_infinity (Z_to_float b)); cbn [rbind]; [reflexivity|].
    destruct (is_zero (Z_to_float b)); [reflexivity|].
    apply fdiv_opposite, opposite_opp.
  - unfold py_truediv. cbn [py_neg as_float rbind].
    destruct (is_zero fb); [reflexivity|].
    apply fdiv_opposite, opposite_opp.
Qed.

(** X11.  Reversing the distance reverses the step count:
    [curved_mirror_distance_to_steps(-distance, pitch, steps_per_rotation)]
    is the opposite of [curved_mirror_distance_to_steps(distance, pitch,
    steps_per_rotation)], whatever the three arguments, and raises what
    that call raises: the steps of a move forward and of the same move
    backward add up to zero. *)
Theorem curved_mirror_steps_reverse (distance pitch steps_per_rotation : pynum) :
  curved_mirror_distance_to_steps (py_neg distance) pitch steps_per_rotation
  = rmap Z.opp
      (curved_mirror_distance_to_steps distance pitch steps_per_rotation).
Proof.
  unfold curved_mirror_distance_to_steps.
  pose proof (py_truediv_opposite distance pitch) as H.
  destruct (py_truediv distance pitch) as [[?|a]|e],
           (py_truediv (py_neg distance) pitch) as [[?|b]|e'];
    try tauto; cbn [rbind rmap]; [|congruence].
  unfold py_mul, float_binop.
  assert (Hm : (do x <- as_float steps_per_rotation;
                do steps <- (do y <- as_float (PFloat b); Ok (PFloat (fmul x y)));
                do rounded <- py_round steps; Ok (py_int rounded))
               = rmap Z.opp
                   (do x <- as_float steps_per_rotation;
                    do steps <- (do y <- as_float (PFloat a);
                                 Ok (PFloat (fmul x y)));
                    do rounded <- py_round steps; Ok (py_int rounded))).
  { destruct (as_float steps_per_rotation) as [x|]; cbn [rbind as_float rmap];
      [|reflexivity].
    rewrite (py_round_opposite _ _ (fmul_opposite x a b H)).
    now destruct (py_round (PFloat (fmul x a))). }
  destruct steps_per_rotation as [k|fs]; cbn [rbind as_float] in *.
  - destruct (is_infinity (Z_to_float k)); cbn [rbind rmap] in *;
      [reflexivity | exact Hm].
  - exact Hm.
Qed.

(** ** The direction of a move *)

Lemma binary_normalize_signed (b : bool) (m e : Z) :
  0 < m -> signed b (binary_normalize prec emax (cond_Zopp b m) e false).
Proof.
  intros Hm. unfold binary_normalize.
  destruct m as [|p|p]; try lia.
  destruct b; cbn [cond_Zopp Z.opp]; apply binary_round_signed.
Qed.

Lemma Z_div_float_signed (a b : Z) :
  b <> 0 -> signed (xorb (a <? 0) (b <? 0)) (Z_div_float a b).
Proof.
  intros Hb. unfold Z_div_float.
  destruct (Z.eqb_spec (Z.abs a) 0) as [E|NE]; [reflexivity|].
  apply binary_normalize_signed.
  set (k := Z.max 0 (56 + Z.log2 (Z.abs b) - Z.log2 (Z.abs a))).
  assert (Hk : 0 < 2 ^ k) by (apply Z.pow_pos_nonneg; lia).
  assert (HB : 0 < Z.abs b) by lia.
  assert (HA : 0 < Z.abs a * 2 ^ k) by (apply Z.mul_pos_pos; lia).
  pose proof (Z.div_mod (Z.abs a * 2 ^ k) (Z.abs b) ltac:(lia)) as Hdm.
  pose proof (Z.mod_pos_bound (Z.abs a * 2 ^ k) (Z.abs b) HB) as Hr.
  assert (Hq : 0 <= Z.abs a * 2 ^ k / Z.abs b) by (apply Z.div_pos; lia).
  destruct (Z.eqb_spec (Z.abs a * 2 ^ k mod Z.abs b) 0) as [Er|Nr]; [|lia].
  rewrite Er in Hdm.
  remember (Z.abs a * 2 ^ k / Z.abs b) as q.
  remember (Z.abs a * 2 ^ k) as n. clear - Hdm HA Hq HB. nia.
Qed.

Lemma as_float_signed (b : bool) (x : pynum) (f : float64) :
  sign_bit b x -> as_float x = Ok f -> signed b f.
Proof.
  destruct x as [z|g]; cbn [sign_bit as_float].
  - intros ->. destruct (is_infinity (Z_to_float z)); [discriminate|].
    intros [= <-]. apply Z_to_float_signed.
  - intros H [= <-]. exact H.
Qed.

Lemma py_truediv_signed (bx by_ : bool) (x y r : pynum) :
  sign_bit bx x -> sign_bit by_ y -> py_truediv x y = Ok r ->
  sign_bit (xorb bx by_) r.
Proof.
  intros Hx Hy.
  destruct x as [a|fa], y as [b|fb].
  - cbn [py_truediv sign_bit] in *. subst.
    destruct (Z.eqb_spec b 0) as [|Hb]; [discriminate|].
    destruct (is_infinity (Z_div_float a b)); [discriminate|].
    intros [= <-]. now apply Z_div_float_signed.
  - unfold py_truediv.
    destruct (as_float (PInt a)) as [x|] eqn:Ea; cbn [rbind as_float];
      [|discriminate].
    destruct (is_zero fb); [discriminate|]. intros [= <-].
    apply fdiv_signed; [now apply (as_float_signed _ _ _ Hx) | exact Hy].
  - unfold py_truediv. cbn [as_float rbind].
    destruct (as_float (PInt b)) as [y|] eqn:Eb; cbn [rbind as_float];
      [|cbn [as_float] in Eb; destruct (is_infinity (Z_to_float b));
        discriminate].
    cbn [as_float] in Eb.
    destruct (is_infinity (Z_to_float b)); [discriminate|].
    injection Eb as <-. cbn [rbind].
    destruct (is_zero (Z_to_float b)); [discriminate|]. intros [= <-].
    apply fdiv_signed; [exact Hx|].
    cbn [sign_bit] in Hy. subst. apply Z_to_float_signed.
  - unfold py_truediv. cbn [as_float rbind].
    destruct (is_zero fb); [discriminate|]. intros [= <-].
    now apply fdiv_signed.
Qed.

(** X12.  The rounding never turns a move around: the step count that
    [curved_mirror_distance_to_steps] returns is zero or has the sign of
    the product of its three arguments, so that with a positive pitch and
    positive steps per rotation a distance that is not negative gives
    steps that are not negative, and a distance that is not positive gives
    steps that are not positive. *)
Theorem curved_mirror_steps_direction
  (distance pitch steps_per_rotation : pynum) (bd bp bs : bool) (steps : Z) :
  sign_bit bd distance -> sign_bit bp pitch -> sign_bit bs steps_per_rotation ->
  curved_mirror_distance_to_steps distance pitch steps_per_rotation = Ok steps ->
  if xorb bs (xorb bd bp) then steps <= 0 else 0 <= steps.
Proof.
  intros Hd Hp Hs. unfold curved_mirror_distance_to_steps.
  destruct (py_truediv distance pitch) as [turns|] eqn:Et; cbn [rbind];
    [|discriminate].
  pose proof (py_truediv_signed _ _ _ _ _ Hd Hp Et) as Ht.
  destruct (py_truediv_float _ _ _ Et) as [ft ->]. cbn [sign_bit] in Ht.
  assert (Hm : py_mul steps_per_rotation (PFloat ft)
               = do x <- as_float steps_per_rotation; Ok (PFloat (fmul x ft)))
    by (destruct steps_per_rotation; reflexivity).
  rewrite Hm.
  destruct (as_float steps_per_rotation) as [x|] eqn:Ex; cbn [rbind];
    [|discriminate].
  pose proof (as_float_signed _ _ _ Hs Ex) as Hx.
  destruct (py_round (PFloat (fmul x ft))) as [z|] eqn:Er; cbn [rbind];
    [|discriminate].
  intros [= <-]. unfold py_int.
  eapply py_round_signed; [|exact Er]. now apply fmul_signed.
Qed.

Lemma curved_mirror_steps_direction_witness :
  0 <= 400000 /\ -400000 <= 0.
Proof.
  split.
  - apply (curved_mirror_steps_direction (lit 1 1) pitch_default
             steps_per_rotation_default false false false);
      reflexivity.
  - apply (curved_mirror_steps_direction (lit (-1) 1) pitch_default
             steps_per_rotation_default true false false);
      reflexivity.
Defined.

(** ** A zero pitch *)

(** X13.  With a pitch of zero, [0] or [0.0] or [-0.0], neither conversion
    returns: the division by the pitch raises, [ZeroDivisionError] whenever
    the distance is a float. *)
Theorem zero_pitch_raises
  (distance plate_thickness holder_thickness lip_thickness pitch
     steps_per_rotation : pynum) :
  pitch = PInt 0 \/ (exists s, pitch = PFloat (S754_zero s)) ->
  is_ok (curved_mirror_distance_to_steps distance pitch steps_per_rotation)
  = false
  /\ is_ok (plates_distance_to_steps distance plate_thickness holder_thickness
              lip_thickness pitch steps_per_rotation) = false
  /\ (forall f, distance = PFloat f ->
        curved_mirror_distance_to_steps distance pitch steps_per_rotation
        = Raise ZeroDivisionError).
Proof.
  intros Hz.
  assert (Hdiv : forall x, is_ok (py_truediv x pitch) = false
                           /\ (forall f, x = PFloat f ->
                                 py_truediv x pitch = Raise ZeroDivisionError)).
  { intros x. destruct Hz as [->|[s ->]]; destruct x as [a|fa];
      unfold py_truediv, as_float; cbn [rbind Z.eqb is_ok];
      try (split; [reflexivity | intros f [= ->]; reflexivity]);
      try (split; [reflexivity | discriminate]).
    destruct (is_infinity (Z_to_float a)); cbn [rbind is_zero is_ok];
      split; try reflexivity; discriminate. }
  split; [|split].
  - unfold curved_mirror_distance_to_steps.
    destruct (Hdiv distance) as [H _].
    destruct (py_truediv distance pitch); [discriminate H | reflexivity].
  - unfold plates_distance_to_steps.
    destruct (py_truediv holder_thickness (PInt 2)); cbn [rbind];
      [|reflexivity].
    destruct (py_truediv plate_thickness (PInt 2)); cbn [rbind];
      [|reflexivity].
    destruct (py_add lip_thickness _); cbn [rbind]; [|reflexivity].
    destruct (py_sub _ _); cbn [rbind]; [|reflexivity].
    destruct (py_add distance _) as [actual|]; cbn [rbind]; [|reflexivity].
    destruct (Hdiv actual) as [H _].
    destruct (py_truediv actual pitch); [discriminate H | reflexivity].
  - intros f ->. unfold curved_mirror_distance_to_steps.
    destruct (Hdiv (PFloat f)) as [_ H]. now rewrite (H f eq_refl).
Qed.

Lemma zero_pitch_raises_witness :
  curved_mirror_distance_to_steps (lit 1 1) (PInt 0) (PInt 20000)
  = Raise ZeroDivisionError.
Proof.
  apply (proj2 (proj2 (zero_pitch_raises (lit 1 1) (lit 1 10) (lit 1 4)
                         (lit 1 20) (PInt 0) (PInt 20000)
                         (or_introl eq_refl)))
           (Z_div_float 1 1)).
  reflexivity.
Defined.

(** ** Thousandths of an inch *)

Lemma exact_from_spec (n : nat) (k j : Z) :
  exact_from n k = true -> k <= j < k + Z.of_nat n ->
  exact_thousandths j = true.
Proof.
  revert k. induction n as [|n IH]; intros k H Hj; [lia|].
  cbn [exact_from] in H. apply andb_prop in H. destruct H as [H1 H2].
  destruct (Z.eq_dec j k) as [->|]; [assumption|].
  apply (IH (k + 1) H2). lia.
Qed.

Lemma exact_two_inches : exact_from 4001 (-2000) = true.
Proof. vm_compute. reflexivity. Qed.

(** X14.  On the grid of thousandths of an inch the conversion of the
    curved mirror loses nothing to the floating-point arithmetic: for
    every whole number [k] of thousandths up to two inches either way, the
    distance [k/1000] converts to exactly [400 * k] steps, at the default
    pitch and steps per rotation. *)
Theorem thousandths_convert_exactly (k : Z) :
  -2000 <= k <= 2000 ->
  curved_mirror_steps (lit k 1000) = Ok (400 * k).
Proof.
  intros Hk.
  assert (H : exact_thousandths k = true).
  { apply (exact_from_spec 4001 (-2000)); [exact exact_two_inches|].
    change (Z.of_nat 4001) with 4001. lia. }
  unfold exact_thousandths in H.
  destruct (curved_mirror_steps (lit k 1000)) as [steps|]; [|discriminate].
  apply Z.eqb_eq in H. now subst.
Qed.

Lemma thousandths_convert_exactly_witness :
  curved_mirror_steps (lit 5 1000) = Ok 2000.
Proof. apply (thousandths_convert_exactly 5). lia. Defined.

(** ** Dividing by one *)








(** ** [flmn] on degenerate arguments and across its modes *)

Lemma flmn_zero_radius (acos : float64 -> float64)
  (l m n length eps_r r0 : pynum) (r0_m : float64) :
  is_ok (speed eps_r) = true ->
  is_ok (mode_sum l m) = true ->
  is_ok (py_truediv length (PInt 100)) = true ->
  py_truediv r0 (PInt 100) = Ok (PFloat r0_m) -> is_zero r0_m = true ->
  flmn acos l m n length eps_r r0 = Raise ZeroDivisionError.
Proof.
  intros Hv Hs Hl Hr Hz. rewrite flmn_tail.
  destruct (speed eps_r) as [v|]; [|discriminate].
  destruct (mode_sum l m) as [sum|]; [|discriminate].
  destruct (py_truediv length (PInt 100)) as [l_in_m|] eqn:El; [|discriminate].
  destruct (py_truediv_float _ _ _ El) as [lf ->].
  rewrite Hr. cbn [rbind].
  change (py_mul (PInt 2) (PFloat lf))
    with (Ok (PFloat (fmul (Z_to_float 2) lf))).
  cbn [rbind]. unfold py_truediv. cbn [as_float rbind]. now rewrite Hz.
Qed.

Lemma acos_argument_zero_length (length r0 : pynum) (l_in_m : float64) :
  py_truediv length (PInt 100) = Ok (PFloat l_in_m) -> is_zero l_in_m = true ->
  forall x,
    acos_argument length r0 = Ok x ->
    (not_a_number x || between (-1) 1 x) = true.
Proof.
  intros Hl Hz x. unfold acos_argument. rewrite Hl. cbn [rbind].
  change (py_mul (PInt 2) (PFloat l_in_m))
    with (Ok (PFloat (fmul (Z_to_float 2) l_in_m))).
  cbn [rbind].
  destruct (py_truediv r0 (PInt 100)) as [r0_m|] eqn:Hr; cbn [rbind];
    [|discriminate].
  destruct (py_truediv_float _ _ _ Hr) as [rf ->].
  unfold py_truediv. cbn [as_float rbind].
  destruct (is_zero rf) eqn:Hrz; [discriminate|]. cbn [rbind].
  rewrite py_sub_one_float. intros [= <-].
  destruct l_in_m as [s| | |]; try discriminate.
  destruct s, rf as [s'|[|]| |[|] m' e']; try discriminate; reflexivity.
Qed.

Lemma flmn_zero_length (acos : float64 -> float64)
  (l m n length eps_r r0 n_1 : pynum) (l_in_m : float64) :
  c_library acos ->
  is_ok (speed eps_r) = true ->
  is_ok (mode_sum l m) = true ->
  is_ok (py_truediv r0 (PInt 100)) = true ->
  py_add n (PInt 1) = Ok n_1 -> convertible n_1 = true ->
  py_truediv length (PInt 100) = Ok (PFloat l_in_m) -> is_zero l_in_m = true ->
  flmn acos l m n length eps_r r0 = Raise ZeroDivisionError.
Proof.
  intros Hc Hv Hs Hr Hn Hcn Hl Hz.
  destruct (py_truediv r0 (PInt 100)) as [r0_m|] eqn:Er; [|discriminate].
  destruct (py_truediv_float _ _ _ Er) as [rf ->].
  destruct (is_zero rf) eqn:Hrz.
  { apply (flmn_zero_radius acos l m n length eps_r r0 rf); auto.
    now rewrite Hl. }
  rewrite flmn_flow.
  destruct (speed eps_r) as [v|] eqn:Ev; [|discriminate].
  destruct (speed_float _ _ Ev) as [vf ->].
  destruct (mode_sum l m) as [sum|]; [|discriminate]. cbn [rbind].
  pose proof (acos_argument_zero_length length r0 l_in_m Hl Hz) as Hx.
  destruct (acos_argument length r0) as [x|e] eqn:Ex.
  2: { exfalso. revert Ex. unfold acos_argument. rewrite Hl, Er. cbn [rbind].
       change (py_mul (PInt 2) (PFloat l_in_m))
         with (Ok (PFloat (fmul (Z_to_float 2) l_in_m))).
       cbn [rbind]. unfold py_truediv. cbn [as_float rbind]. rewrite Hrz.
       cbn [rbind]. now rewrite py_sub_one_float. }
  specialize (Hx x eq_refl).
  destruct (acos_argument_float _ _ _ Ex) as (xf & lf & -> & _ & _).
  cbn [rbind]. rewrite (math_acos_float acos xf Hc), Hl.
  assert (Ht : forall a,
             tail n (PFloat vf) (PFloat l_in_m) sum (PFloat a)
             = Raise ZeroDivisionError).
  { intros a. rewrite tail_run by (eapply py_truediv_above; exact Hl).
    rewrite Hn. cbn [rbind]. unfold convertible in Hcn.
    destruct (as_float n_1); [|discriminate]. cbn [rbind]. now rewrite Hz. }
  destruct (is_nan xf) eqn:Hnan; cbn [rbind]; [apply Ht|].
  destruct (between (-1) 1 (PFloat xf)) eqn:Hb; cbn [rbind]; [apply Ht|].
  rewrite ?Hb, orb_false_r in Hx. destruct xf; discriminate.
Qed.

(** X16.  [flmn] validates nothing, and a degenerate argument shows as an
    exception: an [eps_r] too large for a [float] raises [OverflowError]
    in [math.sqrt]; a negative [eps_r] raises [ValueError]; a zero [eps_r]
    raises [ZeroDivisionError]; once the speed, [1 + l + m] and
    [length/100] are defined, an [r0] whose hundredth is zero raises
    [ZeroDivisionError]; and once the speed, [1 + l + m] and [r0/100] are
    defined and [n + 1] converts to a [float], a [length] whose hundredth
    is zero raises [ZeroDivisionError].  The hundredth of a nonzero length
    can be zero: that of the least positive [float] is. *)
Theorem flmn_degenerate_arguments (acos : float64 -> float64)
  (l m n length eps_r r0 : pynum) :
  c_library acos -> valid eps_r ->
  let call := flmn acos l m n length eps_r r0 in
  (convertible eps_r = false -> call = Raise OverflowError)
  /\ (convertible eps_r = true -> py_sgn eps_r = Some (-1) ->
      call = Raise ValueError)
  /\ (py_sgn eps_r = Some 0 -> call = Raise ZeroDivisionError)
  /\ (is_ok (speed eps_r) = true -> is_ok (mode_sum l m) = true ->
      is_ok (py_truediv length (PInt 100)) = true ->
      forall r0_m,
        py_truediv r0 (PInt 100) = Ok (PFloat r0_m) -> is_zero r0_m = true ->
        call = Raise ZeroDivisionError)
  /\ (is_ok (speed eps_r) = true -> is_ok (mode_sum l m) = true ->
      is_ok (py_truediv r0 (PInt 100)) = true ->
      forall n_1 l_in_m,
        py_add n (PInt 1) = Ok n_1 -> convertible n_1 = true ->
        py_truediv length (PInt 100) = Ok (PFloat l_in_m) ->
        is_zero l_in_m = true ->
        call = Raise ZeroDivisionError)
  /\ py_truediv (PFloat (S754_finite false 1 (-1074))) (PInt 100)
     = Ok (PFloat (S754_zero false)).
Proof.
  intros Hc Hv call. subst call.
  destruct (speed_sign eps_r Hv) as (S1 & S2 & S3).
  split; [|split; [|split; [|split; [|split]]]].
  - intros Hn. rewrite flmn_flow. unfold speed, math_sqrt, math_1.
    unfold convertible in Hn.
    destruct (as_float eps_r) as [f|e] eqn:E; [discriminate|].
    destruct eps_r as [z|f]; [|discriminate]. cbn [as_float] in E.
    destruct (is_infinity (Z_to_float z)); [|discriminate].
    now injection E as <-.
  - intros Hn Hs. rewrite flmn_flow.
    rewrite (proj2 S1 (conj Hn Hs)). reflexivity.
  - intros Hs. rewrite flmn_flow. rewrite (proj2 S2 Hs). reflexivity.
  - intros. eapply flmn_zero_radius; eauto.
  - intros. eapply flmn_zero_length; eauto.
  - reflexivity.
Qed.

Lemma flmn_degenerate_arguments_witness :
  flmn sample_acos (PInt 0) (PInt 0) (PInt 0)
    (PFloat (S754_finite false 1 (-1074))) eps_r_default r0_default
  = Raise ZeroDivisionError.
Proof.
  apply (proj1 (proj2 (proj2 (proj2 (proj2
           (flmn_degenerate_arguments sample_acos (PInt 0) (PInt 0) (PInt 0)
              (PFloat (S754_finite false 1 (-1074))) eps_r_default r0_default
              sample_acos_c_library I)))))
         eq_refl eq_refl eq_refl (PInt 1) (S754_zero false));
    reflexivity.
Defined.

(** X17.  With [int] mode numbers the result of [flmn] depends on [l] and
    [m] through their sum only. *)
Theorem flmn_mode_degeneracy (acos : float64 -> float64)
  (l m l' m' : Z) (n length eps_r r0 : pynum) :
  l + m = l' + m' ->
  flmn acos (PInt l) (PInt m) n length eps_r r0
  = flmn acos (PInt l') (PInt m') n length eps_r r0.
Proof.
  intros H. rewrite !flmn_tail. unfold mode_sum. cbn [py_add rbind].
  replace (1 + l' + m') with (1 + l + m) by lia. reflexivity.
Qed.

Lemma flmn_mode_degeneracy_witness :
  flmn sample_acos (PInt 2) (PInt 0) (PInt 0) (PInt 20) eps_r_default r0_default
  = flmn sample_acos (PInt 1) (PInt 1) (PInt 0) (PInt 20) eps_r_default
      r0_default.
Proof.
  apply (flmn_mode_degeneracy sample_acos 2 0 1 1). reflexivity.
Defined.

(** With [float] mode numbers it does not: [1 + l + m] is rounded after
    each addition, and exchanging [2^53] and [-2^53] changes it. *)
Remark flmn_float_modes_not_symmetric :
  let big := PFloat (Z_to_float (2 ^ 53)) in
  let small := PFloat (Z_to_float (- 2 ^ 53)) in
  flmn sample_acos big small (PInt 0) (PInt 20) eps_r_default r0_default
  <> flmn sample_acos small big (PInt 0) (PInt 20) eps_r_default r0_default.
Proof. vm_compute. discriminate. Qed.
